(** * mark-tab-manager: the settings store and the site organizer

    A shallow embedding of [src/storage/Store.ts] (the cached, migrating
    settings store) and of the [SiteOrganizer] class (sorting, clustering
    and the incremental tab tracking), followed by the properties the
    specification states about them.

    Conventions of the embedding:
    - a JavaScript object used as a record is an association list in
      [Object.keys] order; writing an existing key keeps its position,
      writing a new string key appends it;
    - a thrown exception is the [Throw] case of [result];
    - the [Map<number, string>] that tracks tabs is a [gmap Z string];
    - platform functions the classes call but do not define ([JSON.parse],
      [JSON.stringify], [URL], [parseSharedDomain], [localeCompare], the
      colour enum of the browser) are section variables. *)

From stdpp Require Import gmap strings list.
From Stdlib Require Import ZArith Sorting.Sorted Sorting.Permutation.
From Stdlib Require Import Ascii DecimalString Structures.OrderedTypeEx.

Open Scope string_scope.
Open Scope list_scope.

(** ** Exceptions and results *)

Inductive Exn : Type :=
| Error (message : string)      (* [throw new Error(message)] *)
| LastError (message : string)  (* [throw lastError] *)
| SyntaxError                   (* raised by [JSON.parse] *)
| TypeError.                    (* raised by [Object.keys(null)] *)

Inductive result (A : Type) : Type :=
| Ok (a : A)
| Throw (e : Exn).
Arguments Ok {A} a.
Arguments Throw {A} e.

#[global] Instance result_bind : MBind result := fun A B k r =>
  match r with
  | Ok a => k a
  | Throw e => Throw e
  end.

#[global] Instance result_ret : MRet result := fun A a => Ok a.

(** A promise seen by its caller: still pending, or settled with a value or
    a rejection. *)
Inductive Async (A : Type) : Type :=
| Pending
| Settled (r : result A).
Arguments Pending {A}.
Arguments Settled {A} r.

(** ** JavaScript values and objects *)

#[warnings="-register-all"]
Inductive JsValue : Type :=
| JUndefined
| JNull
| JBool (b : bool)
| JNum (n : Z)
| JStr (s : string)
| JArr (items : list JsValue)
| JObj (props : list (string * JsValue)).

(** Own enumerable properties, in [Object.keys] order. *)
Definition JsObj : Type := list (string * JsValue).

Definition truthy (v : JsValue) : bool :=
  match v with
  | JUndefined | JNull => false
  | JBool b => b
  | JNum n => negb (n =? 0)%Z
  | JStr s => negb (String.eqb s "")
  | JArr _ | JObj _ => true
  end.

Definition includes (keys : list string) (key : string) : bool :=
  existsb (String.eqb key) keys.

Definition obj_keys {V} (o : list (string * V)) : list string := map fst o.

Fixpoint obj_lookup {V} (o : list (string * V)) (key : string) : option V :=
  match o with
  | [] => None
  | (k, v) :: rest => if String.eqb k key then Some v else obj_lookup rest key
  end.

(** [o[key] = v]: overwrite in place, or append a new property. *)
Fixpoint obj_set {V} (o : list (string * V)) (key : string) (v : V)
  : list (string * V) :=
  match o with
  | [] => [(key, v)]
  | (k, w) :: rest =>
      if String.eqb k key then (k, v) :: rest else (k, w) :: obj_set rest key v
  end.

(** [{ ...a, ...b }] *)
Definition assign {V} (target src : list (string * V)) : list (string * V) :=
  fold_left (fun acc kv => obj_set acc (fst kv) (snd kv)) src target.

Definition spread {V} (a b : list (string * V)) : list (string * V) :=
  assign (assign [] a) b.

Definition index_key (i : nat) : string :=
  NilZero.string_of_uint (Nat.to_uint i).

Fixpoint chars (s : string) : list JsValue :=
  match s with
  | EmptyString => []
  | String c rest => JStr (String c EmptyString) :: chars rest
  end.

(** The own enumerable properties of a value: those of an object, the
    indices of an array or of a string, none for a number or a boolean. *)
Definition entries (v : JsValue) : JsObj :=
  match v with
  | JObj props => props
  | JArr items => imap (fun i x => (index_key i, x)) items
  | JStr s => imap (fun i x => (index_key i, x)) (chars s)
  | _ => []
  end.

Definition Object_keys (v : JsValue) : result (list string) :=
  match v with
  | JUndefined | JNull => Throw TypeError
  | _ => Ok (obj_keys (entries v))
  end.

(** [v[key]] for a key that [Object.keys] returned. *)
Definition prop_get (v : JsValue) (key : string) : JsValue :=
  match obj_lookup (entries v) key with
  | Some x => x
  | None => JUndefined
  end.

(** ** [Store] (src/storage/Store.ts) *)

Module Store.

Record t : Type := mk {
  state : JsObj;
  loaded : bool       (* whether [resolveLoaded] has been called *)
}.

Definition makeDefaultState : JsObj :=
  [ ("clusterGroupedTabs", JBool true);
    ("enableAutomaticGrouping", JBool true);
    ("enableAlphabeticSorting", JBool true);
    ("enableSubdomainFiltering", JBool false);
    ("forceWindowConsolidation", JBool false) ].

Definition makeLegacyState : JsObj :=
  [ ("enableAutomaticSorting", JBool true) ].

Definition isLegacyKeyValid (key : string) : bool :=
  includes (obj_keys makeLegacyState) key.

Definition isKeyValid (key : string) : bool :=
  includes (obj_keys makeDefaultState) key.

(** A key of the current schema: one [isKeyValid] accepts, and so not a
    legacy key. *)
Definition schemaKey (key : string) : Prop :=
  isKeyValid key = true /\ isLegacyKeyValid key = false.

Definition migratedKeyByLegacy : list (string * string) :=
  [ ("enableAutomaticSorting", "enableAlphabeticSorting") ].

Definition getMigratedKey (key : string) : option string :=
  match obj_lookup migratedKeyByLegacy key with
  | Some migratedKey =>
      if String.eqb migratedKey "" then None else Some migratedKey
  | None => None
  end.

Definition migrateState (keys : list string) (state : JsValue) : JsObj :=
  let legacyStateKeys := List.filter isLegacyKeyValid keys in
  fold_left
    (fun migratedState legacyStateKey =>
       match getMigratedKey legacyStateKey with
       | None => migratedState
       | Some migratedKey =>
           obj_set migratedState migratedKey (prop_get state legacyStateKey)
       end)
    legacyStateKeys [].

(** The body of [parseValidState] after [JSON.parse]. *)
Definition validateParsedState (parsedState : JsValue) : result JsObj :=
  stateKeys ← Object_keys parsedState;
  let validStateKeys := List.filter isKeyValid stateKeys in
  let validParsedState :=
    fold_left
      (fun acc validStateKey =>
         obj_set acc validStateKey (prop_get parsedState validStateKey))
      validStateKeys [] in
  let migratedState := migrateState stateKeys parsedState in
  Ok (spread validParsedState migratedState).

Definition setInternalState (s : t) (internalState : JsObj) : t * JsObj :=
  let state' := spread (state s) internalState in
  (mk state' (loaded s), state').

Definition getState (s : t) : Async JsObj :=
  if loaded s then Settled (Ok (state s)) else Pending.

(** The store the constructor makes: the defaults, not loaded yet. *)
Definition create : t := mk makeDefaultState false.

Section Platform.

(** [JSON.parse], with [None] for its [SyntaxError], and [JSON.stringify]. *)
Variable JSON_parse : string -> option JsValue.
Variable JSON_stringify : JsObj -> string.

Definition parseValidState (state : string) : result JsObj :=
  if String.eqb state "" then Throw (Error "No state to parse")
  else
    match JSON_parse state with
    | None => Throw SyntaxError
    | Some parsedState => validateParsedState parsedState
    end.

(** [read] is how [await storage.sync.get('settings')] ended: [Ok settings]
    when the promise resolved, [settings] being the [settings] property of
    the items ([JUndefined] when they have none), and [Throw e] when it
    rejected with [e].  The whole body is in a [try] whose [catch] logs the
    exception and throws it again, so that an exception leaves the method
    as it was raised, the rejection of the read included. *)
Definition cacheStorage (s : t) (read : result JsValue) : result t :=
  settings ← read;
  match settings with
  | JUndefined => Ok s
  | JStr blob =>
      validState ← parseValidState blob;
      Ok (fst (setInternalState s validState))
  | _ => Throw (Error "Invalid settings storage")
  end.

(** The constructor has stored [resolveLoaded], so the guard of [load] on
    it never fires; an exception of [cacheStorage] leaves the gate shut. *)
Definition load (s : t) (read : result JsValue) : result t :=
  s' ← cacheStorage s read;
  Ok (mk (state s') true).

(** [setState]: [settings] is the persisted item before the call and
    [writeError] the rejection of [storage.sync.set], if any.  The call
    waits for [loaded]; it returns the store, the persisted item and the
    promise as its caller sees it. *)
Definition setState (s : t) (settings : JsValue) (writeError : option Exn)
    (partial : JsObj) : t * JsValue * Async unit :=
  if loaded s then
    let '(s', internalState) := setInternalState s partial in
    let serializedState := JSON_stringify internalState in
    match writeError with
    | None => (s', JStr serializedState, Settled (Ok tt))
    | Some e => (s', settings, Settled (Throw e))
    end
  else (s, settings, Pending).

End Platform.

End Store.

(** ** [SiteOrganizer] *)

Module SiteOrganizer.

(** A tab snapshot as [tabs.query] returns it; [id] and [url] are optional
    in the browser's type. *)
Record Tab : Type := mkTab {
  id : option Z;
  url : option string;
  windowId : N;
  pinned : bool
}.

Record ChangeInfo : Type := mkChangeInfo {
  status : option string;
  changedUrl : option string      (* [changeInfo.url] *)
}.

(** [!id] fails for a missing id and for [0]; [!url] for a missing url and
    for the empty string. *)
Definition truthyId (i : option Z) : option Z :=
  match i with
  | Some n => if (n =? 0)%Z then None else Some n
  | None => None
  end.

Definition truthyUrl (u : option string) : option string :=
  match u with
  | Some s => if String.eqb s "" then None else Some s
  | None => None
  end.

(** Calls the organizer makes on the browser, in the order it makes them. *)
Inductive Command : Type :=
| Move (tabId : Z)                                   (* [tabs.move(id, {index: -1})] *)
| Ungroup (tabIds : list Z)                          (* [removeExistingGroup] *)
| AddNewGroup (idx : Z) (name : string) (tabIds : list Z) (windowId : N).

Definition isMove (c : Command) : Prop := exists i, c = Move i.

(** A call that creates a group names two tabs or more. *)
Definition bigEnough (c : Command) : Prop :=
  match c with
  | AddNewGroup _ _ tabIds _ => 2 <= length tabIds
  | _ => True
  end.

(** The colour indices of the groups a list of calls creates, in order. *)
Definition groupIndices (cmds : list Command) : list Z :=
  flat_map (fun c => match c with AddNewGroup idx _ _ _ => [idx] | _ => [] end)
    cmds.

Record Pass : Type := mkPass {
  commands : list Command;
  thrown : option Exn
}.

(** [{ [windowId]: number[] }]: integer keys, which [Object.keys] lists in
    ascending order whatever the insertion order. *)
Definition ByWindow : Type := list (N * list Z).

Fixpoint win_lookup (o : ByWindow) (w : N) : option (list Z) :=
  match o with
  | [] => None
  | (k, ids) :: rest => if (k =? w)%N then Some ids else win_lookup rest w
  end.

Fixpoint win_set (o : ByWindow) (w : N) (ids : list Z) : ByWindow :=
  match o with
  | [] => [(w, ids)]
  | (k, old) :: rest =>
      if (k =? w)%N then (k, ids) :: rest
      else if (w <? k)%N then (w, ids) :: (k, old) :: rest
      else (k, old) :: win_set rest w ids
  end.

(** [MkTabIdsByDomain]: domain label, then window id, then tab ids.  The
    labels are taken not to be array indices, so that [Object.keys] lists
    them in insertion order. *)
Definition TabIdsByDomain : Type := list (string * ByWindow).

Definition nonEmptyBuckets (t : TabIdsByDomain) : Prop :=
  forall name byWindow w tabIds,
    In (name, byWindow) t -> In (w, tabIds) byWindow -> tabIds <> [].

(** The state of an event handler when it returns: the tracking map, the
    number of [organize()] passes it started, and what it threw. *)
Record Outcome : Type := mkOutcome {
  tracking : gmap Z string;
  organizeCalls : nat;
  raised : option Exn
}.

Definition filterNonPinnedTabs (tabs : list Tab) : list Tab :=
  List.filter (fun tab => negb (pinned tab)) tabs.

(** [Array.prototype.sort] with a comparator that may throw.  ECMAScript
    fixes the result for a consistent comparator (a stable sort) and leaves
    the sequence of comparisons to the engine; here it is a stable
    insertion sort, in which, as in any engine, every element of an array
    of two or more is compared at least once, and an exception of the
    comparator ends the sort. *)
Fixpoint sort_insert {A} (compareFn : A -> A -> result Z) (x : A) (l : list A)
  : result (list A) :=
  match l with
  | [] => Ok [x]
  | y :: rest =>
      c ← compareFn x y;
      if (c <=? 0)%Z then Ok (x :: y :: rest)
      else (r ← sort_insert compareFn x rest; Ok (y :: r))
  end.

Fixpoint Array_sort {A} (compareFn : A -> A -> result Z) (l : list A)
  : result (list A) :=
  match l with
  | [] => Ok []
  | x :: rest =>
      sorted ← Array_sort compareFn rest; sort_insert compareFn x sorted
  end.

(** What [Array_sort] returns when no comparison throws. *)
Fixpoint insertBy {A} (compare : A -> A -> Z) (x : A) (l : list A) : list A :=
  match l with
  | [] => [x]
  | y :: rest =>
      if (compare x y <=? 0)%Z then x :: y :: rest
      else y :: insertBy compare x rest
  end.

Fixpoint sortBy {A} (compare : A -> A -> Z) (l : list A) : list A :=
  match l with
  | [] => []
  | x :: rest => insertBy compare x (sortBy compare rest)
  end.

(** The ids of the tabs of a list that have one. *)
Definition tabIds (tabs : list Tab) : list Z :=
  flat_map (fun tab => match truthyId (id tab) with
                       | Some i => [i]
                       | None => []
                       end) tabs.

(** [tabIdsByDomain[domain][w]], empty when either key is missing. *)
Definition bucketOf (t : TabIdsByDomain) (domain : string) (w : N) : list Z :=
  match obj_lookup t domain with
  | Some byWindow => default [] (win_lookup byWindow w)
  | None => []
  end.

(** The tab ids a call to [tabs.group] or [tabs.ungroup] names. *)
Definition clusteredIds (c : Command) : list Z :=
  match c with
  | Move _ => []
  | Ungroup tabIds => tabIds
  | AddNewGroup _ _ tabIds _ => tabIds
  end.

(** What the browser delivers to the listeners of [connect]: the event,
    with [browser.runtime.lastError] and the state [store.getState()]
    resolves with at that time. *)
Inductive Event : Type :=
| Clicked
| Updated (tabId : Z) (changeInfo : ChangeInfo)
| Removed (tabId : Z).

Record Delivery : Type := mkDelivery {
  event : Event;
  pendingError : option string;
  storeState : JsObj
}.

(** The title [addNewGroup] gives a group. *)
Definition groupTitle (name : string) (tabIds : list Z) : string :=
  name +:+ " (" +:+ index_key (length tabIds) +:+ ")".

Section Browser.

(** [new URL(url).hostname] and [parseSharedDomain] (src/helpers). *)
Variable hostname : string -> string.
Variable parseSharedDomain : string -> string.
(** [String.prototype.localeCompare]. *)
Variable localeCompare : string -> string -> Z.
(** The values of [browser.tabGroups.Color], in key order. *)
Variable Color : list string.
(** Whether the four grouping APIs are all present. *)
Variable isTabGroupingSupported : bool.

Definition domainOf (u : string) : string := parseSharedDomain (hostname u).

Definition domainCompare (a b : string) : Z :=
  if String.eqb a b then 0%Z
  else if String.eqb a "new" then 1%Z
  else if String.eqb b "new" then (-1)%Z
  else localeCompare a b.

(** The domain label of a tab that has a URL. *)
Definition labelOf (tab : Tab) : string :=
  match truthyUrl (url tab) with
  | Some u => domainOf u
  | None => ""
  end.

(** The order of the specification: ascending by [localeCompare], with the
    label "new" after every other label. *)
Definition labelOrder (a b : string) : Prop :=
  b = "new" \/ (a <> "new" /\ (localeCompare a b <= 0)%Z).

Definition hasUrl (tab : Tab) : bool :=
  match truthyUrl (url tab) with
  | Some _ => true
  | None => false
  end.

(** What the specification asks of the sorted sequence: the same tabs, in
    [labelOrder], the tabs of one label in the order the query gave them. *)
Definition SortedByLabel (tabs sortedTabs : list Tab) : Prop :=
  Permutation tabs sortedTabs
  /\ StronglySorted (fun a b => labelOrder (labelOf a) (labelOf b)) sortedTabs
  /\ forall label,
       List.filter (fun tab => String.eqb (labelOf tab) label) sortedTabs
       = List.filter (fun tab => String.eqb (labelOf tab) label) tabs.

(** The comparator of [sortTabsAlphabetically] between tabs that have a
    URL. *)
Definition compareLabels (a b : Tab) : Z :=
  domainCompare (labelOf a) (labelOf b).

Definition missingUrl : Exn := Error "No url for sorted tab".

(** The comparator of [sortTabsAlphabetically]. *)
Definition compareTabs (a b : Tab) : result Z :=
  match truthyUrl (url a), truthyUrl (url b) with
  | Some aUrl, Some bUrl => Ok (domainCompare (domainOf aUrl) (domainOf bUrl))
  | _, _ => Throw missingUrl
  end.

Definition sortTabsAlphabetically (tabs : list Tab) : result (list Tab) :=
  Array_sort compareTabs tabs.

(** [reorderBrowserTabs]: the moves issued, and the error that stopped the
    loop, if any. *)
Fixpoint reorderBrowserTabs (tabs : list Tab) : list Command * option Exn :=
  match tabs with
  | [] => ([], None)
  | tab :: rest =>
      match truthyId (id tab) with
      | None => ([], Some (Error "No id for sorted tab"))
      | Some i =>
          let '(moves, e) := reorderBrowserTabs rest in (Move i :: moves, e)
      end
  end.

(** One iteration of the loop of [sortTabIdsByDomain]. *)
Definition addTabId (tabIdsByDomain : TabIdsByDomain) (tab : Tab)
  : result TabIdsByDomain :=
  match truthyId (id tab) with
  | None => Throw (Error "No id for tab")
  | Some i =>
      match truthyUrl (url tab) with
      | None => Throw (Error "No tab url")
      | Some u =>
          let domain := domainOf u in
          match obj_lookup tabIdsByDomain domain with
          | None => Ok (obj_set tabIdsByDomain domain [(windowId tab, [i])])
          | Some byWindow =>
              match win_lookup byWindow (windowId tab) with
              | None =>
                  Ok (obj_set tabIdsByDomain domain
                        (win_set byWindow (windowId tab) [i]))
              | Some tabIds =>
                  Ok (obj_set tabIdsByDomain domain
                        (win_set byWindow (windowId tab) (tabIds ++ [i])))
              end
          end
      end
  end.

Fixpoint collectTabIds (tabIdsByDomain : TabIdsByDomain) (tabs : list Tab)
  : result TabIdsByDomain :=
  match tabs with
  | [] => Ok tabIdsByDomain
  | tab :: rest =>
      next ← addTabId tabIdsByDomain tab; collectTabIds next rest
  end.

Definition sortTabIdsByDomain (tabs : list Tab) : result TabIdsByDomain :=
  collectTabIds [] tabs.

(** [index % colorKeys.length] is the remainder of JavaScript: it has the
    sign of [index], and [colors[colorIdx]] is undefined out of range. *)
Definition getColorForGroup (index : Z) : option string :=
  match Color with
  | [] => None
  | _ :: _ =>
      let colorIdx := Z.rem index (Z.of_nat (length Color)) in
      if (colorIdx <? 0)%Z then None else nth_error Color (Z.to_nat colorIdx)
  end.

(** The inner loop of [renderBrowserTabGroups], over the windows of one
    domain label: the new [groupIdxOffset] and the calls made. *)
Fixpoint renderWindows (idx : Z) (name : string) (byWindow : ByWindow)
    (windows : list N) (groupIdxOffset : Z) : Z * list Command :=
  match windows with
  | [] => (groupIdxOffset, [])
  | windowGroup :: rest =>
      let tabIds := default [] (win_lookup byWindow windowGroup) in
      if (length tabIds <? 2)%nat then
        let '(offset, cmds) :=
          renderWindows idx name byWindow rest (groupIdxOffset + 1) in
        (offset, Ungroup tabIds :: cmds)
      else
        let groupIdx := (idx - groupIdxOffset)%Z in
        let '(offset, cmds) :=
          renderWindows idx name byWindow rest groupIdxOffset in
        (offset, AddNewGroup groupIdx name tabIds windowGroup :: cmds)
  end.

(** The outer loop, [names.forEach((name, idx) => ...)]. *)
Fixpoint renderNames (tabIdsByGroup : TabIdsByDomain) (names : list string)
    (idx : Z) (groupIdxOffset : Z) : list Command :=
  match names with
  | [] => []
  | name :: rest =>
      let byWindow := default [] (obj_lookup tabIdsByGroup name) in
      let group := map fst byWindow in
      let isRealGroup w :=
        (1 <? length (default [] (win_lookup byWindow w)))%nat in
      let realGroups := List.filter isRealGroup group in
      let orphanGroups := List.filter (fun w => negb (isRealGroup w)) group in
      let '(offset, cmds) :=
        renderWindows idx name byWindow (realGroups ++ orphanGroups)
          groupIdxOffset in
      cmds ++ renderNames tabIdsByGroup rest (idx + 1) offset
  end.

Definition renderBrowserTabGroups (tabIdsByGroup : TabIdsByDomain)
  : list Command :=
  renderNames tabIdsByGroup (obj_keys tabIdsByGroup) 0 0.

(** [organize]: [lastError] is [browser.runtime.lastError] after the query
    and [tabs] what the query returned. *)
Definition organize (lastError : option string) (tabs : list Tab) : Pass :=
  match lastError with
  | Some e => mkPass [] (Some (LastError e))
  | None =>
      match sortTabsAlphabetically tabs with
      | Throw e => mkPass [] (Some e)
      | Ok sortedTabs =>
          match reorderBrowserTabs sortedTabs with
          | (moves, Some e) => mkPass moves (Some e)
          | (moves, None) =>
              if negb isTabGroupingSupported then mkPass moves None
              else
                match sortTabIdsByDomain (filterNonPinnedTabs sortedTabs) with
                | Throw e => mkPass moves (Some e)
                | Ok tabIdsByDomain =>
                    mkPass (moves ++ renderBrowserTabGroups tabIdsByDomain) None
                end
          end
      end
  end.

(** *** The listeners that [connect] registers

    [lastError] is [browser.runtime.lastError] when the listener runs,
    [state] the object [store.getState()] resolves with, [groupByTabId] the
    tracking map when the listener starts. *)

Definition isAutomaticSortingEnabled (state : JsObj) : bool :=
  truthy (prop_get (JObj state) "enableAutomaticSorting").

Definition onClicked (lastError : option string)
    (groupByTabId : gmap Z string) : Outcome :=
  match lastError with
  | Some e => mkOutcome groupByTabId 0 (Some (LastError e))
  | None => mkOutcome groupByTabId 1 None
  end.

Definition onUpdated (lastError : option string) (state : JsObj)
    (groupByTabId : gmap Z string) (tabId : Z) (changeInfo : ChangeInfo)
  : Outcome :=
  match lastError with
  | Some e => mkOutcome groupByTabId 0 (Some (LastError e))
  | None =>
      if negb (bool_decide (status changeInfo = Some "loading")) then
        mkOutcome groupByTabId 0 None
      else
        match truthyUrl (changedUrl changeInfo) with
        | None => mkOutcome groupByTabId 0 None
        | Some u =>
            let domain := domainOf u in
            let hasGroupChanged :=
              bool_decide (groupByTabId !! tabId ≠ Some domain) in
            if negb hasGroupChanged then mkOutcome groupByTabId 0 None
            else
              let groupByTabId' := <[tabId := domain]> groupByTabId in
              if negb (isAutomaticSortingEnabled state) then
                mkOutcome groupByTabId' 0 None
              else mkOutcome groupByTabId' 1 None
        end
  end.

Definition onRemoved (state : JsObj) (groupByTabId : gmap Z string)
    (tabId : Z) : Outcome :=
  let groupByTabId' := delete tabId groupByTabId in
  if negb (isAutomaticSortingEnabled state) then mkOutcome groupByTabId' 0 None
  else mkOutcome groupByTabId' 1 None.

(** The tabs of one bucket. *)
Definition inBucket (domain : string) (w : N) (tab : Tab) : bool :=
  String.eqb (labelOf tab) domain && (windowId tab =? w)%N.

(** A tab [sortTabIdsByDomain] accepts. *)
Definition accepted (tab : Tab) : Prop :=
  truthyId (id tab) <> None /\ hasUrl tab = true.

(** The keys of the buckets, as [Object.keys] is to list them. *)
Definition keysInOrder (t : TabIdsByDomain) : Prop :=
  NoDup (obj_keys t)
  /\ Forall (fun entry => StronglySorted N.lt (map fst (snd entry))) t.

(** [connect]: each event goes to the listener registered for it. *)
Definition deliver (groupByTabId : gmap Z string) (d : Delivery) : Outcome :=
  match event d with
  | Clicked => onClicked (pendingError d) groupByTabId
  | Updated tabId changeInfo =>
      onUpdated (pendingError d) (storeState d) groupByTabId tabId changeInfo
  | Removed tabId => onRemoved (storeState d) groupByTabId tabId
  end.

(** The listeners run one after the other on the shared map: the map at
    the end and the number of [organize()] passes started. *)
Fixpoint run (groupByTabId : gmap Z string) (ds : list Delivery)
  : gmap Z string * nat :=
  match ds with
  | [] => (groupByTabId, 0)
  | d :: rest =>
      let outcome := deliver groupByTabId d in
      let '(final, calls) := run (tracking outcome) rest in
      (final, organizeCalls outcome + calls)
  end.

(** The label an update records for its tab, if the listener gets that
    far. *)
Definition recordedLabel (d : Delivery) (tabId : Z) : option string :=
  match event d, pendingError d with
  | Updated i changeInfo, None =>
      if bool_decide (i = tabId)
         && bool_decide (status changeInfo = Some "loading")
      then domainOf <$> truthyUrl (changedUrl changeInfo)
      else None
  | _, _ => None
  end.

(** The label a sequence of deliveries leaves for a tab that had [current]:
    the one of its last update that was recorded, unless the tab was
    removed since. *)
Fixpoint trackedLabel (current : option string) (ds : list Delivery)
    (tabId : Z) : option string :=
  match ds with
  | [] => current
  | d :: rest =>
      let next :=
        match event d with
        | Removed i => if bool_decide (i = tabId) then None else current
        | _ =>
            match recordedLabel d tabId with
            | Some label => Some label
            | None => current
            end
        end in
      trackedLabel next rest tabId
  end.

(** A click on the icon that reaches [organize()]. *)
Definition isClick (d : Delivery) : bool :=
  match event d, pendingError d with
  | Clicked, None => true
  | _, _ => false
  end.

End Browser.

End SiteOrganizer.

(** ** [TabOrganizer] (src/tabs/TabOrganizer.ts), the earlier organizer

    Only its [sortTabIdsByDomain], which skips a tab without a URL where
    [SiteOrganizer] throws. *)

Module TabOrganizer.

Section Browser.
Variable hostname : string -> string.
Variable parseSharedDomain : string -> string.

(** [parseSharedDomain(hostname) || 'system'] *)
Definition domainOrSystem (u : string) : string :=
  let domain := parseSharedDomain (hostname u) in
  if String.eqb domain "" then "system" else domain.

Fixpoint collectTabIds (tabIdsByDomain : list (string * list (option Z)))
    (tabs : list SiteOrganizer.Tab) : list (string * list (option Z)) :=
  match tabs with
  | [] => tabIdsByDomain
  | tab :: rest =>
      match SiteOrganizer.truthyUrl (SiteOrganizer.url tab) with
      | None => collectTabIds tabIdsByDomain rest
      | Some u =>
          let domain := domainOrSystem u in
          let next :=
            match obj_lookup tabIdsByDomain domain with
            | None => obj_set tabIdsByDomain domain [SiteOrganizer.id tab]
            | Some tabIds =>
                obj_set tabIdsByDomain domain (tabIds ++ [SiteOrganizer.id tab])
            end in
          collectTabIds next rest
      end
  end.

Definition sortTabIdsByDomain (tabs : list SiteOrganizer.Tab)
  : list (string * list (option Z)) :=
  collectTabIds [] tabs.

(** The tabs [sortTabIdsByDomain] files under a domain label. *)
Definition inBucket (domain : string) (tab : SiteOrganizer.Tab) : bool :=
  match SiteOrganizer.truthyUrl (SiteOrganizer.url tab) with
  | Some u => String.eqb (domainOrSystem u) domain
  | None => false
  end.

(** The comparator of [sortTabsAlphabetically]: no exception for "new". *)
Variable localeCompare : string -> string -> Z.

Definition compareTabs (a b : SiteOrganizer.Tab) : result Z :=
  match SiteOrganizer.truthyUrl (SiteOrganizer.url a),
        SiteOrganizer.truthyUrl (SiteOrganizer.url b) with
  | Some aUrl, Some bUrl =>
      Ok (localeCompare (parseSharedDomain (hostname aUrl))
            (parseSharedDomain (hostname bUrl)))
  | _, _ => Throw (Error "No url for sorted tab")
  end.

Definition sortTabsAlphabetically (tabs : list SiteOrganizer.Tab)
  : result (list SiteOrganizer.Tab) :=
  SiteOrganizer.Array_sort compareTabs tabs.

End Browser.

(** Calls on the browser: this organizer has no windows in its groups, and
    it groups tab ids as the tabs have them, [undefined] included. *)
Inductive Command : Type :=
| Ungroup (tabIds : list (option Z))
| AddNewGroup (idx : Z) (name : string) (tabIds : list (option Z)).

(** The loop of [renderBrowserTabGroups], [forEach((group, idx) => ...)]. *)
Fixpoint renderGroups (tabIdsByGroup : list (string * list (option Z)))
    (groups : list string) (idx : Z) : list Command :=
  match groups with
  | [] => []
  | group :: rest =>
      let tabIds := default [] (obj_lookup tabIdsByGroup group) in
      (if (length tabIds <? 2)%nat then Ungroup tabIds
       else AddNewGroup idx group tabIds)
      :: renderGroups tabIdsByGroup rest (idx + 1)
  end.

Definition renderBrowserTabGroups
    (tabIdsByGroup : list (string * list (option Z))) : list Command :=
  let groups := obj_keys tabIdsByGroup in
  let isRealGroup group :=
    (1 <? length (default [] (obj_lookup tabIdsByGroup group)))%nat in
  let realGroups := List.filter isRealGroup groups in
  let orphanGroups := List.filter (fun group => negb (isRealGroup group)) groups in
  renderGroups tabIdsByGroup (realGroups ++ orphanGroups) 0.

(** A bucket of two tabs or more. *)
Definition realEntry (entry : string * list (option Z)) : bool :=
  (1 <? length (snd entry))%nat.

(** The tab-updated listener of [init]: [items] is what
    [storage.sync.get('enableAutomaticSorting')] gave; the result is
    whether [organizeAllTabs] was called and what was thrown. *)
Definition onUpdated (lastError : option string) (items : JsObj)
    (changeInfo : SiteOrganizer.ChangeInfo) : bool * option Exn :=
  match lastError with
  | Some e => (false, Some (LastError e))
  | None =>
      if negb (truthy (prop_get (JObj items) "enableAutomaticSorting")) then
        (false, None)
      else
        match SiteOrganizer.truthyUrl (SiteOrganizer.changedUrl changeInfo) with
        | None => (false, None)
        | Some _ => (true, None)
        end
  end.

End TabOrganizer.

(** ** The earlier [Store], whose only setting is [enableAutomaticSorting] *)

Module LegacyStore.

Definition makeDefaultState : JsObj :=
  [ ("enableAutomaticSorting", JBool true) ].

Definition isKeyValid (key : string) : bool :=
  includes (obj_keys makeDefaultState) key.

(** The body of [parseValidState] after [JSON.parse]. *)
Definition validateParsedState (parsedState : JsValue) : result JsObj :=
  stateKeys ← Object_keys parsedState;
  Ok (fold_left
        (fun validState stateKey =>
           if negb (isKeyValid stateKey) then validState
           else obj_set validState stateKey (prop_get parsedState stateKey))
        stateKeys []).

(** [setInternalState], on the state alone: this store has no gate. *)
Definition setInternalState (state internalState : JsObj) : JsObj :=
  spread state internalState.

Section Platform.
Variable JSON_parse : string -> option JsValue.
Variable JSON_stringify : JsObj -> string.

Definition parseValidState (state : string) : result JsObj :=
  if String.eqb state "" then Throw (Error "No state to parse")
  else
    match JSON_parse state with
    | None => Throw SyntaxError
    | Some parsedState => validateParsedState parsedState
    end.

(** [read] is how [await storage.sync.get('settings')] ended; this
    [cacheStorage] has no [try], a rejection leaves it as it was raised. *)
Definition cacheStorage (state : JsObj) (read : result JsValue)
  : result JsObj :=
  settings ← read;
  match settings with
  | JUndefined => Ok state
  | JStr blob =>
      validState ← parseValidState blob;
      Ok (setInternalState state validState)
  | _ => Throw (Error "Invalid settings storage")
  end.

(** [setState]: the state in memory, the persisted item, and what the
    promise settles with; [writeError] is the rejection of the write. *)
Definition setState (state : JsObj) (settings : JsValue)
    (writeError : option Exn) (partial : JsObj)
  : JsObj * JsValue * result unit :=
  let internalState := setInternalState state partial in
  let serializedState := JSON_stringify internalState in
  match writeError with
  | None => (internalState, JStr serializedState, Ok tt)
  | Some e => (internalState, settings, Throw e)
  end.

End Platform.

End LegacyStore.

(** ** A concrete platform for the examples *)

Module Demo.

(** The host of a URL of the form [scheme://host/path]. *)
Fixpoint afterScheme (u : string) : string :=
  match u with
  | EmptyString => EmptyString
  | String ":"%char (String "/"%char (String "/"%char rest)) => rest
  | String _ rest => afterScheme rest
  end.

Fixpoint untilSlash (u : string) : string :=
  match u with
  | EmptyString => EmptyString
  | String c rest =>
      if Ascii.eqb c "/"%char then EmptyString
      else String c (untilSlash rest)
  end.

Definition hostname (u : string) : string := untilSlash (afterScheme u).

(** The hosts of the examples are registrable domains already. *)
Definition parseSharedDomain (host : string) : string := host.

(** Comparison by code units, which is [localeCompare] on lower-case ASCII
    labels. *)
Definition localeCompare (a b : string) : Z :=
  match String.compare a b with
  | Lt => (-1)%Z
  | Eq => 0%Z
  | Gt => 1%Z
  end.

(** [chrome.tabGroups.Color] *)
Definition Color : list string :=
  [ "grey"; "blue"; "red"; "yellow"; "green"; "pink"; "purple"; "cyan";
    "orange" ].

Definition tab (i : Z) (u : string) (w : N) : SiteOrganizer.Tab :=
  SiteOrganizer.mkTab (Some i) (Some u) w false.

Definition organize : list SiteOrganizer.Tab -> SiteOrganizer.Pass :=
  SiteOrganizer.organize hostname parseSharedDomain localeCompare true None.

(** The tabs of the end-to-end example of the specification, and a tab
    without a URL. *)
Definition exampleTabs : list SiteOrganizer.Tab :=
  [ tab 1 "https://a.example/x" 1;
    tab 2 "https://b.example/y" 1;
    tab 3 "https://a.example/z" 1 ].

Definition noUrlTab : SiteOrganizer.Tab :=
  SiteOrganizer.mkTab (Some 7%Z) None 1 false.

(** Two real groups in window 1; the same with one more tab of a.example,
    alone in window 2; and a.example alone in each of two windows before a
    real group of b.example. *)
Definition twoGroups : list SiteOrganizer.Tab :=
  [ tab 1 "https://a.example/x" 1; tab 2 "https://a.example/y" 1;
    tab 4 "https://b.example/x" 1; tab 5 "https://b.example/y" 1 ].

Definition twoGroupsAndOrphan : list SiteOrganizer.Tab :=
  [ tab 1 "https://a.example/x" 1; tab 2 "https://a.example/y" 1;
    tab 3 "https://a.example/z" 2;
    tab 4 "https://b.example/x" 1; tab 5 "https://b.example/y" 1 ].

Definition twoOrphansThenGroup : list SiteOrganizer.Tab :=
  [ tab 1 "https://a.example/x" 1; tab 2 "https://a.example/y" 2;
    tab 4 "https://b.example/x" 1; tab 5 "https://b.example/y" 1 ].

(** The calls of a pass other than the moves. *)
Definition clustering (pass : SiteOrganizer.Pass) : list SiteOrganizer.Command :=
  List.filter
    (fun c => match c with SiteOrganizer.Move _ => false | _ => true end)
    (SiteOrganizer.commands pass).

Definition quote : string := String (Ascii.ascii_of_nat 34) EmptyString.

(** The blob [{"enableAutomaticSorting": false}] and a blob that holds the
    legacy key and its replacement. *)
Definition legacyBlob : string :=
  "{" +:+ quote +:+ "enableAutomaticSorting" +:+ quote +:+ ": false}".

Definition conflictBlob : string :=
  "{" +:+ quote +:+ "enableAlphabeticSorting" +:+ quote +:+ ": true, "
  +:+ quote +:+ "enableAutomaticSorting" +:+ quote +:+ ": false}".

(** [JSON.parse] on the two blobs. *)
Definition JSON_parse (blob : string) : option JsValue :=
  if String.eqb blob legacyBlob then
    Some (JObj [("enableAutomaticSorting", JBool false)])
  else if String.eqb blob conflictBlob then
    Some (JObj [ ("enableAlphabeticSorting", JBool true);
                 ("enableAutomaticSorting", JBool false) ])
  else None.

(** [JSON.stringify] on an object of booleans. *)
Definition JSON_stringify (o : JsObj) : string :=
  let literal v :=
    match v with
    | JBool true => "true"
    | JBool false => "false"
    | _ => "null"
    end in
  let property kv := quote +:+ fst kv +:+ quote +:+ ":" +:+ literal (snd kv) in
  "{" +:+ String.concat "," (map property o) +:+ "}".

(** The default state with alphabetic sorting switched off, and
    [JSON.parse] on three more blobs: a number, [null], and that state as
    [JSON_stringify] writes it. *)
Definition sortingOff : JsObj :=
  [ ("clusterGroupedTabs", JBool true);
    ("enableAutomaticGrouping", JBool true);
    ("enableAlphabeticSorting", JBool false);
    ("enableSubdomainFiltering", JBool false);
    ("forceWindowConsolidation", JBool false) ].

Definition JSON_parseMore (blob : string) : option JsValue :=
  if String.eqb blob "5" then Some (JNum 5)
  else if String.eqb blob "null" then Some JNull
  else if String.eqb blob (JSON_stringify sortingOff) then
    Some (JObj sortingOff)
  else JSON_parse blob.

(** [JSON.parse] on what the earlier store persists once automatic
    sorting is switched off. *)
Definition JSON_parseLegacy (blob : string) : option JsValue :=
  if String.eqb blob
       (JSON_stringify [("enableAutomaticSorting", JBool false)])
  then Some (JObj [("enableAutomaticSorting", JBool false)])
  else None.

(** Tabs whose labels are "new", "zed" and "a.example". *)
Definition newTabs : list SiteOrganizer.Tab :=
  [ tab 1 "https://new/"  1; tab 2 "https://zed/" 1;
    tab 3 "https://a.example/" 1 ].

End Demo.

(** * Properties *)

(** ** Objects as association lists *)

Section ObjectFacts.
Context {V : Type}.
Implicit Types (o target src pre : list (string * V)) (key : string) (v : V).

Lemma includes_In keys key : includes keys key = true <-> In key keys.
Proof.
  unfold includes. rewrite existsb_exists. split.
  - intros (k & Hin & Heq). apply String.eqb_eq in Heq. now subst.
  - intros Hin. exists key. split; [assumption | apply String.eqb_refl].
Qed.

Lemma obj_lookup_None o key :
  obj_lookup o key = None <-> ~ In key (obj_keys o).
Proof.
  induction o as [| [k w] rest IH]; simpl.
  - tauto.
  - destruct (String.eqb_spec k key) as [-> | Hne].
    + split; [discriminate | intros H; exfalso; apply H; now left].
    + rewrite IH. split; [intros H [?|?]; congruence | tauto].
Qed.

Lemma obj_lookup_In o key v :
  NoDup (obj_keys o) -> In (key, v) o -> obj_lookup o key = Some v.
Proof.
  induction o as [| [k w] rest IH]; simpl; [tauto |].
  intros Hnd [Heq | Hin].
  - inversion Heq; subst. now rewrite String.eqb_refl.
  - apply NoDup_cons in Hnd as [Hk Hnd].
    destruct (String.eqb_spec k key) as [-> | Hne].
    + exfalso. apply Hk. apply list_elem_of_In.
      apply (in_map fst) in Hin. exact Hin.
    + now apply IH.
Qed.

Lemma obj_set_fresh o key v :
  ~ In key (obj_keys o) -> obj_set o key v = o ++ [(key, v)].
Proof.
  induction o as [| [k w] rest IH]; simpl; [reflexivity |].
  intros Hk. destruct (String.eqb_spec k key) as [-> | Hne]; [tauto |].
  rewrite IH; [reflexivity | tauto].
Qed.

Lemma obj_set_same o key v :
  obj_lookup o key = Some v -> obj_set o key v = o.
Proof.
  induction o as [| [k w] rest IH]; simpl; [discriminate |].
  destruct (String.eqb_spec k key) as [-> | Hne].
  - now intros [= ->].
  - intros H. now rewrite IH.
Qed.

Lemma obj_keys_set o key v :
  obj_keys (obj_set o key v)
  = if includes (obj_keys o) key then obj_keys o else obj_keys o ++ [key].
Proof.
  induction o as [| [k w] rest IH]; simpl; [reflexivity |].
  rewrite (String.eqb_sym key k).
  destruct (String.eqb_spec k key) as [-> | Hne]; simpl; [reflexivity |].
  rewrite IH. unfold includes. now destruct (existsb _ _).
Qed.

Lemma obj_keys_set_incl o key v k :
  In k (obj_keys (obj_set o key v)) <-> In k (obj_keys o) \/ k = key.
Proof.
  rewrite obj_keys_set. destruct (includes (obj_keys o) key) eqn:E.
  - apply includes_In in E. split; [tauto | intros [H | ->]; assumption].
  - rewrite in_app_iff. simpl. intuition congruence.
Qed.

Lemma obj_set_NoDup o key v :
  NoDup (obj_keys o) -> NoDup (obj_keys (obj_set o key v)).
Proof.
  intros Hnd. rewrite obj_keys_set.
  destruct (includes (obj_keys o) key) eqn:E; [assumption |].
  apply NoDup_app. repeat split; try assumption.
  - intros x Hx Hin. apply list_elem_of_In in Hx.
    apply list_elem_of_In in Hin. destruct Hin as [<- | []].
    apply includes_In in Hx. congruence.
  - apply NoDup_singleton.
Qed.

Lemma obj_lookup_set o key v k :
  obj_lookup (obj_set o key v) k
  = if String.eqb key k then Some v else obj_lookup o k.
Proof.
  induction o as [| [k0 w] rest IH]; simpl.
  - reflexivity.
  - destruct (String.eqb_spec k0 key) as [-> | Hne]; simpl.
    + now destruct (String.eqb_spec key k).
    + rewrite IH. destruct (String.eqb_spec k0 k) as [-> | Hne'];
        [| reflexivity].
      destruct (String.eqb_spec key k); congruence.
Qed.

(** A loop that only writes properties keeps what writes keep. *)
Lemma fold_left_invariant {A B} (Inv : A -> Prop) (f : A -> B -> A) l a :
  Inv a -> (forall a b, In b l -> Inv a -> Inv (f a b)) ->
  Inv (fold_left f l a).
Proof.
  revert a. induction l as [| b l IH]; simpl; intros a Ha Hf; [assumption |].
  apply IH; [apply Hf; [now left | assumption] |].
  intros a' b' Hin. apply Hf. now right.
Qed.

Lemma assign_NoDup target src :
  NoDup (obj_keys target) -> NoDup (obj_keys (assign target src)).
Proof.
  intros H. unfold assign.
  apply (fold_left_invariant
           (fun o : list (string * V) => NoDup (obj_keys o))); [assumption |].
  intros a b _. apply obj_set_NoDup.
Qed.

Lemma assign_keys (P : string -> Prop) target src :
  Forall P (obj_keys target) -> Forall P (obj_keys src) ->
  Forall P (obj_keys (assign target src)).
Proof.
  intros Ht Hs. unfold assign.
  apply (fold_left_invariant
           (fun o : list (string * V) => Forall P (obj_keys o))); [assumption |].
  intros a [k v] Hin Ha. apply List.Forall_forall. intros x Hx.
  apply obj_keys_set_incl in Hx as [Hx | ->].
  - rewrite List.Forall_forall in Ha. now apply Ha.
  - rewrite List.Forall_forall in Hs. apply Hs.
    apply (in_map fst) in Hin. exact Hin.
Qed.

(** Copying a duplicate-free object property by property rebuilds it. *)
Lemma assign_rebuild pre o :
  NoDup (obj_keys (pre ++ o)) -> assign pre o = pre ++ o.
Proof.
  revert pre. induction o as [| [k v] rest IH]; intros pre Hnd; simpl.
  - now rewrite app_nil_r.
  - unfold assign in *. simpl. rewrite obj_set_fresh.
    + rewrite IH; rewrite <- app_assoc; [reflexivity | exact Hnd].
    + unfold obj_keys in Hnd. rewrite map_app in Hnd. simpl in Hnd.
      apply NoDup_app in Hnd as (_ & Hdisj & _).
      intros Hin. apply (Hdisj k); [now apply list_elem_of_In | left].
Qed.

Lemma assign_lookup_other target src key :
  ~ In key (obj_keys src) ->
  obj_lookup (assign target src) key = obj_lookup target key.
Proof.
  revert target. induction src as [| [k v] rest IH]; intros target Hk;
    simpl; [reflexivity |].
  unfold assign in *. simpl. rewrite IH by (simpl in Hk; tauto).
  rewrite obj_lookup_set. destruct (String.eqb_spec k key) as [-> | _];
    [| reflexivity].
  exfalso. apply Hk. now left.
Qed.

Lemma assign_lookup target src key v :
  NoDup (obj_keys src) -> In (key, v) src ->
  obj_lookup (assign target src) key = Some v.
Proof.
  revert target. induction src as [| [k w] rest IH]; intros target Hnd Hin;
    [destruct Hin |].
  simpl in Hnd. apply NoDup_cons in Hnd as [Hk Hnd].
  rewrite list_elem_of_In in Hk.
  change (assign target ((k, w) :: rest))
    with (assign (obj_set target k w) rest).
  destruct Hin as [[= -> ->] | Hin].
  - rewrite assign_lookup_other by exact Hk.
    rewrite obj_lookup_set. now rewrite String.eqb_refl.
  - now apply IH.
Qed.

(** Writing again what an object already holds changes nothing. *)
Lemma assign_absorbed target src :
  (forall key v, In (key, v) src -> obj_lookup target key = Some v) ->
  assign target src = target.
Proof.
  induction src as [| [k w] rest IH]; intros H; [reflexivity |].
  change (assign target ((k, w) :: rest))
    with (assign (obj_set target k w) rest).
  rewrite obj_set_same by (apply H; now left).
  apply IH. intros key v Hin. apply H. now right.
Qed.

Lemma spread_NoDup (a b : list (string * V)) : NoDup (obj_keys (spread a b)).
Proof. unfold spread. do 2 apply assign_NoDup. constructor. Qed.

Lemma spread_idempotent (a b : list (string * V)) :
  NoDup (obj_keys b) -> spread (spread a b) b = spread a b.
Proof.
  intros Hb. unfold spread at 1.
  rewrite (assign_rebuild [] (spread a b)) by apply spread_NoDup.
  simpl. apply assign_absorbed. intros key v Hin.
  unfold spread. now apply assign_lookup.
Qed.

End ObjectFacts.

(** ** The settings store *)

Module StoreFacts.
Import Store.

#[local] Arguments String.eqb : simpl never.

Lemma isKeyValid_cases key :
  isKeyValid key = true ->
  In key (obj_keys makeDefaultState) /\ isLegacyKeyValid key = false.
Proof.
  intros H. apply includes_In in H. split; [exact H |].
  simpl in H. intuition (subst; reflexivity).
Qed.

Lemma getMigratedKey_Some key migratedKey :
  getMigratedKey key = Some migratedKey ->
  key = "enableAutomaticSorting" /\ migratedKey = "enableAlphabeticSorting".
Proof.
  unfold getMigratedKey. simpl.
  destruct (String.eqb_spec "enableAutomaticSorting" key) as [<- | Hne];
    [| discriminate].
  vm_compute. now intros [= <-].
Qed.

Lemma isLegacyKeyValid_true key :
  isLegacyKeyValid key = true -> key = "enableAutomaticSorting".
Proof.
  intros H. apply includes_In in H. simpl in H. intuition congruence.
Qed.

Lemma schemaKey_of_valid key : isKeyValid key = true -> schemaKey key.
Proof. intros H. split; [exact H | now apply isKeyValid_cases]. Qed.

Lemma migrateState_shape keys state :
  migrateState keys state
  = if includes keys "enableAutomaticSorting"
    then [("enableAlphabeticSorting", prop_get state "enableAutomaticSorting")]
    else [].
Proof.
  unfold migrateState.
  assert (Hstep : forall l acc,
    fold_left
      (fun migratedState legacyStateKey =>
         match getMigratedKey legacyStateKey with
         | None => migratedState
         | Some migratedKey =>
             obj_set migratedState migratedKey (prop_get state legacyStateKey)
         end) (List.filter isLegacyKeyValid l) acc
    = if includes l "enableAutomaticSorting"
      then obj_set acc "enableAlphabeticSorting"
             (prop_get state "enableAutomaticSorting")
      else acc).
  { induction l as [| k l IH]; intros acc; [reflexivity |].
    simpl List.filter. unfold includes. simpl existsb.
    destruct (isLegacyKeyValid k) eqn:Hk.
    - apply isLegacyKeyValid_true in Hk. subst k. simpl.
      rewrite IH. destruct (includes l "enableAutomaticSorting");
        [| reflexivity].
      rewrite obj_set_same; [reflexivity |].
      rewrite obj_lookup_set. now rewrite String.eqb_refl.
    - rewrite IH. destruct (String.eqb_spec "enableAutomaticSorting" k)
        as [<- | Hne]; [discriminate Hk | reflexivity]. }
  rewrite Hstep. now destruct (includes keys "enableAutomaticSorting").
Qed.

Lemma copy_valid_keys (parsedState : JsValue) keys acc :
  NoDup (obj_keys acc) -> Forall schemaKey (obj_keys acc) ->
  let copied :=
    fold_left
      (fun acc validStateKey =>
         obj_set acc validStateKey (prop_get parsedState validStateKey))
      (List.filter isKeyValid keys) acc in
  NoDup (obj_keys copied) /\ Forall schemaKey (obj_keys copied).
Proof.
  intros Hnd Hall. cbv zeta.
  apply (fold_left_invariant
           (fun o : JsObj => NoDup (obj_keys o) /\ Forall schemaKey (obj_keys o)));
    [now split |].
  intros a k Hin [Ha1 Ha2]. apply filter_In in Hin as [_ Hk]. split.
  - now apply obj_set_NoDup.
  - apply List.Forall_forall. intros x Hx.
    apply obj_keys_set_incl in Hx as [Hx | ->].
    + rewrite List.Forall_forall in Ha2. now apply Ha2.
    + now apply schemaKey_of_valid.
Qed.

(** What [parseValidState] returns has distinct keys, all of the schema. *)
Lemma validateParsedState_keys parsedState validState :
  validateParsedState parsedState = Ok validState ->
  NoDup (obj_keys validState) /\ Forall schemaKey (obj_keys validState).
Proof.
  unfold validateParsedState.
  destruct (Object_keys parsedState) as [stateKeys | e]; simpl;
    [| discriminate].
  intros [= <-]. split; [apply spread_NoDup |].
  unfold spread. apply assign_keys.
  - apply assign_keys; [constructor |].
    apply (copy_valid_keys parsedState stateKeys []); constructor.
  - rewrite migrateState_shape.
    destruct (includes stateKeys "enableAutomaticSorting"); repeat constructor.
Qed.

Lemma copy_own_properties (props : JsObj) rest acc :
  (forall key v, In (key, v) rest -> obj_lookup props key = Some v) ->
  fold_left
    (fun acc validStateKey =>
       obj_set acc validStateKey (prop_get (JObj props) validStateKey))
    (obj_keys rest) acc
  = assign acc rest.
Proof.
  revert acc. induction rest as [| [k v] rest IH]; intros acc H;
    [reflexivity |].
  change (assign acc ((k, v) :: rest)) with (assign (obj_set acc k v) rest).
  rewrite <- IH by (intros key w Hin; apply H; now right).
  assert (Hk : prop_get (JObj props) k = v).
  { unfold prop_get. simpl. now rewrite (H k v) by now left. }
  simpl. now rewrite Hk.
Qed.

Lemma filter_all {A} (f : A -> bool) (l : list A) :
  Forall (fun x => f x = true) l -> List.filter f l = l.
Proof.
  induction 1 as [| x l Hx _ IH]; simpl; [reflexivity |].
  now rewrite Hx, IH.
Qed.

(** A state of distinct schema keys is a fixed point of the migration. *)
Lemma validateParsedState_fixed (validState : JsObj) :
  NoDup (obj_keys validState) -> Forall schemaKey (obj_keys validState) ->
  validateParsedState (JObj validState) = Ok validState.
Proof.
  intros Hnd Hall. unfold validateParsedState. simpl.
  rewrite filter_all
    by (eapply List.Forall_impl; [| exact Hall]; now intros k [Hk _]).
  rewrite copy_own_properties
    by (intros key v Hin; now apply obj_lookup_In).
  rewrite migrateState_shape.
  destruct (includes (obj_keys validState) "enableAutomaticSorting") eqn:E.
  - apply includes_In in E. rewrite List.Forall_forall in Hall.
    destruct (Hall _ E) as [Hvalid _]. discriminate Hvalid.
  - unfold spread. rewrite (assign_rebuild [] validState) by exact Hnd.
    simpl. rewrite (assign_rebuild [] validState) by exact Hnd.
    reflexivity.
Qed.

Section Platform.
Variable JSON_parse : string -> option JsValue.
Variable JSON_stringify : JsObj -> string.

Lemma merge_twice (s : Store.t) (validState : JsObj) :
  NoDup (obj_keys validState) ->
  fst (setInternalState (fst (setInternalState s validState)) validState)
  = fst (setInternalState s validState).
Proof.
  intros Hnd. unfold setInternalState. simpl. now rewrite spread_idempotent.
Qed.

Lemma parseValidState_keys (blob : string) (validState : JsObj) :
  parseValidState JSON_parse blob = Ok validState ->
  NoDup (obj_keys validState) /\ Forall schemaKey (obj_keys validState).
Proof.
  unfold parseValidState. destruct (String.eqb blob ""); [discriminate |].
  destruct (JSON_parse blob); [| discriminate].
  apply validateParsedState_keys.
Qed.

(** Loading twice from the same persisted item is loading once. *)
Lemma load_twice (s s1 : Store.t) (read : result JsValue) :
  load JSON_parse s read = Ok s1 ->
  load JSON_parse s1 read = Ok s1.
Proof.
  unfold load, cacheStorage.
  destruct read as [settings | e]; simpl; [| discriminate].
  destruct settings as [| | | | blob | |]; simpl; try discriminate.
  - intros [= <-]. reflexivity.
  - destruct (parseValidState JSON_parse blob) as [validState | e] eqn:Hp;
      simpl; [| discriminate].
    apply parseValidState_keys in Hp as [Hnd _].
    intros [= <-]. simpl. now rewrite spread_idempotent.
Qed.

Lemma validateParsedState_migrated (props : JsObj) :
  In "enableAutomaticSorting" (obj_keys props) ->
  exists validState,
    validateParsedState (JObj props) = Ok validState
    /\ obj_lookup validState "enableAlphabeticSorting"
       = Some (prop_get (JObj props) "enableAutomaticSorting")
    /\ obj_lookup validState "enableAutomaticSorting" = None.
Proof.
  intros Hin.
  destruct (validateParsedState (JObj props)) as [validState | e] eqn:Hv;
    [| discriminate Hv].
  exists validState. split; [reflexivity |].
  destruct (validateParsedState_keys _ _ Hv) as [_ Hall].
  unfold validateParsedState in Hv. simpl in Hv. injection Hv as <-.
  split.
  - rewrite migrateState_shape.
    apply includes_In in Hin. rewrite Hin.
    unfold spread, assign at 1. simpl fold_left.
    rewrite obj_lookup_set. now rewrite String.eqb_refl.
  - apply obj_lookup_None. intros Hk.
    rewrite List.Forall_forall in Hall. destruct (Hall _ Hk) as [Hvalid _].
    discriminate Hvalid.
Qed.

(** C6. The migration step of [parseValidState] is idempotent: whenever it
    returns a state, running it again on that state returns the same state,
    every key of the state is a key of the current schema (so neither a
    legacy key nor an unknown key), and merging the state into the store a
    second time leaves the store as the first merge left it.  It fails only
    on an empty blob, on a blob [JSON.parse] rejects, and on [null]. *)
Theorem parseValidState_idempotent (blob : string) :
  match parseValidState JSON_parse blob with
  | Ok validState =>
      validateParsedState (JObj validState) = Ok validState
      /\ Forall (fun key => isKeyValid key = true
                            /\ isLegacyKeyValid key = false)
           (obj_keys validState)
      /\ forall s : Store.t,
           fst (setInternalState (fst (setInternalState s validState))
                  validState)
           = fst (setInternalState s validState)
  | Throw _ =>
      blob = "" \/ JSON_parse blob = None
      \/ JSON_parse blob = Some JNull \/ JSON_parse blob = Some JUndefined
  end.
Proof.
  destruct (parseValidState JSON_parse blob) as [validState | e] eqn:Hp.
  - destruct (parseValidState_keys _ _ Hp) as [Hnd Hall].
    split; [now apply validateParsedState_fixed |].
    split; [exact Hall |].
    intros s. now apply merge_twice.
  - unfold parseValidState in Hp.
    destruct (String.eqb_spec blob "") as [-> | Hne]; [now left |].
    destruct (JSON_parse blob) as [parsedState |]; [| now right; left].
    destruct parsedState; simpl in Hp; try discriminate; auto.
Qed.

(** C7. When the persisted blob holds the legacy key
    [enableAutomaticSorting], the state [parseValidState] returns holds
    under [enableAlphabeticSorting] the value of the legacy key, whether or
    not the blob also holds [enableAlphabeticSorting] itself (the migrated
    value overwrites the validated one), and holds no
    [enableAutomaticSorting] key.  The blob
    [{enableAutomaticSorting: false}] yields exactly
    [{enableAlphabeticSorting: false}]. *)
Theorem parseValidState_migration_wins (blob : string) (props : JsObj) :
  blob <> "" ->
  JSON_parse blob = Some (JObj props) ->
  In "enableAutomaticSorting" (obj_keys props) ->
  exists validState,
    parseValidState JSON_parse blob = Ok validState
    /\ obj_lookup validState "enableAlphabeticSorting"
       = Some (prop_get (JObj props) "enableAutomaticSorting")
    /\ obj_lookup validState "enableAutomaticSorting" = None
    /\ (props = [("enableAutomaticSorting", JBool false)] ->
        validState = [("enableAlphabeticSorting", JBool false)]).
Proof.
  intros Hne Hparse Hin. unfold parseValidState.
  destruct (String.eqb_spec blob "") as [-> | _]; [congruence |].
  rewrite Hparse.
  destruct (validateParsedState_migrated props Hin)
    as (validState & Hv & Hnew & Hold).
  exists validState. repeat split; try assumption.
  intros ->. vm_compute in Hv. now injection Hv as <-.
Qed.

(** C8. Once the store is loaded, [setState partial] leaves the in-memory
    state at the merge of [partial] over the previous state, which
    [getState] then returns, whether the storage write succeeds or fails: on
    success the merged state, serialized, is what is persisted; on failure
    the promise rejects with the error of the write, the persisted item is
    unchanged and the merge is kept.  From [{flagA: true, flagB: true}],
    [setState {flagA: false}] leaves [{flagA: false, flagB: true}]. *)
Theorem setState_merges_before_write (s : Store.t) (settings : JsValue)
    (writeError : option Exn) (partial : JsObj) :
  loaded s = true ->
  let '(s', settings', promise) :=
    setState JSON_stringify s settings writeError partial in
  let merged := spread (state s) partial in
  getState s' = Settled (Ok merged)
  /\ match writeError with
     | None =>
         promise = Settled (Ok tt)
         /\ settings' = JStr (JSON_stringify merged)
     | Some e => promise = Settled (Throw e) /\ settings' = settings
     end
  /\ (state s = [("flagA", JBool true); ("flagB", JBool true)] ->
      partial = [("flagA", JBool false)] ->
      getState s' = Settled (Ok [("flagA", JBool false); ("flagB", JBool true)])).
Proof.
  intros Hloaded. unfold setState. rewrite Hloaded.
  unfold setInternalState.
  assert (Hget :
    getState (mk (spread (state s) partial) (loaded s))
    = Settled (Ok (spread (state s) partial))).
  { unfold getState. simpl. now rewrite Hloaded. }
  destruct writeError as [e |]; cbv zeta; simpl;
    (split; [exact Hget |]); (split; [now split |]);
    intros Hs ->; rewrite Hget, Hs; reflexivity.
Qed.

End Platform.

(** The two blobs of the examples: the legacy key alone, and the legacy key
    next to its replacement. *)
Lemma parseValidState_migration_wins_witness :
  (Demo.conflictBlob <> ""
   /\ Demo.JSON_parse Demo.conflictBlob
      = Some (JObj [ ("enableAlphabeticSorting", JBool true);
                     ("enableAutomaticSorting", JBool false) ])
   /\ In "enableAutomaticSorting"
        (obj_keys [ ("enableAlphabeticSorting", JBool true);
                    ("enableAutomaticSorting", JBool false) ]))
  /\ exists validState,
       parseValidState Demo.JSON_parse Demo.conflictBlob = Ok validState
       /\ obj_lookup validState "enableAlphabeticSorting" = Some (JBool false)
       /\ obj_lookup validState "enableAutomaticSorting" = None.
Proof.
  assert (H1 : Demo.conflictBlob <> "") by (vm_compute; discriminate).
  assert (H2 : Demo.JSON_parse Demo.conflictBlob
               = Some (JObj [ ("enableAlphabeticSorting", JBool true);
                              ("enableAutomaticSorting", JBool false) ]))
    by reflexivity.
  assert (H3 : In "enableAutomaticSorting"
                 (obj_keys [ ("enableAlphabeticSorting", JBool true);
                             ("enableAutomaticSorting", JBool false) ]))
    by (right; left; reflexivity).
  split; [repeat split; assumption |].
  destruct (parseValidState_migration_wins Demo.JSON_parse Demo.conflictBlob
              _ H1 H2 H3) as (validState & Hv & Hnew & Hold & _).
  exists validState. repeat split; assumption.
Defined.

Lemma setState_merges_before_write_witness :
  let s := Store.mk [("flagA", JBool true); ("flagB", JBool true)] true in
  let writeError := Some (Error "QUOTA_BYTES quota exceeded") in
  loaded s = true
  /\ let '(s', settings', promise) :=
       setState Demo.JSON_stringify s JUndefined writeError
         [("flagA", JBool false)] in
     getState s'
     = Settled (Ok [("flagA", JBool false); ("flagB", JBool true)])
     /\ promise = Settled (Throw (Error "QUOTA_BYTES quota exceeded"))
     /\ settings' = JUndefined.
Proof.
  cbv zeta. split; [reflexivity |].
  pose proof (setState_merges_before_write Demo.JSON_stringify
                (Store.mk [("flagA", JBool true); ("flagB", JBool true)] true)
                JUndefined (Some (Error "QUOTA_BYTES quota exceeded"))
                [("flagA", JBool false)] eq_refl) as H.
  destruct (setState Demo.JSON_stringify _ _ _ _) as [[s' settings'] promise].
  destruct H as (Hget & [Hpromise Hsettings] & _).
  repeat split; assumption.
Defined.

End StoreFacts.

(** ** Further properties of the store *)

Section MergeFacts.
Context {V : Type}.
Implicit Types (o target src pre : list (string * V)) (key : string) (v : V).

Lemma assign_app target src1 src2 :
  assign target (src1 ++ src2) = assign (assign target src1) src2.
Proof. unfold assign. apply fold_left_app. Qed.

Lemma obj_set_app_fresh pre o key v :
  ~ In key (obj_keys pre) -> obj_set (pre ++ o) key v = pre ++ obj_set o key v.
Proof.
  induction pre as [| [k w] rest IH]; simpl; [reflexivity |].
  intros Hk. destruct (String.eqb_spec k key) as [-> | Hne]; [tauto |].
  rewrite IH; [reflexivity | tauto].
Qed.

Lemma obj_set_overwrite o key v w :
  obj_set (obj_set o key w) key v = obj_set o key v.
Proof.
  induction o as [| [k x] rest IH]; simpl.
  - now rewrite String.eqb_refl.
  - destruct (String.eqb_spec k key) as [-> | Hne]; simpl.
    + now rewrite String.eqb_refl.
    + destruct (String.eqb_spec k key); [congruence | now rewrite IH].
Qed.

Lemma obj_set_commute o key v key' v' :
  In key (obj_keys o) -> key <> key' ->
  obj_set (obj_set o key' v') key v = obj_set (obj_set o key v) key' v'.
Proof.
  induction o as [| [k x] rest IH]; simpl; [tauto |].
  intros Hin Hne.
  destruct (String.eqb_spec k key') as [Ek' | Hk'];
    destruct (String.eqb_spec k key) as [Ek | Hk]; simpl;
    repeat match goal with
           | |- context [String.eqb ?a ?b] =>
               destruct (String.eqb_spec a b); simpl
           end;
    try congruence.
  rewrite IH; [reflexivity | | exact Hne].
  destruct Hin as [H | H]; [congruence | exact H].
Qed.

Lemma assign_set_commute target src key v :
  In key (obj_keys target) -> ~ In key (obj_keys src) ->
  obj_set (assign target src) key v = assign (obj_set target key v) src.
Proof.
  revert target. induction src as [| [k w] rest IH]; intros target Hin Hk;
    [reflexivity |].
  change (assign target ((k, w) :: rest))
    with (assign (obj_set target k w) rest).
  change (assign (obj_set target key v) ((k, w) :: rest))
    with (assign (obj_set (obj_set target key v) k w) rest).
  simpl in Hk. rewrite IH.
  - rewrite obj_set_commute; [reflexivity | exact Hin | intuition congruence].
  - apply obj_keys_set_incl. now left.
  - tauto.
Qed.

Lemma obj_set_split o key w :
  NoDup (obj_keys o) -> obj_lookup o key = Some w ->
  exists o1 o2,
    o = o1 ++ (key, w) :: o2
    /\ ~ In key (obj_keys o1) /\ ~ In key (obj_keys o2).
Proof.
  induction o as [| [k x] rest IH]; simpl; [discriminate |].
  intros Hnd. apply NoDup_cons in Hnd as [Hk Hnd].
  rewrite list_elem_of_In in Hk.
  destruct (String.eqb_spec k key) as [-> | Hne].
  - intros [= ->]. exists [], rest. repeat split; [tauto | exact Hk].
  - intros H. destruct (IH Hnd H) as (o1 & o2 & -> & H1 & H2).
    exists ((k, x) :: o1), o2. repeat split; [| exact H2].
    simpl. intros [? | ?]; [congruence | tauto].
Qed.

(** Assigning a normalised object with one more write is assigning it and
    then writing. *)
Lemma assign_set target o key v :
  NoDup (obj_keys o) ->
  assign target (obj_set o key v) = obj_set (assign target o) key v.
Proof.
  intros Hnd. destruct (obj_lookup o key) as [w |] eqn:Hlook.
  - destruct (obj_set_split o key w Hnd Hlook) as (o1 & o2 & -> & H1 & H2).
    rewrite obj_set_app_fresh by exact H1. simpl.
    rewrite String.eqb_refl. rewrite !assign_app.
    change (assign (assign target o1) ((key, v) :: o2))
      with (assign (obj_set (assign target o1) key v) o2).
    change (assign (assign target o1) ((key, w) :: o2))
      with (assign (obj_set (assign target o1) key w) o2).
    rewrite (assign_set_commute (obj_set (assign target o1) key w) o2 key v).
    + now rewrite obj_set_overwrite.
    + apply obj_keys_set_incl. now right.
    + exact H2.
  - apply obj_lookup_None in Hlook. rewrite obj_set_fresh by exact Hlook.
    now rewrite assign_app.
Qed.

(** Assigning a list of writes is assigning the object they build. *)
Lemma assign_normalised target src :
  assign target src = assign target (assign [] src).
Proof.
  induction src as [| kv rest IH] using rev_ind; [reflexivity |].
  destruct kv as [k v]. rewrite !assign_app.
  change (assign (assign [] rest) [(k, v)])
    with (obj_set (assign [] rest) k v).
  rewrite assign_set by (apply assign_NoDup; constructor).
  now rewrite <- IH.
Qed.

(** Merging twice is merging the merge. *)
Lemma spread_assoc (a b c : list (string * V)) :
  spread (spread a b) c = spread a (spread b c).
Proof.
  unfold spread.
  rewrite (assign_rebuild [] (assign (assign [] a) b))
    by (do 2 apply assign_NoDup; constructor).
  simpl. rewrite <- assign_app.
  rewrite (assign_normalised (assign [] a) (b ++ c)).
  now rewrite assign_app.
Qed.

Lemma assign_keys_known target src :
  Forall (fun key => In key (obj_keys target)) (obj_keys src) ->
  obj_keys (assign target src) = obj_keys target.
Proof.
  revert target. induction src as [| [k v] rest IH]; intros target Hall;
    [reflexivity |].
  apply Forall_cons in Hall as [Hk Hrest].
  change (assign target ((k, v) :: rest))
    with (assign (obj_set target k v) rest).
  assert (Hkeys : obj_keys (obj_set target k v) = obj_keys target).
  { rewrite obj_keys_set. apply includes_In in Hk. simpl in Hk.
    now rewrite Hk. }
  rewrite IH; [exact Hkeys |]. now rewrite Hkeys.
Qed.

Lemma assign_same_keys pre a b :
  NoDup (obj_keys (pre ++ a)) -> obj_keys a = obj_keys b ->
  assign (pre ++ a) b = pre ++ b.
Proof.
  revert pre b. induction a as [| [k x] rest IH]; intros pre b Hnd Hkeys.
  - destruct b; [reflexivity | discriminate].
  - destruct b as [| [k' y] b']; [discriminate |].
    simpl in Hkeys. injection Hkeys as <- Hkeys.
    change (assign (pre ++ (k, x) :: rest) ((k, y) :: b'))
      with (assign (obj_set (pre ++ (k, x) :: rest) k y) b').
    assert (Hfresh : ~ In k (obj_keys pre)).
    { unfold obj_keys in Hnd. rewrite map_app in Hnd.
      apply NoDup_app in Hnd as (_ & Hdisj & _).
      intros Hin. apply (Hdisj k); [now apply list_elem_of_In | left]. }
    rewrite obj_set_app_fresh by exact Hfresh. simpl.
    rewrite String.eqb_refl.
    change (pre ++ (k, y) :: rest) with (pre ++ [(k, y)] ++ rest).
    rewrite app_assoc. rewrite IH; [now rewrite <- app_assoc | | exact Hkeys].
    rewrite <- app_assoc. simpl.
    unfold obj_keys in *. rewrite map_app in *. exact Hnd.
Qed.

End MergeFacts.

Module StoreCoverage.
Import Store StoreFacts.

#[local] Arguments String.eqb : simpl never.

(** X14. The migration table covers the legacy keys: every legacy key has
    a replacement, the replacement is a key of the current schema and is
    not itself a legacy key, and no legacy key is a key of the schema. *)
Theorem legacy_keys_migrate_into_schema (key : string) :
  isLegacyKeyValid key = true ->
  exists migratedKey,
    getMigratedKey key = Some migratedKey
    /\ isKeyValid migratedKey = true
    /\ isLegacyKeyValid migratedKey = false
    /\ isKeyValid key = false.
Proof.
  intros H. apply isLegacyKeyValid_true in H. subst key.
  exists "enableAlphabeticSorting". repeat split; reflexivity.
Qed.

Lemma legacy_keys_migrate_into_schema_witness :
  isLegacyKeyValid "enableAutomaticSorting" = true
  /\ exists migratedKey,
       getMigratedKey "enableAutomaticSorting" = Some migratedKey
       /\ isKeyValid migratedKey = true
       /\ isLegacyKeyValid migratedKey = false
       /\ isKeyValid "enableAutomaticSorting" = false.
Proof.
  split; [reflexivity |].
  exact (legacy_keys_migrate_into_schema "enableAutomaticSorting" eq_refl).
Defined.

Lemma makeDefaultState_NoDup : NoDup (obj_keys makeDefaultState).
Proof.
  vm_compute. repeat constructor; rewrite ?list_elem_of_In; simpl;
    intuition discriminate.
Qed.

Lemma copy_lookup (parsedState : JsValue) keys acc key :
  obj_lookup
    (fold_left
       (fun acc validStateKey =>
          obj_set acc validStateKey (prop_get parsedState validStateKey))
       keys acc) key
  = if includes keys key then Some (prop_get parsedState key)
    else obj_lookup acc key.
Proof.
  revert acc. induction keys as [| k rest IH]; intros acc; [reflexivity |].
  simpl fold_left. rewrite IH. unfold includes. simpl existsb.
  rewrite obj_lookup_set.
  destruct (existsb (String.eqb key) rest); [now rewrite orb_true_r |].
  rewrite orb_false_r. rewrite (String.eqb_sym key k).
  destruct (String.eqb_spec k key) as [-> | _]; reflexivity.
Qed.

Lemma includes_filter (f : string -> bool) keys key :
  includes (List.filter f keys) key = f key && includes keys key.
Proof.
  apply eq_true_iff_eq. rewrite andb_true_iff, !includes_In, filter_In.
  tauto.
Qed.

Section Platform.
Variable JSON_parse : string -> option JsValue.
Variable JSON_stringify : JsObj -> string.

(** X15. For a blob that parses to an object, [parseValidState] returns a
    state whose value under [enableAlphabeticSorting] is that of the legacy
    key [enableAutomaticSorting] when the blob has it; under any other key,
    and under that key otherwise, it is the value the blob has for the key
    if the key is in the schema, and nothing if it is not. *)
Theorem parseValidState_values (blob : string) (props : JsObj) (key : string) :
  blob <> "" ->
  JSON_parse blob = Some (JObj props) ->
  exists validState,
    parseValidState JSON_parse blob = Ok validState
    /\ obj_lookup validState key
       = if String.eqb key "enableAlphabeticSorting"
            && includes (obj_keys props) "enableAutomaticSorting"
         then Some (prop_get (JObj props) "enableAutomaticSorting")
         else if isKeyValid key then obj_lookup props key else None.
Proof.
  intros Hne Hparse. unfold parseValidState.
  destruct (String.eqb_spec blob "") as [-> | _]; [congruence |].
  rewrite Hparse. unfold validateParsedState. simpl.
  eexists. split; [reflexivity |].
  set (copied := fold_left _ (List.filter isKeyValid (obj_keys props)) []).
  assert (Hcopied : obj_lookup copied key
                    = if isKeyValid key then obj_lookup props key else None).
  { unfold copied. rewrite copy_lookup, includes_filter.
    destruct (isKeyValid key); simpl; [| reflexivity].
    destruct (includes (obj_keys props) key) eqn:Hin.
    - apply includes_In in Hin. unfold prop_get. simpl.
      destruct (obj_lookup props key) eqn:Hl; [reflexivity |].
      apply obj_lookup_None in Hl. contradiction.
    - symmetry. apply obj_lookup_None. intros Hin'.
      apply includes_In in Hin'. congruence. }
  assert (Hnd : NoDup (obj_keys copied)).
  { unfold copied.
    apply (copy_valid_keys (JObj props) (obj_keys props) []); constructor. }
  rewrite migrateState_shape. unfold spread.
  rewrite (assign_rebuild [] copied) by exact Hnd. simpl.
  destruct (includes (obj_keys props) "enableAutomaticSorting").
  - unfold assign. simpl. rewrite obj_lookup_set.
    rewrite (String.eqb_sym key). rewrite andb_true_r.
    destruct (String.eqb "enableAlphabeticSorting" key); [reflexivity |].
    exact Hcopied.
  - rewrite andb_false_r. exact Hcopied.
Qed.

(** X16. [load] keeps the keys of the state: a store whose state has the
    keys of the schema has them after [load], in the same order, whatever
    the persisted blob holds, and [load] opens the gate [getState] and
    [setState] wait for. *)
Theorem load_keeps_schema (s s' : Store.t) (settings : JsValue) :
  obj_keys (state s) = obj_keys makeDefaultState ->
  load JSON_parse s (Ok settings) = Ok s' ->
  obj_keys (state s') = obj_keys makeDefaultState
  /\ loaded s' = true
  /\ getState s' = Settled (Ok (state s'))
  /\ (settings = JUndefined -> state s' = state s).
Proof.
  intros Hkeys. unfold load, cacheStorage. simpl.
  destruct settings as [| | | | blob | |]; simpl; try discriminate.
  - intros [= <-]. simpl. repeat split; assumption.
  - destruct (parseValidState JSON_parse blob) as [validState | e] eqn:Hp;
      simpl; [| discriminate].
    intros [= <-]. simpl.
    split; [| split; [reflexivity | split; [reflexivity | discriminate]]].
    apply parseValidState_keys in Hp as [_ Hall].
    assert (Hnd : NoDup (obj_keys (state s)))
      by (rewrite Hkeys; exact makeDefaultState_NoDup).
    unfold spread. rewrite (assign_rebuild [] (state s)) by exact Hnd.
    simpl. rewrite assign_keys_known; [exact Hkeys |].
    eapply List.Forall_impl; [| exact Hall].
    intros key [Hvalid _]. rewrite Hkeys. now apply includes_In.
Qed.

(** X17. [load] throws in these five cases, and in no other: the read of
    the persisted item was rejected, and [load] throws what the read was
    rejected with; the item is neither absent nor a string, 'Invalid
    settings storage'; it is the empty string, 'No state to parse'; it is
    no JSON, the [SyntaxError] of [JSON.parse]; it is the JSON [null], the
    [TypeError] of [Object.keys]. *)
Theorem load_errors (s : Store.t) (read : result JsValue) (e : Exn) :
  load JSON_parse s read = Throw e
  <-> match read with
      | Throw rejection => e = rejection
      | Ok JUndefined => False
      | Ok (JStr blob) =>
          (blob = "" /\ e = Error "No state to parse")
          \/ (blob <> "" /\ JSON_parse blob = None /\ e = SyntaxError)
          \/ (blob <> ""
              /\ (JSON_parse blob = Some JNull
                  \/ JSON_parse blob = Some JUndefined)
              /\ e = TypeError)
      | Ok _ => e = Error "Invalid settings storage"
      end.
Proof.
  unfold load, cacheStorage.
  destruct read as [settings | rejection]; simpl;
    [| split; [now intros [= <-] | now intros ->]].
  destruct settings as [| | | | blob | |]; simpl;
    try (split; [now intros [= <-] | now intros ->]);
    [split; [discriminate | intros []] |].
  unfold parseValidState.
  destruct (String.eqb_spec blob "") as [-> | Hne]; simpl.
  { split; [intros [= <-]; now left |].
    intros [[_ ->] | [[H _] | [H _]]]; [reflexivity | |]; now destruct H. }
  destruct (JSON_parse blob) as [parsedState |]; simpl.
  - unfold validateParsedState. split.
    + destruct parsedState; simpl; try discriminate;
        intros [= <-]; right; right; repeat split; auto.
    + intros [[H _] | [(_ & H & _) | (_ & [H | H] & ->)]];
        [now destruct Hne | discriminate H | |];
        injection H as ->; reflexivity.
  - split; [intros [= <-]; right; left; now repeat split |].
    intros [[H _] | [(_ & _ & ->) | (_ & [H | H] & _)]];
      [now destruct Hne | reflexivity | |]; discriminate H.
Qed.

Lemma index_key_not_in_schema (i : nat) :
  isKeyValid (index_key i) = false /\ isLegacyKeyValid (index_key i) = false.
Proof.
  unfold index_key. destruct (Nat.to_uint i); split; reflexivity.
Qed.

Lemma entries_no_schema_key (parsedState : JsValue) :
  (forall props, parsedState <> JObj props) ->
  List.filter isKeyValid (obj_keys (entries parsedState)) = []
  /\ List.filter isLegacyKeyValid (obj_keys (entries parsedState)) = [].
Proof.
  intros Hobj.
  assert (Hindices : forall (l : list JsValue) n,
    List.filter isKeyValid
      (obj_keys (imap (fun i x => (index_key (n + i), x)) l)) = []
    /\ List.filter isLegacyKeyValid
         (obj_keys (imap (fun i x => (index_key (n + i), x)) l)) = []).
  { induction l as [| x l IH]; intros n; [now split |].
    simpl. destruct (index_key_not_in_schema (n + 0)) as [-> ->].
    specialize (IH (S n)).
    erewrite (imap_ext _ (fun i x0 => (index_key (S n + i), x0)));
      [exact IH |].
    intros i x0 _. simpl. f_equal. f_equal. lia. }
  destruct parsedState; simpl; try (now split);
    [apply (Hindices _ 0) | apply (Hindices _ 0) | now destruct (Hobj props)].
Qed.

(** X18. A blob that is valid JSON but not an object (a number, a boolean,
    a string, an array) is accepted by [load]: it throws nothing, opens the
    gate and leaves the state as it was. *)
Theorem load_ignores_non_object (s : Store.t) (blob : string)
    (parsedState : JsValue) :
  blob <> "" ->
  JSON_parse blob = Some parsedState ->
  (forall props, parsedState <> JObj props) ->
  parsedState <> JNull -> parsedState <> JUndefined ->
  NoDup (obj_keys (state s)) ->
  load JSON_parse s (Ok (JStr blob)) = Ok (mk (state s) true).
Proof.
  intros Hne Hparse Hobj Hnull Hundef Hnd.
  unfold load, cacheStorage, parseValidState. simpl.
  destruct (String.eqb_spec blob "") as [-> | _]; [congruence |].
  rewrite Hparse. unfold validateParsedState.
  assert (Hkeys : Object_keys parsedState
                  = Ok (obj_keys (entries parsedState)))
    by (destruct parsedState; try reflexivity; congruence).
  rewrite Hkeys. simpl. unfold migrateState.
  destruct (entries_no_schema_key parsedState Hobj) as [-> ->]. simpl.
  unfold spread at 2. simpl. unfold spread. unfold assign at 1. simpl.
  now rewrite (assign_rebuild [] (state s)) by exact Hnd.
Qed.

(** X19. Two calls of [setState] leave the store in the state one call
    leaves it in with the second partial state merged over the first: the
    later value wins for a key both set, whether the writes succeed or
    not. *)
Theorem setState_twice (s : Store.t) (settings settings' : JsValue)
    (writeError writeError' writeError'' : option Exn)
    (partial partial' : JsObj) :
  loaded s = true ->
  let first := setState JSON_stringify s settings writeError partial in
  let second :=
    setState JSON_stringify (fst (fst first)) settings' writeError' partial' in
  let once :=
    setState JSON_stringify s settings writeError'' (spread partial partial') in
  fst (fst second) = fst (fst once)
  /\ state (fst (fst second)) = spread (state s) (spread partial partial').
Proof.
  intros Hgate. cbv zeta. unfold setState, setInternalState.
  rewrite Hgate. simpl.
  assert (Hfirst : forall w st,
    fst (fst (match w with
              | Some e => (st, settings, Settled (Throw e) : Async unit)
              | None => (st, JStr (JSON_stringify (state st)),
                          Settled (Ok tt))
              end)) = st) by (intros [e |] st; reflexivity).
  destruct writeError, writeError', writeError''; simpl; rewrite ?Hgate;
    simpl; rewrite spread_assoc; now split.
Qed.

(** X20. What [setState] persisted, [load] reads back: when the state has
    the keys of the schema, the partial state sets keys of the schema only
    and the write succeeds, loading the persisted item into a store that
    has the keys of the schema gives the state [setState] left in memory. *)
Theorem setState_load_round_trip (s fresh : Store.t) (settings : JsValue)
    (partial : JsObj) :
  loaded s = true ->
  obj_keys (state s) = obj_keys makeDefaultState ->
  obj_keys (state fresh) = obj_keys makeDefaultState ->
  Forall (fun key => isKeyValid key = true) (obj_keys partial) ->
  let '(s', settings', _) := setState JSON_stringify s settings None partial in
  JSON_stringify (state s') <> "" ->
  JSON_parse (JSON_stringify (state s')) = Some (JObj (state s')) ->
  load JSON_parse fresh (Ok settings') = Ok (mk (state s') true).
Proof.
  intros Hgate Hkeys Hfresh Hpartial. unfold setState, setInternalState.
  rewrite Hgate. simpl.
  set (merged := spread (state s) partial).
  intros Hblob Hparse.
  pose proof makeDefaultState_NoDup as Hschema.
  assert (Hmerged : obj_keys merged = obj_keys makeDefaultState).
  { unfold merged, spread.
    rewrite (assign_rebuild [] (state s)) by (simpl; now rewrite Hkeys).
    simpl. rewrite assign_keys_known; [exact Hkeys |].
    eapply List.Forall_impl; [| exact Hpartial].
    intros key Hvalid. rewrite Hkeys. now apply includes_In. }
  unfold load, cacheStorage, parseValidState. simpl.
  destruct (String.eqb_spec (JSON_stringify merged) "") as [E | _];
    [congruence |].
  rewrite Hparse.
  rewrite validateParsedState_fixed.
  - assert (Hnd : NoDup (obj_keys (state fresh))) by now rewrite Hfresh.
    simpl. f_equal. f_equal. unfold spread.
    rewrite (assign_rebuild [] (state fresh)) by exact Hnd.
    apply (assign_same_keys [] (state fresh) merged); [exact Hnd |].
    now rewrite Hfresh, Hmerged.
  - now rewrite Hmerged.
  - rewrite Hmerged. apply List.Forall_forall. intros key Hin.
    apply schemaKey_of_valid. now apply includes_In.
Qed.

End Platform.

Lemma parseValidState_values_witness :
  (Demo.conflictBlob <> ""
   /\ Demo.JSON_parse Demo.conflictBlob
      = Some (JObj [ ("enableAlphabeticSorting", JBool true);
                     ("enableAutomaticSorting", JBool false) ]))
  /\ exists validState,
       parseValidState Demo.JSON_parse Demo.conflictBlob = Ok validState
       /\ obj_lookup validState "enableAlphabeticSorting"
          = Some (JBool false).
Proof.
  assert (H1 : Demo.conflictBlob <> "") by (vm_compute; discriminate).
  assert (H2 : Demo.JSON_parse Demo.conflictBlob
               = Some (JObj [ ("enableAlphabeticSorting", JBool true);
                              ("enableAutomaticSorting", JBool false) ]))
    by reflexivity.
  split; [now split |].
  exact (parseValidState_values Demo.JSON_parse Demo.conflictBlob _
           "enableAlphabeticSorting" H1 H2).
Defined.

Lemma load_keeps_schema_witness :
  (obj_keys (state Store.create) = obj_keys makeDefaultState
   /\ load Demo.JSON_parse Store.create (Ok (JStr Demo.legacyBlob))
      = Ok (Store.mk Demo.sortingOff true))
  /\ obj_keys Demo.sortingOff = obj_keys makeDefaultState
  /\ getState (Store.mk Demo.sortingOff true)
     = Settled (Ok Demo.sortingOff).
Proof.
  assert (H1 : obj_keys (state Store.create) = obj_keys makeDefaultState)
    by reflexivity.
  assert (H2 : load Demo.JSON_parse Store.create (Ok (JStr Demo.legacyBlob))
               = Ok (Store.mk Demo.sortingOff true)) by reflexivity.
  split; [now split |].
  destruct (load_keeps_schema Demo.JSON_parse Store.create _ _ H1 H2)
    as (Hkeys & _ & Hget & _).
  split; [exact Hkeys | exact Hget].
Defined.

Lemma load_errors_witness :
  load Demo.JSON_parseMore Store.create (Throw (Error "read failed"))
  = Throw (Error "read failed")
  /\ load Demo.JSON_parseMore Store.create (Ok (JStr "null"))
     = Throw TypeError
  /\ load Demo.JSON_parseMore Store.create (Ok (JNum 5))
     = Throw (Error "Invalid settings storage").
Proof.
  split; [| split].
  - exact (proj2 (load_errors Demo.JSON_parseMore Store.create
                    (Throw (Error "read failed")) (Error "read failed"))
             eq_refl).
  - apply (proj2 (load_errors Demo.JSON_parseMore Store.create
                    (Ok (JStr "null")) TypeError)).
    right. right. split; [discriminate | split; [now left | reflexivity]].
  - exact (proj2 (load_errors Demo.JSON_parseMore Store.create
                    (Ok (JNum 5)) (Error "Invalid settings storage"))
             eq_refl).
Defined.

Lemma load_ignores_non_object_witness :
  ("5" <> "" /\ Demo.JSON_parseMore "5" = Some (JNum 5))
  /\ load Demo.JSON_parseMore Store.create (Ok (JStr "5"))
     = Ok (Store.mk makeDefaultState true).
Proof.
  assert (H1 : "5" <> "") by discriminate.
  assert (H2 : Demo.JSON_parseMore "5" = Some (JNum 5)) by reflexivity.
  split; [now split |].
  apply (load_ignores_non_object Demo.JSON_parseMore Store.create "5"
           (JNum 5) H1 H2); try discriminate.
  exact makeDefaultState_NoDup.
Defined.

Lemma setState_twice_witness :
  let s := Store.mk makeDefaultState true in
  let first :=
    setState Demo.JSON_stringify s JUndefined None
      [("enableAlphabeticSorting", JBool false)] in
  let second :=
    setState Demo.JSON_stringify (fst (fst first)) JUndefined None
      [("enableAlphabeticSorting", JBool true);
       ("clusterGroupedTabs", JBool false)] in
  loaded s = true
  /\ state (fst (fst second))
     = spread makeDefaultState
         (spread [("enableAlphabeticSorting", JBool false)]
            [("enableAlphabeticSorting", JBool true);
             ("clusterGroupedTabs", JBool false)]).
Proof.
  cbv zeta. split; [reflexivity |].
  exact (proj2 (setState_twice Demo.JSON_stringify
                  (Store.mk makeDefaultState true) JUndefined JUndefined
                  None None None
                  [("enableAlphabeticSorting", JBool false)]
                  [("enableAlphabeticSorting", JBool true);
                   ("clusterGroupedTabs", JBool false)] eq_refl)).
Defined.

Lemma setState_load_round_trip_witness :
  let s := Store.mk makeDefaultState true in
  let partial := [("enableAlphabeticSorting", JBool false)] in
  (loaded s = true
   /\ Forall (fun key => isKeyValid key = true) (obj_keys partial))
  /\ load Demo.JSON_parseMore Store.create
       (Ok (snd (fst (setState Demo.JSON_stringify s JUndefined None
                        partial))))
     = Ok (Store.mk Demo.sortingOff true).
Proof.
  cbv zeta.
  assert (H4 : Forall (fun key => isKeyValid key = true)
                 (obj_keys [("enableAlphabeticSorting", JBool false)]))
    by (repeat constructor).
  split; [split; [reflexivity | exact H4] |].
  assert (H5 : Demo.JSON_stringify Demo.sortingOff <> "")
    by (vm_compute; discriminate).
  exact (setState_load_round_trip Demo.JSON_parseMore Demo.JSON_stringify
           (Store.mk makeDefaultState true) Store.create JUndefined
           [("enableAlphabeticSorting", JBool false)]
           eq_refl eq_refl eq_refl H4 H5 eq_refl).
Defined.

End StoreCoverage.

(** ** The listeners of the site organizer *)

Module SiteOrganizerFacts.
Import SiteOrganizer.

#[local] Arguments String.eqb : simpl never.

Section Listeners.
Variable hostname : string -> string.
Variable parseSharedDomain : string -> string.

#[local] Abbreviation domainOf := (domainOf hostname parseSharedDomain).
#[local] Abbreviation onUpdated := (onUpdated hostname parseSharedDomain).

(** C4. A tab-updated event with status 'loading' and a URL whose domain
    label is the one recorded for the tab starts no [organize()] pass and
    leaves the tracking map as it was, whatever the auto-organize setting
    and whatever [lastError] holds. *)
Theorem onUpdated_same_domain_noop (lastError : option string)
    (state : JsObj) (groupByTabId : gmap Z string) (tabId : Z)
    (changeInfo : ChangeInfo) (u : string) :
  status changeInfo = Some "loading" ->
  truthyUrl (changedUrl changeInfo) = Some u ->
  groupByTabId !! tabId = Some (domainOf u) ->
  organizeCalls (onUpdated lastError state groupByTabId tabId changeInfo) = 0
  /\ tracking (onUpdated lastError state groupByTabId tabId changeInfo)
     = groupByTabId.
Proof.
  intros Hstatus Hurl Hsame. unfold SiteOrganizer.onUpdated.
  destruct lastError as [e |]; [now split |].
  rewrite Hstatus, Hurl, Hsame.
  rewrite bool_decide_eq_true_2 by reflexivity. simpl.
  rewrite bool_decide_eq_false_2 by (intros H; now apply H).
  now split.
Qed.

(** C5. The tab-removed listener deletes the entry of the tab from the
    tracking map whatever the setting, so that the map holds no entry for
    it afterwards, and starts an [organize()] pass exactly when the
    auto-organize setting is enabled; it never throws. *)
Theorem onRemoved_forgets_tab (state : JsObj) (groupByTabId : gmap Z string)
    (tabId : Z) :
  let outcome := onRemoved state groupByTabId tabId in
  tracking outcome = delete tabId groupByTabId
  /\ tracking outcome !! tabId = None
  /\ organizeCalls outcome = (if isAutomaticSortingEnabled state then 1 else 0)
  /\ raised outcome = None.
Proof.
  unfold onRemoved.
  destruct (isAutomaticSortingEnabled state); simpl;
    rewrite lookup_delete_eq; repeat split.
Qed.

(** C10, as the code has it.  A tab-updated event with status 'loading'
    and a URL for a tab id that has no entry in the tracking map is taken
    as a change of domain when no [lastError] is pending: the listener
    records the computed label for the tab and starts an [organize()] pass
    exactly when the auto-organize setting is enabled.  When a [lastError]
    is pending, the listener throws it, records nothing for the tab and
    starts no pass, whatever the setting. *)
Theorem onUpdated_first_navigation (lastError : option string)
    (state : JsObj) (groupByTabId : gmap Z string) (tabId : Z)
    (changeInfo : ChangeInfo) (u : string) :
  status changeInfo = Some "loading" ->
  truthyUrl (changedUrl changeInfo) = Some u ->
  groupByTabId !! tabId = None ->
  let outcome := onUpdated lastError state groupByTabId tabId changeInfo in
  match lastError with
  | None =>
      tracking outcome = <[tabId := domainOf u]> groupByTabId
      /\ tracking outcome !! tabId = Some (domainOf u)
      /\ organizeCalls outcome
         = (if isAutomaticSortingEnabled state then 1 else 0)
      /\ raised outcome = None
  | Some message =>
      tracking outcome = groupByTabId
      /\ tracking outcome !! tabId = None
      /\ organizeCalls outcome = 0
      /\ raised outcome = Some (LastError message)
  end.
Proof.
  intros Hstatus Hurl Hnone. unfold SiteOrganizer.onUpdated.
  destruct lastError as [message |]; simpl; [now repeat split |].
  rewrite Hstatus, Hurl, Hnone.
  rewrite bool_decide_eq_true_2 by reflexivity. simpl.
  destruct (isAutomaticSortingEnabled state); simpl;
    rewrite lookup_insert_eq; repeat split.
Qed.

End Listeners.

(** ** Sorting *)

Lemma StronglySorted_weaken {A} (R S : A -> A -> Prop) (l : list A) :
  (forall a b, R a b -> S a b) -> StronglySorted R l -> StronglySorted S l.
Proof.
  intros HRS. induction 1 as [| x l _ IH Hx]; constructor; [exact IH |].
  eapply List.Forall_impl; [| exact Hx]. intros b. apply HRS.
Qed.

Section SortFacts.
Context {A : Type}.
Variable compare : A -> A -> Z.

#[local] Abbreviation le x y := (compare x y <= 0)%Z.

Lemma insertBy_Permutation x l : Permutation (x :: l) (insertBy compare x l).
Proof.
  induction l as [| y rest IH]; simpl; [reflexivity |].
  destruct (compare x y <=? 0)%Z; [reflexivity |].
  rewrite perm_swap. now apply perm_skip.
Qed.

Lemma sortBy_Permutation l : Permutation l (sortBy compare l).
Proof.
  induction l as [| x rest IH]; simpl; [reflexivity |].
  rewrite <- insertBy_Permutation. now apply perm_skip.
Qed.

Lemma insertBy_In x l y : In y (insertBy compare x l) <-> y = x \/ In y l.
Proof.
  split; intros H.
  - apply list_elem_of_In in H.
    rewrite <- (insertBy_Permutation x l) in H.
    apply list_elem_of_In in H. simpl in H. intuition.
  - apply list_elem_of_In. rewrite <- (insertBy_Permutation x l).
    apply list_elem_of_In. simpl. intuition.
Qed.

Section Ordered.
Hypothesis compare_total : forall x y, le x y \/ le y x.
Hypothesis compare_trans : forall x y z, le x y -> le y z -> le x z.

Lemma insertBy_sorted x l :
  StronglySorted (fun a b => le a b) l ->
  StronglySorted (fun a b => le a b) (insertBy compare x l).
Proof.
  induction 1 as [| y rest Hrest IH Hy]; simpl.
  - repeat constructor.
  - destruct (Z.leb_spec (compare x y) 0) as [Hle | Hgt].
    + constructor; [now constructor |].
      constructor; [exact Hle |].
      eapply List.Forall_impl; [| exact Hy].
      intros z Hz. now apply (compare_trans x y z).
    + constructor; [exact IH |].
      apply List.Forall_forall. intros z Hz.
      apply insertBy_In in Hz as [-> | Hz].
      * destruct (compare_total x y) as [H | H]; [lia | exact H].
      * rewrite List.Forall_forall in Hy. now apply Hy.
Qed.

Lemma sortBy_sorted l : StronglySorted (fun a b => le a b) (sortBy compare l).
Proof.
  induction l as [| x rest IH]; simpl; [constructor |].
  now apply insertBy_sorted.
Qed.

End Ordered.

(** Stability: a class of elements that compare as equal keeps its order. *)
Lemma insertBy_filter (P : A -> bool) x l :
  (forall a b, P a = true -> P b = true -> le a b) ->
  List.filter P (insertBy compare x l)
  = if P x then x :: List.filter P l else List.filter P l.
Proof.
  intros Hclass. induction l as [| y rest IH]; simpl; [reflexivity |].
  destruct (Z.leb_spec (compare x y) 0) as [Hle | Hgt]; [reflexivity |].
  simpl. rewrite IH.
  destruct (P x) eqn:Hx, (P y) eqn:Hy; try reflexivity.
  specialize (Hclass x y Hx Hy). lia.
Qed.

Lemma sortBy_filter (P : A -> bool) l :
  (forall a b, P a = true -> P b = true -> le a b) ->
  List.filter P (sortBy compare l) = List.filter P l.
Proof.
  intros Hclass. induction l as [| x rest IH]; simpl; [reflexivity |].
  rewrite insertBy_filter by exact Hclass. now rewrite IH.
Qed.

(** [Array_sort] is [sortBy] as long as the comparator does not throw. *)
Variable compareFn : A -> A -> result Z.

Lemma sort_insert_pure x l :
  (forall y, In y l -> compareFn x y = Ok (compare x y)) ->
  sort_insert compareFn x l = Ok (insertBy compare x l).
Proof.
  induction l as [| y rest IH]; intros H; simpl; [reflexivity |].
  rewrite (H y) by now left. simpl.
  destruct (compare x y <=? 0)%Z; [reflexivity |].
  rewrite IH by (intros z Hz; apply H; now right). reflexivity.
Qed.

Lemma Array_sort_pure l :
  (forall x y, In x l -> In y l -> compareFn x y = Ok (compare x y)) ->
  Array_sort compareFn l = Ok (sortBy compare l).
Proof.
  induction l as [| x rest IH]; intros H; simpl; [reflexivity |].
  rewrite IH by (intros a b Ha Hb; apply H; now right). simpl.
  apply sort_insert_pure. intros y Hy. apply H; [now left |].
  right. apply list_elem_of_In. rewrite (sortBy_Permutation rest).
  now apply list_elem_of_In.
Qed.

Lemma sort_insert_length x l r :
  sort_insert compareFn x l = Ok r -> length r = S (length l).
Proof.
  revert r. induction l as [| y rest IH]; simpl; intros r.
  - now intros [= <-].
  - destruct (compareFn x y) as [c | e]; simpl; [| discriminate].
    destruct (c <=? 0)%Z; [now intros [= <-] |].
    destruct (sort_insert compareFn x rest) as [r' | e]; simpl;
      [| discriminate].
    intros [= <-]. simpl. now rewrite (IH r').
Qed.

Lemma Array_sort_length l r :
  Array_sort compareFn l = Ok r -> length r = length l.
Proof.
  revert r. induction l as [| x rest IH]; simpl; intros r.
  - now intros [= <-].
  - destruct (Array_sort compareFn rest) as [s | e]; simpl; [| discriminate].
    intros H. apply sort_insert_length in H. rewrite H. now rewrite (IH s).
Qed.

(** A comparator that throws on an element makes the sort of two or more
    elements throw. *)
Section Throwing.
Variable bad : A -> bool.
Variable e : Exn.
Hypothesis compareFn_bad :
  forall a b, bad a = true \/ bad b = true -> compareFn a b = Throw e.
Hypothesis compareFn_throws : forall a b e', compareFn a b = Throw e' -> e' = e.

Lemma sort_insert_throws x l e' : sort_insert compareFn x l = Throw e' -> e' = e.
Proof.
  induction l as [| y rest IH]; simpl; [discriminate |].
  destruct (compareFn x y) as [c | e0] eqn:Hc; simpl.
  - destruct (c <=? 0)%Z; [discriminate |].
    destruct (sort_insert compareFn x rest) as [r | e1]; simpl;
      [discriminate |].
    intros [= <-]. now apply IH.
  - intros [= <-]. now apply (compareFn_throws x y).
Qed.

Lemma Array_sort_throws l e' : Array_sort compareFn l = Throw e' -> e' = e.
Proof.
  induction l as [| x rest IH]; simpl; [discriminate |].
  destruct (Array_sort compareFn rest) as [s | e0]; simpl.
  - apply sort_insert_throws.
  - intros [= <-]. now apply IH.
Qed.

Lemma Array_sort_bad l :
  Exists (fun x => bad x = true) l -> 2 <= length l ->
  Array_sort compareFn l = Throw e.
Proof.
  induction l as [| x rest IH]; intros Hex Hlen; [simpl in Hlen; lia |].
  destruct rest as [| y rest']; [simpl in Hlen; lia |].
  change (Array_sort compareFn (x :: y :: rest'))
    with (Array_sort compareFn (y :: rest') ≫= sort_insert compareFn x).
  destruct (Array_sort compareFn (y :: rest')) as [s | e0] eqn:Hs.
  - pose proof (Array_sort_length _ _ Hs) as Hl.
    destruct s as [| z s']; [discriminate Hl |]. simpl.
    enough (Hthrow : compareFn x z = Throw e) by now rewrite Hthrow.
    apply compareFn_bad.
    apply Exists_cons in Hex as [Hx | Hex]; [now left | right].
    destruct rest' as [| y' rest''].
    + simpl in Hs. injection Hs as Hz _. subst z.
      now apply Exists_cons in Hex as [Hy | Hex]; [| inversion Hex].
    + assert (Hlen' : 2 <= length (y :: y' :: rest'')) by (simpl; lia).
      specialize (IH Hex Hlen'). discriminate IH.
  - simpl. f_equal. now apply (Array_sort_throws (y :: rest')).
Qed.

End Throwing.

End SortFacts.

(** ** The organize pass *)

Section Organize.
Variable hostname : string -> string.
Variable parseSharedDomain : string -> string.
Variable localeCompare : string -> string -> Z.
Variable isTabGroupingSupported : bool.

#[local] Abbreviation domainOf := (domainOf hostname parseSharedDomain).
#[local] Abbreviation labelOf := (labelOf hostname parseSharedDomain).
#[local] Abbreviation domainCompare := (domainCompare localeCompare).
#[local] Abbreviation labelOrder := (labelOrder localeCompare).
#[local] Abbreviation compareTabs :=
  (compareTabs hostname parseSharedDomain localeCompare).
#[local] Abbreviation sortTabsAlphabetically :=
  (sortTabsAlphabetically hostname parseSharedDomain localeCompare).
#[local] Abbreviation sortTabIdsByDomain :=
  (sortTabIdsByDomain hostname parseSharedDomain).
#[local] Abbreviation organize :=
  (organize hostname parseSharedDomain localeCompare isTabGroupingSupported).

#[local] Abbreviation compareLabels :=
  (compareLabels hostname parseSharedDomain localeCompare).

Lemma compareTabs_pure a b :
  hasUrl a = true -> hasUrl b = true ->
  compareTabs a b = Ok (compareLabels a b).
Proof.
  unfold hasUrl, SiteOrganizer.compareTabs, SiteOrganizer.compareLabels,
    SiteOrganizer.labelOf.
  destruct (truthyUrl (url a)), (truthyUrl (url b)); now try discriminate.
Qed.

Lemma compareTabs_bad a b :
  negb (hasUrl a) = true \/ negb (hasUrl b) = true ->
  compareTabs a b = Throw missingUrl.
Proof.
  unfold hasUrl, SiteOrganizer.compareTabs.
  destruct (truthyUrl (url a)), (truthyUrl (url b)); simpl;
    intros [H | H]; try discriminate; reflexivity.
Qed.

Lemma compareTabs_throws a b e : compareTabs a b = Throw e -> e = missingUrl.
Proof.
  unfold SiteOrganizer.compareTabs.
  destruct (truthyUrl (url a)), (truthyUrl (url b)); try discriminate;
    now intros [= <-].
Qed.

(** Two or more tabs, one of them without a URL: the sort throws. *)
Lemma sortTabsAlphabetically_missing_url tabs :
  Exists (fun tab => hasUrl tab = false) tabs -> 2 <= length tabs ->
  sortTabsAlphabetically tabs = Throw missingUrl.
Proof.
  intros Hex Hlen.
  apply (Array_sort_bad compareTabs (fun tab => negb (hasUrl tab)) missingUrl).
  - apply compareTabs_bad.
  - apply compareTabs_throws.
  - eapply List.Exists_impl; [| exact Hex].
    intros tab H. simpl. now rewrite H.
  - exact Hlen.
Qed.

Lemma organize_sorted tabs sortedTabs :
  sortTabsAlphabetically tabs = Ok sortedTabs ->
  exists clustering,
    commands (organize None tabs)
    = fst (reorderBrowserTabs sortedTabs) ++ clustering.
Proof.
  intros Hsort. unfold SiteOrganizer.organize. rewrite Hsort.
  destruct (reorderBrowserTabs sortedTabs) as [moves [e |]]; simpl.
  - exists []. now rewrite app_nil_r.
  - destruct isTabGroupingSupported; simpl.
    + destruct (sortTabIdsByDomain (filterNonPinnedTabs sortedTabs));
        simpl; [eexists; reflexivity | exists []; now rewrite app_nil_r].
    + exists []. now rewrite app_nil_r.
Qed.

(** When every tab has an id, [reorderBrowserTabs] moves each of them, in
    the order of the list, and does not throw. *)
Lemma reorderBrowserTabs_all_ids (tabs : list Tab) :
  Forall (fun tab => truthyId (id tab) <> None) tabs ->
  reorderBrowserTabs tabs = (map Move (tabIds tabs), None)
  /\ length (tabIds tabs) = length tabs.
Proof.
  induction 1 as [| tab rest Hid _ [IH Hlen]]; [now split |].
  unfold tabIds in *. simpl.
  destruct (truthyId (id tab)) as [i |]; [| now destruct Hid].
  rewrite IH. simpl. split; [reflexivity | now rewrite Hlen].
Qed.

Section Collation.
(** [localeCompare] is a consistent comparator: a total preorder. *)
Hypothesis localeCompare_total :
  forall a b, (localeCompare a b <= 0)%Z \/ (localeCompare b a <= 0)%Z.
Hypothesis localeCompare_trans :
  forall a b c, (localeCompare a b <= 0)%Z -> (localeCompare b c <= 0)%Z ->
                (localeCompare a c <= 0)%Z.

(** [domainCompare] sorts in the order of the specification. *)
Lemma domainCompare_labelOrder a b :
  (domainCompare a b <= 0)%Z <-> labelOrder a b.
Proof.
  unfold SiteOrganizer.domainCompare, SiteOrganizer.labelOrder.
  destruct (String.eqb_spec a b) as [-> | Hab].
  - split; [intros _ | lia].
    destruct (String.eqb_spec b "new") as [-> | Hb]; [now left | right].
    split; [exact Hb |]. destruct (localeCompare_total b b); assumption.
  - destruct (String.eqb_spec a "new") as [-> | Ha].
    + split; [lia | intros [-> | [H _]]; congruence].
    + destruct (String.eqb_spec b "new") as [-> | Hb].
      * split; [now left | lia].
      * split; [now right | intros [-> | [_ H]]; [congruence | exact H]].
Qed.

Lemma labelOrder_trans a b c :
  labelOrder a b -> labelOrder b c -> labelOrder a c.
Proof.
  unfold SiteOrganizer.labelOrder. intros Hab [-> | [Hb Hbc]]; [now left |].
  destruct Hab as [-> | [Ha Hab]]; [congruence | right].
  split; [exact Ha | now apply (localeCompare_trans a b c)].
Qed.

Lemma labelOrder_total a b : labelOrder a b \/ labelOrder b a.
Proof.
  unfold SiteOrganizer.labelOrder.
  destruct (String.eqb_spec a "new") as [-> | Ha]; [right; now left |].
  destruct (String.eqb_spec b "new") as [-> | Hb]; [left; now left |].
  destruct (localeCompare_total a b); [left | right]; now right.
Qed.

(** The label "new" comes after every label, and only "new" follows it. *)
Lemma labelOrder_new_last a : labelOrder a "new".
Proof. now left. Qed.

Lemma labelOrder_after_new b : labelOrder "new" b -> b = "new".
Proof. intros [-> | [H _]]; congruence. Qed.

Lemma sortBy_SortedByLabel tabs : SortedByLabel hostname parseSharedDomain
                                    localeCompare tabs
                                    (sortBy compareLabels tabs).
Proof.
  split; [apply sortBy_Permutation | split].
  - eapply StronglySorted_weaken;
      [| apply (sortBy_sorted compareLabels)].
    + intros a b H. now apply domainCompare_labelOrder.
    + intros a b. unfold SiteOrganizer.compareLabels.
      rewrite !domainCompare_labelOrder. apply labelOrder_total.
    + intros a b c. unfold SiteOrganizer.compareLabels.
      rewrite !domainCompare_labelOrder. apply labelOrder_trans.
  - intros label. apply sortBy_filter. intros a b Ha Hb.
    apply String.eqb_eq in Ha, Hb. unfold SiteOrganizer.compareLabels.
    rewrite Ha, Hb. unfold SiteOrganizer.domainCompare.
    now rewrite String.eqb_refl.
Qed.

(** C1, as the code has it.  When every tab the query returned has a URL,
    [organize()] sorts them into a sequence that holds the same tabs,
    ascending by domain label in [localeCompare] order with the label "new"
    after every other label, the tabs of one label in the order the query
    gave them.  That sequence is the one the pass goes on with: its calls
    begin with the moves [reorderBrowserTabs] issues for it, and when every
    tab has an id these are one move for each tab, in the order of the
    sequence.  When two or more tabs were returned and one has no URL, the
    pass throws 'No url for sorted tab' and does nothing. *)
Theorem organize_sorts_by_label (tabs : list Tab) :
  (Forall (fun tab => hasUrl tab = true) tabs ->
   exists sortedTabs,
     sortTabsAlphabetically tabs = Ok sortedTabs
     /\ SortedByLabel hostname parseSharedDomain localeCompare tabs sortedTabs
     /\ (exists clustering,
           commands (organize None tabs)
           = fst (reorderBrowserTabs sortedTabs) ++ clustering)
     /\ (Forall (fun tab => truthyId (id tab) <> None) tabs ->
         fst (reorderBrowserTabs sortedTabs) = map Move (tabIds sortedTabs)
         /\ length (tabIds sortedTabs) = length tabs))
  /\ (Exists (fun tab => hasUrl tab = false) tabs -> 2 <= length tabs ->
      organize None tabs = mkPass [] (Some (Error "No url for sorted tab"))).
Proof.
  split.
  - intros Hall. exists (sortBy compareLabels tabs).
    assert (Hsort :
      sortTabsAlphabetically tabs = Ok (sortBy compareLabels tabs)).
    { apply Array_sort_pure. intros a b Ha Hb.
      rewrite List.Forall_forall in Hall. apply compareTabs_pure; auto. }
    split; [exact Hsort |]. split; [apply sortBy_SortedByLabel |].
    split; [now apply organize_sorted |].
    intros Hids.
    pose proof (sortBy_Permutation compareLabels tabs) as Hperm.
    destruct (reorderBrowserTabs_all_ids (sortBy compareLabels tabs))
      as [Hmoves Hlen].
    { eapply Permutation_Forall; [exact Hperm | exact Hids]. }
    rewrite Hmoves. split; [reflexivity |].
    rewrite Hlen. symmetry. now apply Permutation_length.
  - intros Hex Hlen. unfold SiteOrganizer.organize.
    now rewrite sortTabsAlphabetically_missing_url.
Qed.

End Collation.

(** *** Clustering *)

Lemma reorderBrowserTabs_moves tabs :
  Forall isMove (fst (reorderBrowserTabs tabs)).
Proof.
  induction tabs as [| tab rest IH]; simpl; [constructor |].
  destruct (truthyId (id tab)) as [i |]; [| constructor].
  destruct (reorderBrowserTabs rest) as [moves e]. simpl in *.
  constructor; [now exists i | exact IH].
Qed.

Lemma isMove_bigEnough c : isMove c -> bigEnough c.
Proof. now intros [i ->]. Qed.

Lemma partition_In {A} (f : A -> bool) (l : list A) x :
  In x (List.filter f l ++ List.filter (fun y => negb (f y)) l) <-> In x l.
Proof.
  rewrite in_app_iff, !filter_In. destruct (f x); simpl; intuition.
Qed.

(** What the inner loop issues for the windows it is given. *)
Lemma renderWindows_issued idx name byWindow windows offset c :
  In c (snd (renderWindows idx name byWindow windows offset)) ->
  exists w,
    In w windows
    /\ let tabIds := default [] (win_lookup byWindow w) in
       (c = Ungroup tabIds /\ length tabIds < 2)
       \/ (exists i, c = AddNewGroup i name tabIds w) /\ 2 <= length tabIds.
Proof.
  revert offset. induction windows as [| w rest IH]; intros offset; simpl;
    [tauto |].
  destruct (Nat.ltb_spec (length (default [] (win_lookup byWindow w))) 2)
    as [Hlt | Hge].
  - destruct (renderWindows idx name byWindow rest (offset + 1))
      as [offset' cmds] eqn:Hrest.
    simpl. intros [<- | Hin].
    + exists w. split; [now left | left; now split].
    + specialize (IH (offset + 1)%Z). rewrite Hrest in IH.
      destruct (IH Hin) as (w' & Hw' & H). exists w'. split; [now right | exact H].
  - destruct (renderWindows idx name byWindow rest offset)
      as [offset' cmds] eqn:Hrest.
    simpl. intros [<- | Hin].
    + exists w. split; [now left | right; split; [eexists; reflexivity | exact Hge]].
    + specialize (IH offset). rewrite Hrest in IH.
      destruct (IH Hin) as (w' & Hw' & H). exists w'. split; [now right | exact H].
Qed.

Lemma renderWindows_covers idx name byWindow windows offset w :
  In w windows ->
  let tabIds := default [] (win_lookup byWindow w) in
  let cmds := snd (renderWindows idx name byWindow windows offset) in
  if (length tabIds <? 2)%nat then In (Ungroup tabIds) cmds
  else exists i, In (AddNewGroup i name tabIds w) cmds.
Proof.
  revert offset. induction windows as [| w0 rest IH]; intros offset Hin;
    [destruct Hin |].
  cbv zeta. simpl renderWindows.
  destruct (Nat.ltb_spec (length (default [] (win_lookup byWindow w0))) 2)
    as [Hlt0 | Hge0].
  - destruct (renderWindows idx name byWindow rest (offset + 1))
      as [offset' cmds] eqn:Hrest. simpl.
    destruct Hin as [-> | Hin].
    + apply Nat.ltb_lt in Hlt0. rewrite Hlt0. now left.
    + specialize (IH (offset + 1)%Z Hin). cbv zeta in IH.
      rewrite Hrest in IH. simpl in IH.
      destruct (length (default [] (win_lookup byWindow w)) <? 2)%nat;
        [now right | destruct IH as [i Hi]; exists i; now right].
  - destruct (renderWindows idx name byWindow rest offset)
      as [offset' cmds] eqn:Hrest. simpl.
    destruct Hin as [-> | Hin].
    + apply Nat.ltb_ge in Hge0. rewrite Hge0. eexists. now left.
    + specialize (IH offset Hin). cbv zeta in IH.
      rewrite Hrest in IH. simpl in IH.
      destruct (length (default [] (win_lookup byWindow w)) <? 2)%nat;
        [now right | destruct IH as [i Hi]; exists i; now right].
Qed.

(** The same for the outer loop: a call is issued for the bucket
    [tabIdsByGroup[name][w]] of each name and each of its windows. *)
Lemma renderNames_issued (tabIdsByGroup : TabIdsByDomain) names idx offset c :
  In c (renderNames tabIdsByGroup names idx offset) ->
  exists name w,
    In name names
    /\ let byWindow := default [] (obj_lookup tabIdsByGroup name) in
       In w (map fst byWindow)
       /\ let tabIds := default [] (win_lookup byWindow w) in
          (c = Ungroup tabIds /\ length tabIds < 2)
          \/ (exists i, c = AddNewGroup i name tabIds w) /\ 2 <= length tabIds.
Proof.
  revert idx offset. induction names as [| name rest IH]; intros idx offset;
    simpl; [tauto |].
  match goal with
  | |- context [renderWindows ?i ?n ?b ?ws ?o] =>
      pose proof (renderWindows_issued i n b ws o c) as Hinner;
      destruct (renderWindows i n b ws o) as [offset' cmds]
  end.
  rewrite in_app_iff. intros [Hin | Hin].
  - destruct (Hinner Hin) as (w & Hw & H). apply partition_In in Hw.
    exists name, w. split; [now left | split; [exact Hw | exact H]].
  - destruct (IH _ _ Hin) as (name' & w & Hname & H).
    exists name', w. split; [now right | exact H].
Qed.

Lemma renderNames_covers (tabIdsByGroup : TabIdsByDomain) names idx offset
    name w :
  In name names ->
  let byWindow := default [] (obj_lookup tabIdsByGroup name) in
  In w (map fst byWindow) ->
  let tabIds := default [] (win_lookup byWindow w) in
  let cmds := renderNames tabIdsByGroup names idx offset in
  if (length tabIds <? 2)%nat then In (Ungroup tabIds) cmds
  else exists i, In (AddNewGroup i name tabIds w) cmds.
Proof.
  revert idx offset. induction names as [| name0 rest IH];
    intros idx offset Hname; [destruct Hname |].
  cbv zeta. intros Hw. simpl renderNames.
  match goal with
  | |- context [renderWindows ?i ?n ?b ?ws ?o] =>
      pose proof (fun w' => renderWindows_covers i n b ws o w') as Hinner;
      destruct (renderWindows i n b ws o) as [offset' cmds] eqn:Hrw
  end.
  destruct Hname as [-> | Hname].
  - specialize (Hinner w). cbv zeta in Hinner. simpl in Hinner.
    rewrite partition_In in Hinner. specialize (Hinner Hw).
    destruct (length (default [] (win_lookup
                (default [] (obj_lookup tabIdsByGroup name)) w)) <? 2)%nat.
    + apply in_app_iff. now left.
    + destruct Hinner as [i Hi]. exists i. apply in_app_iff. now left.
  - specialize (IH (idx + 1)%Z offset' Hname). cbv zeta in IH.
    specialize (IH Hw).
    destruct (length (default [] (win_lookup
                (default [] (obj_lookup tabIdsByGroup name)) w)) <? 2)%nat.
    + apply in_app_iff. now right.
    + destruct IH as [i Hi]. exists i. apply in_app_iff. now right.
Qed.

Lemma obj_lookup_key {V} (o : list (string * V)) key v :
  obj_lookup o key = Some v -> In key (obj_keys o) /\ In (key, v) o.
Proof.
  induction o as [| [k w] rest IH]; simpl; [discriminate |].
  destruct (String.eqb_spec k key) as [-> | Hne].
  - intros [= ->]. split; now left.
  - intros H. destruct (IH H). split; now right.
Qed.

Lemma win_lookup_key (byWindow : ByWindow) w tabIds :
  win_lookup byWindow w = Some tabIds ->
  In w (map fst byWindow) /\ In (w, tabIds) byWindow.
Proof.
  induction byWindow as [| [k old] rest IH]; simpl; [discriminate |].
  destruct (N.eqb_spec k w) as [-> | Hne].
  - intros [= ->]. split; now left.
  - intros H. destruct (IH H). split; now right.
Qed.

Lemma renderBrowserTabGroups_bigEnough (tabIdsByGroup : TabIdsByDomain) :
  Forall bigEnough (renderBrowserTabGroups tabIdsByGroup).
Proof.
  apply List.Forall_forall. intros c Hc.
  apply renderNames_issued in Hc as (name & w & _ & _ & H). cbv zeta in H.
  destruct H as [[-> _] | [[i ->] Hlen]]; simpl; [exact I | exact Hlen].
Qed.

Lemma obj_set_In {V} (o : list (string * V)) key x k v :
  In (k, v) (obj_set o key x) -> (k = key /\ v = x) \/ In (k, v) o.
Proof.
  induction o as [| [k0 w] rest IH]; simpl.
  - intros [[= <- <-] | []]. now left.
  - destruct (String.eqb_spec k0 key) as [-> | Hne]; simpl.
    + intros [[= <- <-] | H]; [now left | right; now right].
    + intros [H | H]; [right; now left |].
      destruct (IH H) as [H' | H']; [now left | right; now right].
Qed.

Lemma win_set_In (byWindow : ByWindow) w x k v :
  In (k, v) (win_set byWindow w x) -> (k = w /\ v = x) \/ In (k, v) byWindow.
Proof.
  induction byWindow as [| [k0 old] rest IH]; simpl.
  - intros [[= <- <-] | []]. now left.
  - destruct (N.eqb_spec k0 w) as [-> | Hne]; simpl.
    + intros [[= <- <-] | H]; [now left | right; now right].
    + destruct (w <? k0)%N; simpl.
      * intros [[= <- <-] | H]; [now left | now right].
      * intros [H | H]; [right; now left |].
        destruct (IH H) as [H' | H']; [now left | right; now right].
Qed.

Lemma addTabId_nonEmpty t tab t' :
  nonEmptyBuckets t ->
  addTabId hostname parseSharedDomain t tab = Ok t' -> nonEmptyBuckets t'.
Proof.
  intros Hne. unfold addTabId.
  destruct (truthyId (id tab)) as [i |]; [| discriminate].
  destruct (truthyUrl (url tab)) as [u |]; [| discriminate].
  destruct (obj_lookup t (domainOf u)) as [byWindow |] eqn:Hlook.
  - apply obj_lookup_key in Hlook as [_ Hin].
    assert (Hset : forall tabIds, tabIds <> [] ->
      nonEmptyBuckets
        (obj_set t (domainOf u) (win_set byWindow (windowId tab) tabIds))).
    { intros tabIds Hids name byW w ids H1 H2.
      apply obj_set_In in H1 as [[-> ->] | H1];
        [| exact (Hne _ _ _ _ H1 H2)].
      apply win_set_In in H2 as [[-> ->] | H2]; [exact Hids |].
      exact (Hne _ _ _ _ Hin H2). }
    destruct (win_lookup byWindow (windowId tab)) as [tabIds |];
      intros [= <-]; apply Hset; [now destruct tabIds | discriminate].
  - intros [= <-] name byW w ids H1 H2.
    apply obj_set_In in H1 as [[-> ->] | H1]; [| exact (Hne _ _ _ _ H1 H2)].
    destruct H2 as [[= <- <-] | []]. discriminate.
Qed.

Lemma collectTabIds_nonEmpty tabs t t' :
  nonEmptyBuckets t ->
  collectTabIds hostname parseSharedDomain t tabs = Ok t' ->
  nonEmptyBuckets t'.
Proof.
  revert t. induction tabs as [| tab rest IH]; intros t Hne; simpl.
  - now intros [= <-].
  - destruct (addTabId hostname parseSharedDomain t tab) as [next | e] eqn:Ha;
      simpl; [| discriminate].
    apply IH. now apply (addTabId_nonEmpty t tab).
Qed.

(** C3. Every call of an [organize()] pass that creates a group names two
    tabs or more.  When the pass reaches clustering (no error, grouping
    supported), each bucket [(domain, windowId)] is non-empty, a bucket of
    one tab gets an ungroup call for that tab, a bucket of two or more gets
    a group call, and every group call is for such a bucket of two or more:
    no group is created from a bucket of one tab. *)
Theorem organize_group_cardinality (lastError : option string)
    (tabs : list Tab) :
  let pass := organize lastError tabs in
  Forall bigEnough (commands pass)
  /\ forall sortedTabs tabIdsByDomain,
       lastError = None -> isTabGroupingSupported = true ->
       sortTabsAlphabetically tabs = Ok sortedTabs ->
       snd (reorderBrowserTabs sortedTabs) = None ->
       sortTabIdsByDomain (filterNonPinnedTabs sortedTabs)
       = Ok tabIdsByDomain ->
       thrown pass = None
       /\ (forall name byWindow w tabIds,
             obj_lookup tabIdsByDomain name = Some byWindow ->
             win_lookup byWindow w = Some tabIds ->
             tabIds <> []
             /\ if (length tabIds <? 2)%nat
                then In (Ungroup tabIds) (commands pass)
                else exists idx,
                       In (AddNewGroup idx name tabIds w) (commands pass))
       /\ (forall idx name tabIds w,
             In (AddNewGroup idx name tabIds w) (commands pass) ->
             2 <= length tabIds
             /\ exists byWindow,
                  obj_lookup tabIdsByDomain name = Some byWindow
                  /\ win_lookup byWindow w = Some tabIds).
Proof.
  cbv zeta. split.
  - unfold SiteOrganizer.organize.
    destruct lastError as [e |]; [constructor |].
    destruct (sortTabsAlphabetically tabs) as [sortedTabs | e]; [| constructor].
    pose proof (reorderBrowserTabs_moves sortedTabs) as Hmoves.
    eapply List.Forall_impl in Hmoves; [| exact isMove_bigEnough].
    destruct (reorderBrowserTabs sortedTabs) as [moves [e |]];
      simpl in *; [exact Hmoves |].
    destruct isTabGroupingSupported; simpl; [| exact Hmoves].
    destruct (sortTabIdsByDomain (filterNonPinnedTabs sortedTabs))
      as [t | e]; simpl; [| exact Hmoves].
    apply Forall_app. split;
      [exact Hmoves | apply renderBrowserTabGroups_bigEnough].
  - intros sortedTabs t -> Hsupported Hsort Hreorder Hbuckets.
    pose proof (reorderBrowserTabs_moves sortedTabs) as Hmoves.
    unfold SiteOrganizer.organize. rewrite Hsort, Hsupported.
    destruct (reorderBrowserTabs sortedTabs) as [moves e].
    simpl in Hreorder, Hmoves. subst e. rewrite Hbuckets. simpl.
    split; [reflexivity |]. split.
    + intros name byWindow w tabIds Hname Hw. split.
      * apply (collectTabIds_nonEmpty _ [] t) in Hbuckets;
          [| intros ? ? ? ? []].
        apply obj_lookup_key in Hname as [_ Hname].
        apply win_lookup_key in Hw as [_ Hw].
        exact (Hbuckets _ _ _ _ Hname Hw).
      * pose proof (renderNames_covers t (obj_keys t) 0 0 name w) as Hc.
        cbv zeta in Hc. rewrite Hname in Hc. simpl in Hc. rewrite Hw in Hc.
        simpl in Hc.
        specialize (Hc (proj1 (obj_lookup_key _ _ _ Hname))
                       (proj1 (win_lookup_key _ _ _ Hw))).
        destruct (length tabIds <? 2)%nat.
        -- apply in_app_iff. now right.
        -- destruct Hc as [i Hi]. exists i. apply in_app_iff. now right.
    + intros idx name tabIds w Hin. apply in_app_iff in Hin as [Hin | Hin].
      * rewrite List.Forall_forall in Hmoves.
        destruct (Hmoves _ Hin) as [i Hi]. discriminate Hi.
      * apply renderNames_issued in Hin as (name' & w' & Hname & Hw & H).
        cbv zeta in H, Hw.
        destruct H as [[H _] | [[i H] Hlen]]; [discriminate H |].
        injection H as -> -> -> ->. split; [exact Hlen |].
        destruct (obj_lookup t name') as [byWindow |] eqn:Hlook;
          [| destruct Hw].
        exists byWindow. split; [reflexivity |]. simpl in *.
        destruct (win_lookup byWindow w') as [ids |] eqn:Hwl;
          [reflexivity |].
        simpl in Hlen. lia.
Qed.

(** *** Colour indices

    When every domain label has its tabs in one window, the real groups get
    the indices [0], [1], ... in the order they are met, whatever orphans
    lie between them. *)
Lemma renderNames_single_window (tabIdsByGroup : TabIdsByDomain) names idx
    offset :
  Forall (fun name =>
            length (default [] (obj_lookup tabIdsByGroup name)) = 1) names ->
  let indices := groupIndices (renderNames tabIdsByGroup names idx offset) in
  indices
  = map (fun j => (idx - offset + Z.of_nat j)%Z) (seq 0 (length indices)).
Proof.
  cbv zeta. revert idx offset.
  induction names as [| name rest IH]; intros idx offset Hall;
    [reflexivity |].
  apply Forall_cons in Hall as [Hname Hrest]. simpl renderNames.
  destruct (default [] (obj_lookup tabIdsByGroup name))
    as [| [w tabIds] [| ? ?]]; try discriminate Hname.
  simpl. rewrite N.eqb_refl. simpl.
  destruct tabIds as [| i [| j tabIds]]; simpl; rewrite ?N.eqb_refl; simpl.
  - rewrite (IH (idx + 1)%Z (offset + 1)%Z Hrest) at 1.
    apply map_ext. intros k. lia.
  - rewrite (IH (idx + 1)%Z (offset + 1)%Z Hrest) at 1.
    apply map_ext. intros k. lia.
  - f_equal; [lia |].
    rewrite (IH (idx + 1)%Z offset Hrest) at 1.
    rewrite <- seq_shift, map_map. apply map_ext. intros k. lia.
Qed.

(** *** Tabs without a URL *)

Lemma legacy_collect_skips
    (acc : list (string * list (option Z))) (tabs : list Tab) :
  TabOrganizer.collectTabIds hostname parseSharedDomain acc tabs
  = TabOrganizer.collectTabIds hostname parseSharedDomain acc
      (List.filter hasUrl tabs).
Proof.
  revert acc. induction tabs as [| tab rest IH]; intros acc; simpl;
    [reflexivity |].
  unfold hasUrl at 1.
  destruct (truthyUrl (url tab)) as [u |] eqn:Hu; simpl.
  - rewrite Hu. apply IH.
  - apply IH.
Qed.

Lemma organize_single (tab : Tab) :
  organize None [tab]
  = match truthyId (id tab) with
    | None => mkPass [] (Some (Error "No id for sorted tab"))
    | Some i =>
        if negb isTabGroupingSupported then mkPass [Move i] None
        else if pinned tab then mkPass [Move i] None
        else
          match truthyUrl (url tab) with
          | None => mkPass [Move i] (Some (Error "No tab url"))
          | Some u =>
              mkPass [Move i; Ungroup [i]] None
          end
    end.
Proof.
  unfold SiteOrganizer.organize. simpl.
  destruct (truthyId (id tab)) as [i |] eqn:Hid; simpl; [| reflexivity].
  destruct isTabGroupingSupported; simpl; [| reflexivity].
  unfold filterNonPinnedTabs. simpl.
  destruct (pinned tab); simpl; [reflexivity |].
  unfold SiteOrganizer.sortTabIdsByDomain. simpl.
  unfold addTabId. rewrite Hid.
  destruct (truthyUrl (url tab)) as [u |]; simpl; [| reflexivity].
  unfold renderBrowserTabGroups. simpl.
  rewrite String.eqb_refl. simpl.
  repeat (rewrite N.eqb_refl; simpl). reflexivity.
Qed.

(** C9, as the code has it.  When the tabs [organize()] processes include
    one without a URL, the pass issues no group and no ungroup call at all,
    so that tab is in no bucket, but it does not skip the tab: with two or
    more tabs the pass throws 'No url for sorted tab' before it moves any
    tab, and when the tab is alone, unpinned, with an id and grouping is
    supported, it throws 'No tab url' after the move.  Skipping such tabs,
    and filing a tab whose domain is empty under "system", is what the
    earlier [TabOrganizer.sortTabIdsByDomain] does. *)
Theorem organize_missing_url (lastError : option string) (tabs : list Tab)
    (tab : Tab) :
  In tab tabs -> hasUrl tab = false ->
  let pass := organize lastError tabs in
  Forall isMove (commands pass)
  /\ (lastError = None -> 2 <= length tabs ->
      pass = mkPass [] (Some (Error "No url for sorted tab")))
  /\ (lastError = None -> tabs = [tab] -> isTabGroupingSupported = true ->
      pinned tab = false ->
      forall i, truthyId (id tab) = Some i ->
                pass = mkPass [Move i] (Some (Error "No tab url")))
  /\ TabOrganizer.sortTabIdsByDomain hostname parseSharedDomain tabs
     = TabOrganizer.sortTabIdsByDomain hostname parseSharedDomain
         (List.filter hasUrl tabs)
  /\ forall u, parseSharedDomain (hostname u) = "" ->
               TabOrganizer.domainOrSystem hostname parseSharedDomain u
               = "system".
Proof.
  intros Hin Hurl. cbv zeta.
  assert (Hthrow : 2 <= length tabs ->
    organize None tabs = mkPass [] (Some (Error "No url for sorted tab"))).
  { intros Hlen. unfold SiteOrganizer.organize.
    rewrite sortTabsAlphabetically_missing_url; [reflexivity | | exact Hlen].
    apply List.Exists_exists. now exists tab. }
  split; [| split; [| split; [| split]]].
  - destruct lastError as [e |]; [constructor |].
    destruct tabs as [| t0 [| t1 rest]]; [destruct Hin | |].
    + destruct Hin as [-> | []]. rewrite organize_single.
      unfold hasUrl in Hurl.
      destruct (truthyUrl (url tab)); [discriminate |].
      destruct (truthyId (id tab)) as [i |]; [| constructor].
      destruct isTabGroupingSupported, (pinned tab); simpl;
        repeat constructor; now exists i.
    + rewrite Hthrow by (simpl; lia). constructor.
  - intros -> Hlen. now apply Hthrow.
  - intros -> -> Hsupported Hpinned i Hid. rewrite organize_single.
    rewrite Hid, Hsupported, Hpinned. simpl.
    unfold hasUrl in Hurl. now destruct (truthyUrl (url tab)).
  - apply legacy_collect_skips.
  - intros u Hu. unfold TabOrganizer.domainOrSystem. now rewrite Hu.
Qed.

End Organize.

(** ** The examples *)

Lemma Demo_localeCompare_total a b :
  (Demo.localeCompare a b <= 0)%Z \/ (Demo.localeCompare b a <= 0)%Z.
Proof.
  unfold Demo.localeCompare.
  pose proof (String_as_OT.cmp_antisym b a) as H.
  unfold String_as_OT.cmp in H. rewrite H.
  destruct (String.compare a b); simpl; lia.
Qed.

Lemma Demo_localeCompare_le a b :
  (Demo.localeCompare a b <= 0)%Z <-> a = b \/ String_as_OT.lt a b.
Proof.
  unfold Demo.localeCompare.
  destruct (String.compare a b) eqn:E.
  - apply String_as_OT.cmp_eq in E. split; [now left | lia].
  - apply String_as_OT.cmp_lt in E. split; [now right | lia].
  - split; [lia |]. intros [-> | H].
    + pose proof (proj2 (String_as_OT.cmp_eq b b) eq_refl) as Hbb.
      unfold String_as_OT.cmp in Hbb. congruence.
    + apply String_as_OT.cmp_lt in H. unfold String_as_OT.cmp in H.
      congruence.
Qed.

Lemma Demo_localeCompare_trans a b c :
  (Demo.localeCompare a b <= 0)%Z -> (Demo.localeCompare b c <= 0)%Z ->
  (Demo.localeCompare a c <= 0)%Z.
Proof.
  rewrite !Demo_localeCompare_le.
  intros [-> | Hab] [-> | Hbc]; auto.
  right. now apply (String_as_OT.lt_trans a b c).
Qed.

(** The end-to-end examples of the specification. *)
Example parseValidState_example :
  Store.parseValidState Demo.JSON_parse Demo.legacyBlob
  = Ok [("enableAlphabeticSorting", JBool false)].
Proof. reflexivity. Qed.

Example organize_example :
  Demo.organize Demo.exampleTabs
  = mkPass [ Move 1; Move 3; Move 2;
             AddNewGroup 0 "a.example" [1%Z; 3%Z] 1; Ungroup [2%Z] ] None.
Proof. reflexivity. Qed.

Example groupTitle_example :
  groupTitle "a.example" [1%Z; 3%Z] = "a.example (2)"
  /\ getColorForGroup Demo.Color 0 = Some "grey".
Proof. split; reflexivity. Qed.

(** C1 as the specification states it fails on a query result that holds a
    tab without a URL: nothing is sorted and nothing is moved. *)
Lemma organize_sort_counterexample :
  sortTabsAlphabetically Demo.hostname Demo.parseSharedDomain
    Demo.localeCompare (Demo.noUrlTab :: Demo.exampleTabs)
  = Throw (Error "No url for sorted tab")
  /\ Demo.organize (Demo.noUrlTab :: Demo.exampleTabs)
     = mkPass [] (Some (Error "No url for sorted tab")).
Proof. split; reflexivity. Qed.

Lemma organize_sorts_by_label_witness :
  (Forall (fun tab => hasUrl tab = true) Demo.exampleTabs
   /\ Forall (fun tab => truthyId (id tab) <> None) Demo.exampleTabs)
  /\ exists sortedTabs,
       sortTabsAlphabetically Demo.hostname Demo.parseSharedDomain
         Demo.localeCompare Demo.exampleTabs = Ok sortedTabs
       /\ SortedByLabel Demo.hostname Demo.parseSharedDomain
            Demo.localeCompare Demo.exampleTabs sortedTabs
       /\ (exists clustering,
             commands (Demo.organize Demo.exampleTabs)
             = map Move (tabIds sortedTabs) ++ clustering)
       /\ length (tabIds sortedTabs) = length Demo.exampleTabs.
Proof.
  assert (H : Forall (fun tab => hasUrl tab = true) Demo.exampleTabs)
    by (repeat constructor).
  assert (Hids : Forall (fun tab => truthyId (id tab) <> None)
                   Demo.exampleTabs)
    by (repeat constructor; discriminate).
  split; [now split |].
  destruct (proj1 (organize_sorts_by_label Demo.hostname
                     Demo.parseSharedDomain Demo.localeCompare true
                     Demo_localeCompare_total Demo_localeCompare_trans
                     Demo.exampleTabs) H)
    as (sortedTabs & Hsort & Hsorted & Hcommands & Hmoves).
  destruct (Hmoves Hids) as [Hmoved Hlen].
  exists sortedTabs. rewrite <- Hmoved.
  split; [exact Hsort | split; [exact Hsorted | split; [| exact Hlen]]].
  exact Hcommands.
Defined.

Lemma organize_group_cardinality_witness :
  In (Ungroup [2%Z]) (commands (Demo.organize Demo.exampleTabs))
  /\ exists idx,
       In (AddNewGroup idx "a.example" [1%Z; 3%Z] 1)
         (commands (Demo.organize Demo.exampleTabs)).
Proof.
  destruct (organize_group_cardinality Demo.hostname Demo.parseSharedDomain
              Demo.localeCompare true None Demo.exampleTabs) as [_ H].
  destruct (H [ Demo.tab 1 "https://a.example/x" 1;
                Demo.tab 3 "https://a.example/z" 1;
                Demo.tab 2 "https://b.example/y" 1 ]
              [ ("a.example", [(1%N, [1%Z; 3%Z])]);
                ("b.example", [(1%N, [2%Z])]) ]
              eq_refl eq_refl eq_refl eq_refl eq_refl) as (_ & Hbucket & _).
  split.
  - exact (proj2 (Hbucket "b.example" [(1%N, [2%Z])] 1%N [2%Z]
                    eq_refl eq_refl)).
  - exact (proj2 (Hbucket "a.example" [(1%N, [1%Z; 3%Z])] 1%N [1%Z; 3%Z]
                    eq_refl eq_refl)).
Defined.

(** C9 as the specification states it fails: a tab without a URL is not
    skipped, it makes the pass throw, and the other tabs are not clustered. *)
Lemma organize_missing_url_counterexample :
  Demo.organize (Demo.noUrlTab :: Demo.exampleTabs)
  = mkPass [] (Some (Error "No url for sorted tab"))
  /\ Demo.organize [Demo.noUrlTab] = mkPass [Move 7] (Some (Error "No tab url")).
Proof. split; reflexivity. Qed.

Lemma organize_missing_url_witness :
  (In Demo.noUrlTab [Demo.noUrlTab] /\ hasUrl Demo.noUrlTab = false)
  /\ Demo.organize [Demo.noUrlTab] = mkPass [Move 7] (Some (Error "No tab url")).
Proof.
  assert (H1 : In Demo.noUrlTab [Demo.noUrlTab]) by now left.
  assert (H2 : hasUrl Demo.noUrlTab = false) by reflexivity.
  split; [now split |].
  destruct (organize_missing_url Demo.hostname Demo.parseSharedDomain
              Demo.localeCompare true None [Demo.noUrlTab] Demo.noUrlTab H1 H2)
    as (_ & _ & Hsingle & _).
  exact (Hsingle eq_refl eq_refl eq_refl eq_refl 7%Z eq_refl).
Defined.

(** C2 on the code.  [Demo.twoGroups] and [Demo.twoGroupsAndOrphan] have
    the same real groups, a.example and b.example in window 1; the second
    adds one tab of a.example in window 2, an orphan.  The group of
    b.example gets index 1 (blue) in the first pass and index 0 (grey, the
    colour of the group of a.example) in the second.  With a.example alone
    in each of two windows, the group of b.example gets index -1, for which
    the palette has no colour. *)
Theorem orphan_shifts_group_colour :
  Demo.clustering (Demo.organize Demo.twoGroups)
  = [ AddNewGroup 0 "a.example" [1%Z; 2%Z] 1;
      AddNewGroup 1 "b.example" [4%Z; 5%Z] 1 ]
  /\ Demo.clustering (Demo.organize Demo.twoGroupsAndOrphan)
     = [ AddNewGroup 0 "a.example" [1%Z; 2%Z] 1; Ungroup [3%Z];
         AddNewGroup 0 "b.example" [4%Z; 5%Z] 1 ]
  /\ getColorForGroup Demo.Color 1 = Some "blue"
  /\ getColorForGroup Demo.Color 0 = Some "grey"
  /\ Demo.clustering (Demo.organize Demo.twoOrphansThenGroup)
     = [ Ungroup [1%Z]; Ungroup [2%Z];
         AddNewGroup (-1) "b.example" [4%Z; 5%Z] 1 ]
  /\ getColorForGroup Demo.Color (-1) = None.
Proof. repeat split; reflexivity. Qed.

Lemma onUpdated_same_domain_noop_witness :
  let changeInfo := mkChangeInfo (Some "loading") (Some "https://a.example/y") in
  let state := [("enableAutomaticSorting", JBool true)] in
  let groupByTabId : gmap Z string := {[ 1%Z := "a.example" ]} in
  (status changeInfo = Some "loading"
   /\ truthyUrl (changedUrl changeInfo) = Some "https://a.example/y"
   /\ groupByTabId !! 1%Z
      = Some (domainOf Demo.hostname Demo.parseSharedDomain
                "https://a.example/y"))
  /\ organizeCalls
       (onUpdated Demo.hostname Demo.parseSharedDomain None state
          groupByTabId 1 changeInfo) = 0
  /\ tracking
       (onUpdated Demo.hostname Demo.parseSharedDomain None state
          groupByTabId 1 changeInfo) = groupByTabId.
Proof.
  cbv zeta.
  assert (H3 : ({[ 1%Z := "a.example" ]} : gmap Z string) !! 1%Z
               = Some (domainOf Demo.hostname Demo.parseSharedDomain
                         "https://a.example/y"))
    by apply lookup_singleton_eq.
  split; [repeat split; exact H3 |].
  exact (onUpdated_same_domain_noop Demo.hostname Demo.parseSharedDomain None
           [("enableAutomaticSorting", JBool true)] {[ 1%Z := "a.example" ]}
           1 (mkChangeInfo (Some "loading") (Some "https://a.example/y"))
           "https://a.example/y" eq_refl eq_refl H3).
Defined.

(** C10 as the specification states it fails on an event delivered while
    a [lastError] is pending: the event has status 'loading' and a URL, the
    tab has no entry and the setting is enabled, and yet the listener
    records no label and starts no pass; it throws the [lastError]. *)
Lemma onUpdated_first_navigation_counterexample :
  let changeInfo := mkChangeInfo (Some "loading") (Some "https://a.example/y") in
  let state := [("enableAutomaticSorting", JBool true)] in
  let outcome :=
    onUpdated Demo.hostname Demo.parseSharedDomain (Some "pending") state ∅ 1
      changeInfo in
  (status changeInfo = Some "loading"
   /\ truthyUrl (changedUrl changeInfo) = Some "https://a.example/y"
   /\ (∅ : gmap Z string) !! 1%Z = None
   /\ isAutomaticSortingEnabled state = true)
  /\ tracking outcome !! 1%Z = None
  /\ organizeCalls outcome = 0
  /\ raised outcome = Some (LastError "pending").
Proof. cbv zeta. repeat split. Qed.

Lemma onUpdated_first_navigation_witness :
  let changeInfo := mkChangeInfo (Some "loading") (Some "https://a.example/y") in
  let state := [("enableAutomaticSorting", JBool true)] in
  (status changeInfo = Some "loading"
   /\ truthyUrl (changedUrl changeInfo) = Some "https://a.example/y"
   /\ (∅ : gmap Z string) !! 1%Z = None)
  /\ tracking
       (onUpdated Demo.hostname Demo.parseSharedDomain None state ∅ 1
          changeInfo)
     = <[ 1%Z := "a.example" ]> ∅
  /\ organizeCalls
       (onUpdated Demo.hostname Demo.parseSharedDomain None state ∅ 1
          changeInfo) = 1.
Proof.
  cbv zeta. split; [repeat split |].
  destruct (onUpdated_first_navigation Demo.hostname Demo.parseSharedDomain
              None [("enableAutomaticSorting", JBool true)] ∅ 1
              (mkChangeInfo (Some "loading") (Some "https://a.example/y"))
              "https://a.example/y" eq_refl eq_refl (lookup_empty 1%Z))
    as (Htrack & _ & Hcalls & _).
  split; [exact Htrack | exact Hcalls].
Defined.

(** ** Further properties of the organizer *)

Section Palette.
Variable Color : list string.

(** X1. For a palette that is not empty and an index that is not negative,
    [getColorForGroup] returns a colour of the palette, the one at the
    index modulo the size of the palette, so the colours repeat with that
    period. *)
Theorem getColorForGroup_cycles (index : Z) :
  Color <> [] -> (0 <= index)%Z ->
  exists color,
    getColorForGroup Color index = Some color
    /\ In color Color
    /\ nth_error Color (Z.to_nat (index mod Z.of_nat (length Color))) = Some color
    /\ getColorForGroup Color (index + Z.of_nat (length Color)) = Some color.
Proof.
  intros Hne Hidx. unfold getColorForGroup.
  destruct Color as [| c0 rest] eqn:HC; [congruence |]. rewrite <- HC.
  assert (Hn : (0 < Z.of_nat (length Color))%Z) by (rewrite HC; simpl; lia).
  set (n := Z.of_nat (length Color)) in *.
  assert (Hrem : Z.rem index n = (index mod n)%Z)
    by (apply Z.rem_mod_nonneg; lia).
  assert (Hrem' : Z.rem (index + n) n = (index mod n)%Z).
  { rewrite Z.rem_mod_nonneg by lia.
    rewrite <- (Z.mul_1_l n) at 1. now rewrite Z.mod_add by lia. }
  pose proof (Z.mod_pos_bound index n Hn) as Hbound.
  rewrite Hrem, Hrem'.
  destruct (Z.ltb_spec (index mod n) 0) as [Hneg | _]; [lia |].
  destruct (nth_error Color (Z.to_nat (index mod n))) as [color |] eqn:Hnth.
  - exists color. repeat split; try reflexivity.
    now apply nth_error_In in Hnth.
  - apply nth_error_None in Hnth. unfold n in *. lia.
Qed.

(** X2. [getColorForGroup] has no colour for an empty palette, and none
    for a negative index that is not a multiple of the size of the palette:
    the remainder of JavaScript is negative there. *)
Theorem getColorForGroup_undefined (index : Z) :
  Color = []
  \/ ((index < 0)%Z /\ Z.rem index (Z.of_nat (length Color)) <> 0%Z) ->
  getColorForGroup Color index = None.
Proof.
  unfold getColorForGroup. intros [-> | [Hneg Hrem]]; [reflexivity |].
  destruct Color as [| c0 rest]; [reflexivity |].
  set (n := Z.of_nat (length (c0 :: rest))) in *.
  assert (Hn : n <> 0%Z) by (unfold n; simpl; lia).
  assert (Hsign : (Z.rem index n <= 0)%Z) by (apply Z.rem_nonpos; lia).
  destruct (Z.ltb_spec (Z.rem index n) 0); [reflexivity | lia].
Qed.

End Palette.

Lemma getColorForGroup_cycles_witness :
  (Demo.Color <> [] /\ (0 <= 10)%Z)
  /\ exists color,
       getColorForGroup Demo.Color 10 = Some color
       /\ In color Demo.Color
       /\ nth_error Demo.Color
            (Z.to_nat (10 mod Z.of_nat (length Demo.Color))) = Some color
       /\ getColorForGroup Demo.Color (10 + Z.of_nat (length Demo.Color))
          = Some color.
Proof.
  assert (H1 : Demo.Color <> []) by discriminate.
  assert (H2 : (0 <= 10)%Z) by lia.
  split; [now split |].
  exact (getColorForGroup_cycles Demo.Color 10 H1 H2).
Defined.

Lemma getColorForGroup_undefined_witness :
  (Demo.Color = []
   \/ ((-1 < 0)%Z /\ Z.rem (-1) (Z.of_nat (length Demo.Color)) <> 0%Z))
  /\ getColorForGroup Demo.Color (-1) = None.
Proof.
  assert (H : Demo.Color = []
              \/ ((-1 < 0)%Z
                  /\ Z.rem (-1) (Z.of_nat (length Demo.Color)) <> 0%Z))
    by (right; split; [lia | discriminate]).
  split; [exact H |].
  exact (getColorForGroup_undefined Demo.Color (-1) H).
Defined.

Section Reorder.

(** X3. [reorderBrowserTabs] moves the tabs in the order of the list.  When
    every tab has an id it moves them all and does not throw; when a tab has
    none (a missing id, or the id 0) it has moved the tabs before that one,
    throws 'No id for sorted tab' and moves none of the tabs after it. *)
Theorem reorderBrowserTabs_stops_at_missing_id (tabs : list Tab) :
  (Forall (fun tab => truthyId (id tab) <> None) tabs ->
   reorderBrowserTabs tabs = (map Move (tabIds tabs), None)
   /\ length (tabIds tabs) = length tabs)
  /\ forall before bad after,
       tabs = before ++ bad :: after ->
       Forall (fun tab => truthyId (id tab) <> None) before ->
       truthyId (id bad) = None ->
       reorderBrowserTabs tabs
       = (map Move (tabIds before), Some (Error "No id for sorted tab")).
Proof.
  split.
  - induction 1 as [| tab rest Htab _ [IH IHlen]]; [now split |].
    simpl. unfold tabIds in *. simpl.
    destruct (truthyId (id tab)) as [i |]; [| congruence].
    rewrite IH. simpl. split; [reflexivity | now rewrite IHlen].
  - intros before bad after -> Hbefore Hbad.
    induction Hbefore as [| tab rest Htab _ IH]; simpl.
    + now rewrite Hbad.
    + unfold tabIds in *. simpl.
      destruct (truthyId (id tab)) as [i |]; [| congruence].
      now rewrite IH.
Qed.

End Reorder.

Lemma reorderBrowserTabs_stops_at_missing_id_witness :
  let tabs := [ Demo.tab 1 "https://a.example/x" 1;
                mkTab (Some 0%Z) (Some "https://b.example/") 1 false;
                Demo.tab 3 "https://a.example/z" 1 ] in
  reorderBrowserTabs tabs = ([Move 1], Some (Error "No id for sorted tab")).
Proof.
  cbv zeta.
  assert (Hbefore : Forall (fun tab => truthyId (id tab) <> None)
                      [Demo.tab 1 "https://a.example/x" 1])
    by (repeat constructor; discriminate).
  exact (proj2 (reorderBrowserTabs_stops_at_missing_id _)
           [Demo.tab 1 "https://a.example/x" 1]
           (mkTab (Some 0%Z) (Some "https://b.example/") 1 false)
           [Demo.tab 3 "https://a.example/z" 1]
           eq_refl Hbefore eq_refl).
Defined.

Section Comparator.
Variable localeCompare : string -> string -> Z.
Hypothesis localeCompare_antisym :
  forall a b, Z.sgn (localeCompare a b) = (- Z.sgn (localeCompare b a))%Z.

(** X4. [domainCompare] is a comparator [Array.prototype.sort] can use
    whenever [localeCompare] is antisymmetric: swapping its arguments flips
    the sign of the result, a label compares as equal to itself, and "new"
    compares as greater than every other label whatever [localeCompare]
    says of the two. *)
Theorem domainCompare_antisymmetric (a b : string) :
  Z.sgn (domainCompare localeCompare a b)
  = (- Z.sgn (domainCompare localeCompare b a))%Z
  /\ domainCompare localeCompare a a = 0%Z
  /\ (a <> "new" ->
      domainCompare localeCompare a "new" = (-1)%Z
      /\ domainCompare localeCompare "new" a = 1%Z).
Proof.
  unfold domainCompare. rewrite String.eqb_refl.
  split; [| split; [reflexivity |]].
  - rewrite (String.eqb_sym b a).
    destruct (String.eqb_spec a b) as [-> | Hab]; [reflexivity |].
    destruct (String.eqb_spec a "new") as [-> | Ha],
             (String.eqb_spec b "new") as [-> | Hb];
      try reflexivity; [congruence | apply localeCompare_antisym].
  - intros Ha. rewrite (String.eqb_sym "new" a).
    destruct (String.eqb_spec a "new") as [-> | _]; [congruence |].
    now rewrite String.eqb_refl.
Qed.

End Comparator.

Lemma Demo_localeCompare_antisym a b :
  Z.sgn (Demo.localeCompare a b) = (- Z.sgn (Demo.localeCompare b a))%Z.
Proof.
  unfold Demo.localeCompare.
  pose proof (String_as_OT.cmp_antisym b a) as H.
  unfold String_as_OT.cmp in H. rewrite H.
  destruct (String.compare a b); reflexivity.
Qed.

Lemma domainCompare_antisymmetric_witness :
  Z.sgn (domainCompare Demo.localeCompare "zed.example" "new")
  = (- Z.sgn (domainCompare Demo.localeCompare "new" "zed.example"))%Z
  /\ domainCompare Demo.localeCompare "zed.example" "zed.example" = 0%Z
  /\ ("zed.example" <> "new" ->
      domainCompare Demo.localeCompare "zed.example" "new" = (-1)%Z
      /\ domainCompare Demo.localeCompare "new" "zed.example" = 1%Z).
Proof.
  exact (domainCompare_antisymmetric Demo.localeCompare
           Demo_localeCompare_antisym "zed.example" "new").
Defined.

(** *** Buckets *)

Lemma win_lookup_set (byWindow : ByWindow) w tabIds w' :
  win_lookup (win_set byWindow w tabIds) w'
  = if (w =? w')%N then Some tabIds else win_lookup byWindow w'.
Proof.
  induction byWindow as [| [k old] rest IH]; simpl.
  - reflexivity.
  - destruct (N.eqb_spec k w) as [-> | Hkw]; simpl.
    + destruct (N.eqb_spec w w'); reflexivity.
    + destruct (N.ltb_spec w k) as [Hlt | Hge]; simpl.
      * destruct (N.eqb_spec w w'); reflexivity.
      * rewrite IH. destruct (N.eqb_spec k w') as [-> | Hkw'];
          [| reflexivity].
        destruct (N.eqb_spec w w'); congruence.
Qed.

Lemma win_set_keys (byWindow : ByWindow) w tabIds k :
  In k (map fst (win_set byWindow w tabIds))
  <-> k = w \/ In k (map fst byWindow).
Proof.
  induction byWindow as [| [k0 old] rest IH]; simpl.
  - intuition.
  - destruct (N.eqb_spec k0 w) as [-> | Hne]; simpl; [intuition |].
    destruct (w <? k0)%N; simpl; [intuition |].
    rewrite IH. intuition.
Qed.

Lemma win_set_ascending (byWindow : ByWindow) w tabIds :
  StronglySorted N.lt (map fst byWindow) ->
  StronglySorted N.lt (map fst (win_set byWindow w tabIds)).
Proof.
  induction byWindow as [| [k old] rest IH]; simpl; intros Hs.
  - repeat constructor.
  - apply StronglySorted_inv in Hs as [Hrest Hk].
    destruct (N.eqb_spec k w) as [-> | Hne]; simpl.
    + now constructor.
    + destruct (N.ltb_spec w k) as [Hlt | Hge]; simpl.
      * constructor; [now constructor |].
        constructor; [exact Hlt |].
        eapply List.Forall_impl; [| exact Hk]. intros x Hx. lia.
      * constructor; [now apply IH |].
        apply List.Forall_forall. intros x Hx.
        apply win_set_keys in Hx as [-> | Hx]; [lia |].
        rewrite List.Forall_forall in Hk. now apply Hk.
Qed.

Section Buckets.
Variable hostname : string -> string.
Variable parseSharedDomain : string -> string.

#[local] Abbreviation labelOf := (labelOf hostname parseSharedDomain).
#[local] Abbreviation addTabId := (addTabId hostname parseSharedDomain).
#[local] Abbreviation collectTabIds :=
  (collectTabIds hostname parseSharedDomain).
#[local] Abbreviation sortTabIdsByDomain :=
  (sortTabIdsByDomain hostname parseSharedDomain).
#[local] Abbreviation inBucket := (inBucket hostname parseSharedDomain).

Lemma addTabId_accepted t tab :
  accepted tab -> exists t', addTabId t tab = Ok t'.
Proof.
  unfold accepted, hasUrl, SiteOrganizer.addTabId. intros [Hid Hurl].
  destruct (truthyId (id tab)) as [i |]; [| congruence].
  destruct (truthyUrl (url tab)) as [u |]; [| discriminate].
  destruct (obj_lookup t _) as [byWindow |]; [| eexists; reflexivity].
  destruct (win_lookup byWindow _); eexists; reflexivity.
Qed.

Lemma addTabId_Ok t tab t' :
  addTabId t tab = Ok t' -> accepted tab.
Proof.
  unfold accepted, hasUrl, SiteOrganizer.addTabId.
  destruct (truthyId (id tab)) as [i |]; [| discriminate].
  destruct (truthyUrl (url tab)) as [u |]; [| discriminate].
  intros _. split; [discriminate | reflexivity].
Qed.

Lemma addTabId_bucket t tab t' domain w :
  addTabId t tab = Ok t' ->
  bucketOf t' domain w
  = bucketOf t domain w ++ tabIds (List.filter (inBucket domain w) [tab]).
Proof.
  unfold SiteOrganizer.addTabId, SiteOrganizer.inBucket,
    SiteOrganizer.labelOf, tabIds.
  simpl.
  destruct (truthyId (id tab)) as [i |] eqn:Hid; [| discriminate].
  destruct (truthyUrl (url tab)) as [u |]; [| discriminate].
  set (label := domainOf hostname parseSharedDomain u).
  assert (Hset : forall byWindow,
    bucketOf (obj_set t label byWindow) domain w
    = if String.eqb label domain then default [] (win_lookup byWindow w)
      else bucketOf t domain w).
  { intros byWindow. unfold bucketOf. rewrite obj_lookup_set.
    now destruct (String.eqb label domain). }
  destruct (obj_lookup t label) as [byWindow |] eqn:Hlook.
  - assert (Hold : String.eqb label domain = true ->
                   bucketOf t domain w = default [] (win_lookup byWindow w)).
    { intros H. apply String.eqb_eq in H. subst domain.
      unfold bucketOf. now rewrite Hlook. }
    destruct (win_lookup byWindow (windowId tab)) as [ids |] eqn:Hwin;
      intros [= <-]; rewrite Hset, win_lookup_set;
      destruct (String.eqb label domain) eqn:Hd; simpl;
      try (now rewrite app_nil_r);
      rewrite (Hold eq_refl);
      destruct (N.eqb_spec (windowId tab) w) as [<- | Hw]; simpl;
      rewrite ?Hid, ?Hwin, ?app_nil_r; reflexivity.
  - assert (Hold : String.eqb label domain = true -> bucketOf t domain w = []).
    { intros H. apply String.eqb_eq in H. subst domain.
      unfold bucketOf. now rewrite Hlook. }
    intros [= <-]. rewrite Hset.
    destruct (String.eqb label domain) eqn:Hd; simpl;
      [| now rewrite app_nil_r].
    rewrite (Hold eq_refl).
    destruct (N.eqb_spec (windowId tab) w) as [<- | Hw]; simpl;
      rewrite ?Hid; reflexivity.
Qed.

Lemma tabIds_app l1 l2 : tabIds (l1 ++ l2) = tabIds l1 ++ tabIds l2.
Proof. unfold tabIds. apply flat_map_app. Qed.

Lemma collectTabIds_bucket tabs t t' domain w :
  collectTabIds t tabs = Ok t' ->
  bucketOf t' domain w
  = bucketOf t domain w ++ tabIds (List.filter (inBucket domain w) tabs).
Proof.
  revert t. induction tabs as [| tab rest IH]; intros t; simpl.
  - intros [= <-]. now rewrite app_nil_r.
  - destruct (addTabId t tab) as [next | e] eqn:Hadd; simpl; [| discriminate].
    intros Hrest. rewrite (IH _ Hrest).
    rewrite (addTabId_bucket _ _ _ domain w Hadd). simpl.
    rewrite <- app_assoc. f_equal.
    destruct (inBucket domain w tab); [| reflexivity].
    change (tab :: List.filter (inBucket domain w) rest)
      with ([tab] ++ List.filter (inBucket domain w) rest).
    now rewrite tabIds_app.
Qed.

(** X5. When [sortTabIdsByDomain] returns, the bucket of a domain label and
    a window holds the ids of exactly the tabs of that label in that
    window, in the order of the list it was given; a label or a window no
    tab has gives an empty bucket. *)
Theorem sortTabIdsByDomain_buckets (tabs : list Tab) (t : TabIdsByDomain) :
  sortTabIdsByDomain tabs = Ok t ->
  forall domain w,
    bucketOf t domain w = tabIds (List.filter (inBucket domain w) tabs).
Proof.
  intros H domain w.
  now rewrite (collectTabIds_bucket tabs [] t domain w H).
Qed.

(** X6. [sortTabIdsByDomain] returns buckets exactly when every tab has an
    id and a URL.  Otherwise it throws for the first tab that lacks one,
    'No id for tab' when the id is missing (or 0), 'No tab url' when the id
    is there and the URL is missing (or empty), and returns no buckets. *)
Theorem sortTabIdsByDomain_errors (tabs : list Tab) :
  (Forall accepted tabs -> exists t, sortTabIdsByDomain tabs = Ok t)
  /\ (forall t, sortTabIdsByDomain tabs = Ok t -> Forall accepted tabs)
  /\ forall before bad after,
       tabs = before ++ bad :: after ->
       Forall accepted before -> ~ accepted bad ->
       sortTabIdsByDomain tabs
       = Throw (match truthyId (id bad) with
                | None => Error "No id for tab"
                | Some _ => Error "No tab url"
                end).
Proof.
  unfold SiteOrganizer.sortTabIdsByDomain.
  assert (Hok : forall l t, Forall accepted l -> exists t',
                  collectTabIds t l = Ok t').
  { induction l as [| tab rest IH]; intros t Hall; [eexists; reflexivity |].
    apply Forall_cons in Hall as [Htab Hrest]. simpl.
    destruct (addTabId_accepted t tab Htab) as [next ->]. simpl.
    apply IH, Hrest. }
  split; [apply Hok | split].
  - generalize (@nil (string * ByWindow)) as acc.
    induction tabs as [| tab rest IH]; intros acc t; [constructor |].
    simpl. destruct (addTabId acc tab) as [next | e] eqn:Hadd; simpl;
      [| discriminate].
    intros Hrest. constructor; [now apply (addTabId_Ok acc tab next) |].
    now apply (IH next t).
  - intros before bad after -> Hbefore Hbad.
    generalize (@nil (string * ByWindow)) as acc.
    induction Hbefore as [| tab rest Htab _ IH]; intros acc; simpl.
    + unfold SiteOrganizer.addTabId. unfold accepted, hasUrl in Hbad.
      destruct (truthyId (id bad)) as [i |]; [| reflexivity].
      destruct (truthyUrl (url bad)) as [u |]; [| reflexivity].
      exfalso. apply Hbad. split; [discriminate | reflexivity].
    + destruct (addTabId_accepted acc tab Htab) as [next ->]. simpl.
      apply IH.
Qed.

Lemma obj_set_entries {V} (P : V -> Prop) (o : list (string * V)) key v :
  Forall (fun entry => P (snd entry)) o -> P v ->
  Forall (fun entry => P (snd entry)) (obj_set o key v).
Proof.
  intros Ho Hv. induction Ho as [| [k w] rest Hk Hrest IH]; simpl.
  - now repeat constructor.
  - destruct (String.eqb k key); constructor; assumption.
Qed.

Lemma addTabId_keysInOrder t tab t' :
  keysInOrder t -> addTabId t tab = Ok t' -> keysInOrder t'.
Proof.
  unfold keysInOrder, SiteOrganizer.addTabId. intros [Hnd Hsorted].
  destruct (truthyId (id tab)) as [i |]; [| discriminate].
  destruct (truthyUrl (url tab)) as [u |]; [| discriminate].
  set (label := domainOf hostname parseSharedDomain u).
  destruct (obj_lookup t label) as [byWindow |] eqn:Hlook.
  - assert (Hby : StronglySorted N.lt (map fst byWindow)).
    { apply obj_lookup_key in Hlook as [_ Hin].
      rewrite List.Forall_forall in Hsorted. exact (Hsorted _ Hin). }
    destruct (win_lookup byWindow (windowId tab)); intros [= <-];
      (split;
       [ now apply obj_set_NoDup
       | apply (obj_set_entries
                  (fun byW : ByWindow => StronglySorted N.lt (map fst byW)));
         [exact Hsorted | now apply win_set_ascending] ]).
  - intros [= <-]. split; [now apply obj_set_NoDup |].
    apply (obj_set_entries
             (fun byW : ByWindow => StronglySorted N.lt (map fst byW)));
      [exact Hsorted | repeat constructor].
Qed.

(** X7. The buckets [sortTabIdsByDomain] returns have each domain label
    once, the window ids of each label once and in ascending order, which
    is the order [Object.keys] lists integer keys in, and a label is a key
    exactly when some tab has it. *)
Theorem sortTabIdsByDomain_keys (tabs : list Tab) (t : TabIdsByDomain) :
  sortTabIdsByDomain tabs = Ok t ->
  NoDup (obj_keys t)
  /\ Forall (fun entry => StronglySorted N.lt (map fst (snd entry))) t
  /\ forall domain,
       In domain (obj_keys t)
       <-> Exists (fun tab => labelOf tab = domain) tabs.
Proof.
  unfold SiteOrganizer.sortTabIdsByDomain. intros H.
  assert (Hgen : forall l acc t',
    keysInOrder acc -> collectTabIds acc l = Ok t' ->
    keysInOrder t'
    /\ forall domain,
         In domain (obj_keys t')
         <-> In domain (obj_keys acc)
             \/ Exists (fun tab => labelOf tab = domain) l).
  { induction l as [| tab rest IH]; intros acc t' Hacc; simpl.
    - intros [= <-]. split; [exact Hacc |]. intros domain.
      rewrite Exists_nil. tauto.
    - destruct (addTabId acc tab) as [next | e] eqn:Hadd; simpl;
        [| discriminate].
      intros Hrest.
      destruct (IH next t' (addTabId_keysInOrder _ _ _ Hacc Hadd) Hrest)
        as [Hk Hdom].
      split; [exact Hk |]. intros domain. rewrite Hdom, Exists_cons.
      assert (Hnext : In domain (obj_keys next)
                      <-> In domain (obj_keys acc) \/ labelOf tab = domain).
      { revert Hadd. unfold SiteOrganizer.addTabId, SiteOrganizer.labelOf.
        destruct (truthyId (id tab)) as [i |]; [| discriminate].
        destruct (truthyUrl (url tab)) as [u |]; [| discriminate].
        destruct (obj_lookup acc _) as [byWindow |];
          [destruct (win_lookup byWindow _) |];
          intros [= <-]; rewrite obj_keys_set_incl;
          intuition congruence. }
      rewrite Hnext. tauto. }
  destruct (Hgen tabs [] t) as [[Hnd Hsorted] Hdom];
    [split; constructor | exact H |].
  split; [exact Hnd | split; [exact Hsorted |]].
  intros domain. rewrite Hdom. simpl. tauto.
Qed.

End Buckets.

Lemma sortTabIdsByDomain_buckets_witness :
  sortTabIdsByDomain Demo.hostname Demo.parseSharedDomain Demo.exampleTabs
  = Ok [ ("a.example", [(1%N, [1%Z; 3%Z])]);
         ("b.example", [(1%N, [2%Z])]) ]
  /\ bucketOf [ ("a.example", [(1%N, [1%Z; 3%Z])]);
                ("b.example", [(1%N, [2%Z])]) ] "a.example" 1
     = tabIds (List.filter
                 (inBucket Demo.hostname Demo.parseSharedDomain "a.example" 1)
                 Demo.exampleTabs).
Proof.
  split; [reflexivity |].
  exact (sortTabIdsByDomain_buckets Demo.hostname Demo.parseSharedDomain
           Demo.exampleTabs _ eq_refl "a.example" 1%N).
Defined.

Lemma sortTabIdsByDomain_errors_witness :
  sortTabIdsByDomain Demo.hostname Demo.parseSharedDomain
    (Demo.exampleTabs ++ [Demo.noUrlTab])
  = Throw (Error "No tab url").
Proof.
  assert (Hbefore : Forall (accepted) Demo.exampleTabs)
    by (repeat constructor; discriminate).
  assert (Hbad : ~ accepted Demo.noUrlTab)
    by (intros [_ H]; discriminate H).
  exact (proj2 (proj2 (sortTabIdsByDomain_errors Demo.hostname
                          Demo.parseSharedDomain
                          (Demo.exampleTabs ++ [Demo.noUrlTab])))
           Demo.exampleTabs Demo.noUrlTab [] eq_refl Hbefore Hbad).
Defined.

Lemma sortTabIdsByDomain_keys_witness :
  exists t,
    sortTabIdsByDomain Demo.hostname Demo.parseSharedDomain
      Demo.twoGroupsAndOrphan = Ok t
    /\ NoDup (obj_keys t)
    /\ Forall (fun entry => StronglySorted N.lt (map fst (snd entry))) t.
Proof.
  eexists. split; [reflexivity |].
  destruct (sortTabIdsByDomain_keys Demo.hostname Demo.parseSharedDomain
              Demo.twoGroupsAndOrphan _ eq_refl) as (H1 & H2 & _).
  split; [exact H1 | exact H2].
Defined.

(** *** What a pass does to which tab *)

Lemma sort_insert_Permutation {A} (compareFn : A -> A -> result Z) x l r :
  sort_insert compareFn x l = Ok r -> Permutation (x :: l) r.
Proof.
  revert r. induction l as [| y rest IH]; simpl; intros r.
  - now intros [= <-].
  - destruct (compareFn x y) as [c | e]; simpl; [| discriminate].
    destruct (c <=? 0)%Z; [now intros [= <-] |].
    destruct (sort_insert compareFn x rest) as [r' | e]; simpl;
      [| discriminate].
    intros [= <-]. rewrite perm_swap. apply perm_skip. now apply IH.
Qed.

(** Whatever the comparator answers, a sort that returns has kept the
    elements. *)
Lemma Array_sort_Permutation {A} (compareFn : A -> A -> result Z) l r :
  Array_sort compareFn l = Ok r -> Permutation l r.
Proof.
  revert r. induction l as [| x rest IH]; simpl; intros r.
  - now intros [= <-].
  - destruct (Array_sort compareFn rest) as [s | e]; simpl; [| discriminate].
    intros H. apply sort_insert_Permutation in H.
    rewrite <- H. apply perm_skip. now apply IH.
Qed.

Lemma tabIds_In (tabs : list Tab) i :
  In i (tabIds tabs)
  <-> exists tab, In tab tabs /\ truthyId (id tab) = Some i.
Proof.
  unfold tabIds. rewrite in_flat_map. split.
  - intros (tab & Hin & Hi). exists tab. split; [exact Hin |].
    destruct (truthyId (id tab)) as [j |]; [| destruct Hi].
    destruct Hi as [-> | []]. reflexivity.
  - intros (tab & Hin & Hi). exists tab. split; [exact Hin |].
    rewrite Hi. now left.
Qed.

Lemma reorderBrowserTabs_complete (tabs : list Tab) :
  snd (reorderBrowserTabs tabs) = None ->
  reorderBrowserTabs tabs = (map Move (tabIds tabs), None)
  /\ length (tabIds tabs) = length tabs.
Proof.
  induction tabs as [| tab rest IH]; simpl; [now split |].
  unfold tabIds in *. simpl.
  destruct (truthyId (id tab)) as [i |]; [| discriminate].
  destruct (reorderBrowserTabs rest) as [moves e]. simpl in *.
  intros ->. destruct (IH eq_refl) as [[= ->] Hlen].
  split; [reflexivity | now rewrite Hlen].
Qed.

Section Passes.
Variable hostname : string -> string.
Variable parseSharedDomain : string -> string.
Variable localeCompare : string -> string -> Z.
Variable isTabGroupingSupported : bool.

#[local] Abbreviation labelOf := (labelOf hostname parseSharedDomain).
#[local] Abbreviation organize :=
  (organize hostname parseSharedDomain localeCompare isTabGroupingSupported).

Lemma renderBrowserTabGroups_buckets (t : TabIdsByDomain) c :
  In c (renderBrowserTabGroups t) ->
  exists name w,
    (c = Ungroup (bucketOf t name w))
    \/ exists idx, c = AddNewGroup idx name (bucketOf t name w) w.
Proof.
  intros H.
  apply (renderNames_issued hostname parseSharedDomain localeCompare) in H
    as (name & w & _ & _ & H).
  cbv zeta in H. exists name, w.
  assert (Hb : default [] (win_lookup (default [] (obj_lookup t name)) w)
               = bucketOf t name w).
  { unfold bucketOf. now destruct (obj_lookup t name). }
  rewrite Hb in H. destruct H as [[-> _] | [[idx ->] _]];
    [now left | right; now exists idx].
Qed.

Lemma collectTabIds_accepted (tabs : list Tab) acc t :
  collectTabIds hostname parseSharedDomain acc tabs = Ok t ->
  Forall accepted tabs.
Proof.
  revert acc. induction tabs as [| tab rest IH]; intros acc; [constructor |].
  simpl.
  destruct (addTabId hostname parseSharedDomain acc tab) as [next | e] eqn:Hadd;
    simpl; [| discriminate].
  intros Hrest. constructor;
    [now apply (addTabId_Ok hostname parseSharedDomain acc tab next) |].
  now apply (IH next).
Qed.

(** The commands of a pass, by the step that stopped it. *)
Lemma organize_commands (lastError : option string) (tabs : list Tab) c :
  In c (commands (organize lastError tabs)) ->
  isMove c
  \/ exists sortedTabs t,
       Permutation tabs sortedTabs
       /\ sortTabIdsByDomain hostname parseSharedDomain
            (filterNonPinnedTabs sortedTabs) = Ok t
       /\ In c (renderBrowserTabGroups t).
Proof.
  unfold SiteOrganizer.organize.
  destruct lastError as [e |]; [intros [] |].
  destruct (sortTabsAlphabetically _ _ _ tabs) as [sortedTabs | e] eqn:Hsort;
    [| intros []].
  apply Array_sort_Permutation in Hsort.
  pose proof (reorderBrowserTabs_moves sortedTabs) as Hmoves.
  rewrite List.Forall_forall in Hmoves.
  destruct (reorderBrowserTabs sortedTabs) as [moves [e |]]; simpl in *;
    [intros H; left; now apply Hmoves |].
  destruct isTabGroupingSupported; simpl;
    [| intros H; left; now apply Hmoves].
  destruct (sortTabIdsByDomain _ _ (filterNonPinnedTabs sortedTabs))
    as [t | e] eqn:Hbuckets; simpl; [| intros H; left; now apply Hmoves].
  rewrite in_app_iff. intros [H | H]; [left; now apply Hmoves | right].
  now exists sortedTabs, t.
Qed.

(** X8. Every tab id a pass hands to [tabs.group] or [tabs.ungroup] is the
    id of a tab of the query that is not pinned and has a URL; for a group,
    the tab has the domain label of the group and is in the window the
    group is created in.  A pinned tab is never grouped nor ungrouped. *)
Theorem organize_clusters_only_unpinned (lastError : option string)
    (tabs : list Tab) (c : Command) (i : Z) :
  In c (commands (organize lastError tabs)) ->
  In i (clusteredIds c) ->
  exists tab,
    In tab tabs
    /\ truthyId (id tab) = Some i
    /\ pinned tab = false
    /\ hasUrl tab = true
    /\ match c with
       | AddNewGroup _ name _ w => labelOf tab = name /\ windowId tab = w
       | _ => True
       end.
Proof.
  intros Hc Hi. apply organize_commands in Hc as [[j ->] | Hc];
    [destruct Hi |].
  destruct Hc as (sortedTabs & t & Hperm & Hbuckets & Hc).
  apply renderBrowserTabGroups_buckets in Hc as (name & w & Hc).
  pose proof (collectTabIds_bucket hostname parseSharedDomain _ [] t name w
                Hbuckets) as Hbucket.
  simpl in Hbucket.
  assert (Hids : In i (bucketOf t name w))
    by (destruct Hc as [-> | [idx ->]]; exact Hi).
  rewrite Hbucket in Hids. apply tabIds_In in Hids as (tab & Hin & Hid).
  apply filter_In in Hin as [Hin Hbucketed].
  pose proof (collectTabIds_accepted _ _ _ Hbuckets) as Hacc.
  rewrite List.Forall_forall in Hacc. destruct (Hacc _ Hin) as [_ Hurl].
  apply filter_In in Hin as [Hin Hpinned].
  exists tab. split.
  { apply list_elem_of_In. rewrite Hperm. now apply list_elem_of_In. }
  split; [exact Hid |]. split; [now destruct (pinned tab) |].
  split; [exact Hurl |].
  destruct Hc as [-> | [idx ->]]; [exact I |].
  unfold inBucket in Hbucketed. apply andb_true_iff in Hbucketed as [Hl Hw].
  apply String.eqb_eq in Hl. apply N.eqb_eq in Hw. now split.
Qed.

End Passes.

Lemma forallb_false_Exists {A} (f : A -> bool) (l : list A) :
  forallb f l = false -> Exists (fun x => f x = false) l.
Proof.
  induction l as [| x rest IH]; simpl; [discriminate |].
  destruct (f x) eqn:Hx; simpl; [| intros _; now left].
  intros H. right. now apply IH.
Qed.

Section OrderedPass.
Variable hostname : string -> string.
Variable parseSharedDomain : string -> string.
Variable localeCompare : string -> string -> Z.
Variable isTabGroupingSupported : bool.
Hypothesis localeCompare_total :
  forall a b, (localeCompare a b <= 0)%Z \/ (localeCompare b a <= 0)%Z.
Hypothesis localeCompare_trans :
  forall a b c, (localeCompare a b <= 0)%Z -> (localeCompare b c <= 0)%Z ->
                (localeCompare a c <= 0)%Z.

#[local] Abbreviation compareLabels :=
  (compareLabels hostname parseSharedDomain localeCompare).
#[local] Abbreviation sortTabsAlphabetically :=
  (sortTabsAlphabetically hostname parseSharedDomain localeCompare).
#[local] Abbreviation organize :=
  (organize hostname parseSharedDomain localeCompare isTabGroupingSupported).

(** Whenever the sort returns, what it returns is sorted: a lone tab
    without a URL is never compared, and stays where it is. *)
Lemma sortTabsAlphabetically_sorted (tabs sortedTabs : list Tab) :
  sortTabsAlphabetically tabs = Ok sortedTabs ->
  SortedByLabel hostname parseSharedDomain localeCompare tabs sortedTabs.
Proof.
  intros Hsort. destruct (forallb hasUrl tabs) eqn:Hall.
  - rewrite forallb_forall in Hall.
    assert (Hpure :
      sortTabsAlphabetically tabs = Ok (sortBy compareLabels tabs)).
    { apply Array_sort_pure. intros a b Ha Hb.
      apply compareTabs_pure; now apply Hall. }
    rewrite Hpure in Hsort. injection Hsort as <-.
    now apply sortBy_SortedByLabel.
  - apply forallb_false_Exists in Hall.
    destruct tabs as [| a [| b rest]].
    + inversion Hall.
    + injection Hsort as <-.
      split; [reflexivity | split; [repeat constructor | reflexivity]].
    + rewrite sortTabsAlphabetically_missing_url in Hsort;
        [discriminate | exact Hall | simpl; lia].
Qed.

(** X9. A pass that does not throw has moved every tab of the query once,
    in the order of the sequence the sort returned, which holds the tabs of
    the query ascending by label, "new" last, the tabs of one label in the
    order of the query; the moves come before any group or ungroup call,
    and when the browser lacks the grouping API the pass issues the moves
    and nothing else. *)
Theorem organize_moves_each_tab_once (lastError : option string)
    (tabs : list Tab) :
  thrown (organize lastError tabs) = None ->
  exists sortedTabs clustering,
    sortTabsAlphabetically tabs = Ok sortedTabs
    /\ SortedByLabel hostname parseSharedDomain localeCompare tabs sortedTabs
    /\ commands (organize lastError tabs)
       = map Move (tabIds sortedTabs) ++ clustering
    /\ length (tabIds sortedTabs) = length tabs
    /\ Forall (fun c => ~ isMove c) clustering
    /\ (isTabGroupingSupported = false -> clustering = []).
Proof.
  unfold SiteOrganizer.organize.
  destruct lastError as [e |]; [discriminate |].
  destruct (sortTabsAlphabetically tabs) as [sortedTabs | e] eqn:Hsort;
    [| discriminate].
  pose proof (sortTabsAlphabetically_sorted tabs sortedTabs Hsort) as Hsorted.
  pose proof (Array_sort_Permutation _ _ _ Hsort) as Hperm.
  pose proof (reorderBrowserTabs_complete sortedTabs) as Hmoves.
  destruct (reorderBrowserTabs sortedTabs) as [moves [e |]]; simpl in *;
    [discriminate |].
  destruct (Hmoves eq_refl) as [[= ->] Hlen].
  assert (Hlen' : length (tabIds sortedTabs) = length tabs)
    by (rewrite Hlen; symmetry; now apply Permutation_length).
  destruct isTabGroupingSupported; simpl.
  - destruct (sortTabIdsByDomain _ _ (filterNonPinnedTabs sortedTabs))
      as [t | e]; simpl; [| discriminate].
    intros _. exists sortedTabs, (renderBrowserTabGroups t).
    split; [reflexivity |]. split; [exact Hsorted |].
    split; [reflexivity |]. split; [exact Hlen' |].
    split; [| discriminate].
    apply List.Forall_forall. intros c Hc [j ->].
    apply (renderBrowserTabGroups_buckets hostname parseSharedDomain
             localeCompare)
      in Hc as (name & w & [H | [idx H]]);
      discriminate H.
  - intros _. exists sortedTabs, []. rewrite app_nil_r.
    split; [reflexivity |]. split; [exact Hsorted |].
    split; [reflexivity |]. split; [exact Hlen' |].
    split; [constructor | reflexivity].
Qed.

End OrderedPass.

Lemma organize_clusters_only_unpinned_witness :
  (In (AddNewGroup 0 "a.example" [1%Z; 3%Z] 1)
     (commands (Demo.organize Demo.exampleTabs))
   /\ In 3%Z (clusteredIds (AddNewGroup 0 "a.example" [1%Z; 3%Z] 1)))
  /\ exists tab,
       In tab Demo.exampleTabs
       /\ truthyId (id tab) = Some 3%Z
       /\ pinned tab = false
       /\ hasUrl tab = true
       /\ labelOf Demo.hostname Demo.parseSharedDomain tab = "a.example"
          /\ windowId tab = 1%N.
Proof.
  assert (H1 : In (AddNewGroup 0 "a.example" [1%Z; 3%Z] 1)
                 (commands (Demo.organize Demo.exampleTabs)))
    by (do 3 right; left; reflexivity).
  assert (H2 : In 3%Z (clusteredIds (AddNewGroup 0 "a.example" [1%Z; 3%Z] 1)))
    by (right; left; reflexivity).
  split; [now split |].
  exact (organize_clusters_only_unpinned Demo.hostname Demo.parseSharedDomain
           Demo.localeCompare true None Demo.exampleTabs _ 3%Z H1 H2).
Defined.

Lemma organize_moves_each_tab_once_witness :
  thrown (Demo.organize Demo.exampleTabs) = None
  /\ exists sortedTabs clustering,
       sortTabsAlphabetically Demo.hostname Demo.parseSharedDomain
         Demo.localeCompare Demo.exampleTabs = Ok sortedTabs
       /\ SortedByLabel Demo.hostname Demo.parseSharedDomain
            Demo.localeCompare Demo.exampleTabs sortedTabs
       /\ commands (Demo.organize Demo.exampleTabs)
          = map Move (tabIds sortedTabs) ++ clustering
       /\ length (tabIds sortedTabs) = length Demo.exampleTabs
       /\ Forall (fun c => ~ isMove c) clustering
       /\ (true = false -> clustering = []).
Proof.
  split; [reflexivity |].
  exact (organize_moves_each_tab_once Demo.hostname Demo.parseSharedDomain
           Demo.localeCompare true Demo_localeCompare_total
           Demo_localeCompare_trans None Demo.exampleTabs eq_refl).
Defined.

(** *** The listeners, one event after the other *)

Section Events.
Variable hostname : string -> string.
Variable parseSharedDomain : string -> string.

#[local] Abbreviation domainOf := (domainOf hostname parseSharedDomain).
#[local] Abbreviation onUpdated := (onUpdated hostname parseSharedDomain).
#[local] Abbreviation deliver := (deliver hostname parseSharedDomain).
#[local] Abbreviation run := (run hostname parseSharedDomain).
#[local] Abbreviation recordedLabel :=
  (recordedLabel hostname parseSharedDomain).
#[local] Abbreviation trackedLabel :=
  (trackedLabel hostname parseSharedDomain).

(** X10. The tab-updated listener starts a pass exactly when no [lastError]
    is pending, the status is 'loading', the event has a URL, the label of
    that URL is not the one recorded for the tab and the setting is
    enabled; it starts at most one.  It changes the tracking map only by
    recording that label for that tab, and throws exactly when a
    [lastError] is pending. *)
Theorem onUpdated_organizes_only_on_change (lastError : option string)
    (state : JsObj) (groupByTabId : gmap Z string) (tabId : Z)
    (changeInfo : ChangeInfo) :
  let outcome := onUpdated lastError state groupByTabId tabId changeInfo in
  (organizeCalls outcome = 1
   <-> lastError = None
       /\ status changeInfo = Some "loading"
       /\ exists u,
            truthyUrl (changedUrl changeInfo) = Some u
            /\ groupByTabId !! tabId <> Some (domainOf u)
            /\ isAutomaticSortingEnabled state = true)
  /\ organizeCalls outcome <= 1
  /\ (tracking outcome = groupByTabId
      \/ exists u,
           truthyUrl (changedUrl changeInfo) = Some u
           /\ tracking outcome = <[tabId := domainOf u]> groupByTabId)
  /\ raised outcome = LastError <$> lastError.
Proof.
  cbv zeta. unfold SiteOrganizer.onUpdated.
  destruct lastError as [e |]; simpl.
  { split; [split; [discriminate | intros [H _]; discriminate H] |].
    split; [lia |]. split; [now left | reflexivity]. }
  destruct (decide (status changeInfo = Some "loading")) as [Hs | Hs].
  2: { rewrite (bool_decide_eq_false_2 _ Hs). simpl.
       split; [split; [discriminate | intros (_ & H & _); contradiction] |].
       split; [lia |]. split; [now left | reflexivity]. }
  rewrite (bool_decide_eq_true_2 _ Hs). simpl.
  destruct (truthyUrl (changedUrl changeInfo)) as [u |]; simpl.
  2: { split; [split; [discriminate |] |].
       - intros (_ & _ & u & H & _). discriminate H.
       - split; [lia |]. split; [now left | reflexivity]. }
  destruct (decide (groupByTabId !! tabId = Some (domainOf u))) as [Hd | Hd].
  { rewrite bool_decide_eq_false_2 by (intros H; now apply H). simpl.
    split; [split; [discriminate |] |].
    - intros (_ & _ & u' & [= <-] & H & _). contradiction.
    - split; [lia |]. split; [now left | reflexivity]. }
  rewrite (bool_decide_eq_true_2 _ Hd). simpl.
  destruct (isAutomaticSortingEnabled state); simpl.
  - split; [split; [intros _ | reflexivity] |].
    + split; [reflexivity |]. split; [exact Hs |]. exists u.
      split; [reflexivity |]. split; [exact Hd | reflexivity].
    + split; [lia |]. split; [right; exists u; now split | reflexivity].
  - split; [split; [discriminate |] |].
    + intros (_ & _ & u' & _ & _ & H). discriminate H.
    + split; [lia |]. split; [right; exists u; now split | reflexivity].
Qed.

(** X11. Delivering the same tab-updated event a second time starts no
    pass and leaves the tracking map as the first delivery left it,
    whatever the setting is by then. *)
Theorem onUpdated_repeated_is_noop (state state' : JsObj)
    (lastError' : option string) (groupByTabId : gmap Z string) (tabId : Z)
    (changeInfo : ChangeInfo) :
  let first := onUpdated None state groupByTabId tabId changeInfo in
  let second :=
    onUpdated lastError' state' (tracking first) tabId changeInfo in
  organizeCalls second = 0 /\ tracking second = tracking first.
Proof.
  cbv zeta. unfold SiteOrganizer.onUpdated.
  destruct lastError' as [e |];
    destruct (bool_decide (status changeInfo = Some "loading")); simpl;
    try (now split);
    destruct (truthyUrl (changedUrl changeInfo)) as [u |]; simpl;
    try (now split);
    destruct (decide (groupByTabId !! tabId = Some (domainOf u))) as [Hd | Hd].
  - rewrite (bool_decide_eq_false_2 (groupByTabId !! tabId ≠ _))
      by (intros H; now apply H).
    simpl. rewrite Hd.
    rewrite bool_decide_eq_false_2 by (intros H; now apply H). now split.
  - rewrite (bool_decide_eq_true_2 (groupByTabId !! tabId ≠ _)) by exact Hd.
    simpl.
    destruct (isAutomaticSortingEnabled state); simpl;
      rewrite lookup_insert_eq;
      rewrite bool_decide_eq_false_2 by (intros H; now apply H); now split.
Qed.

Lemma deliver_lookup (groupByTabId : gmap Z string) (d : Delivery)
    (tabId : Z) :
  tracking (deliver groupByTabId d) !! tabId
  = match event d with
    | Removed i =>
        if bool_decide (i = tabId) then None else groupByTabId !! tabId
    | _ =>
        match recordedLabel d tabId with
        | Some label => Some label
        | None => groupByTabId !! tabId
        end
    end.
Proof.
  unfold SiteOrganizer.deliver, SiteOrganizer.recordedLabel.
  destruct (event d) as [| i changeInfo | i].
  - unfold onClicked. now destruct (pendingError d).
  - unfold SiteOrganizer.onUpdated. destruct (pendingError d); [reflexivity |].
    destruct (bool_decide (status changeInfo = Some "loading"));
      simpl; [| now rewrite andb_false_r].
    rewrite andb_true_r.
    destruct (truthyUrl (changedUrl changeInfo)) as [u |]; simpl;
      [| now destruct (bool_decide (i = tabId))].
    destruct (decide (groupByTabId !! i = Some (domainOf u))) as [Hd | Hd].
    + rewrite bool_decide_eq_false_2 by (intros H; now apply H). simpl.
      destruct (decide (i = tabId)) as [-> | Hi].
      * now rewrite bool_decide_eq_true_2.
      * now rewrite bool_decide_eq_false_2.
    + rewrite bool_decide_eq_true_2 by exact Hd. simpl.
      assert (Hins : (<[i := domainOf u]> groupByTabId) !! tabId
                     = if bool_decide (i = tabId) then Some (domainOf u)
                       else groupByTabId !! tabId).
      { destruct (decide (i = tabId)) as [-> | Hi].
        - rewrite bool_decide_eq_true_2 by reflexivity.
          apply lookup_insert_eq.
        - rewrite bool_decide_eq_false_2 by exact Hi.
          now apply lookup_insert_ne. }
      destruct (isAutomaticSortingEnabled (storeState d)); simpl;
        rewrite Hins; now destruct (bool_decide (i = tabId)).
  - unfold onRemoved.
    assert (Hdel : delete i groupByTabId !! tabId
                   = if bool_decide (i = tabId) then None
                     else groupByTabId !! tabId).
    { destruct (decide (i = tabId)) as [-> | Hi].
      - rewrite bool_decide_eq_true_2 by reflexivity. apply lookup_delete_eq.
      - rewrite bool_decide_eq_false_2 by exact Hi.
        now apply lookup_delete_ne. }
    destruct (isAutomaticSortingEnabled (storeState d)); simpl;
      exact Hdel.
Qed.

(** X12. After any sequence of events, the tracking map holds for a tab the
    label of its last tab-updated event that came with status 'loading', a
    URL and no pending [lastError], unless a tab-removed event for the tab
    came later, in which case it holds nothing; events of other tabs and
    clicks do not touch the entry. *)
Theorem run_tracks_latest_label (groupByTabId : gmap Z string)
    (ds : list Delivery) (tabId : Z) :
  fst (run groupByTabId ds) !! tabId
  = trackedLabel (groupByTabId !! tabId) ds tabId.
Proof.
  revert groupByTabId. induction ds as [| d rest IH]; intros g;
    [reflexivity |].
  simpl.
  destruct (SiteOrganizer.run hostname parseSharedDomain
              (tracking (deliver g d)) rest) as [final calls] eqn:Hrun.
  simpl. specialize (IH (tracking (deliver g d))). rewrite Hrun in IH.
  simpl in IH. rewrite IH. now rewrite deliver_lookup.
Qed.

(** X13. While the setting is disabled, a sequence of events starts one
    pass per click on the icon that finds no [lastError], and none for the
    tab updates and removals; with the setting enabled or not, it starts at
    most one pass per event. *)
Theorem run_disabled_only_clicks (groupByTabId : gmap Z string)
    (ds : list Delivery) :
  snd (run groupByTabId ds) <= length ds
  /\ (Forall (fun d => isAutomaticSortingEnabled (storeState d) = false) ds ->
      snd (run groupByTabId ds) = length (List.filter isClick ds)).
Proof.
  revert groupByTabId. induction ds as [| d rest IH]; intros g;
    [split; [simpl; lia | reflexivity] |].
  simpl.
  destruct (SiteOrganizer.run hostname parseSharedDomain
              (tracking (deliver g d)) rest) as [final calls] eqn:Hrun.
  destruct (IH (tracking (deliver g d))) as [IHle IHeq].
  rewrite Hrun in IHle, IHeq. simpl in *.
  assert (Hone : organizeCalls (deliver g d) <= 1
                 /\ (isAutomaticSortingEnabled (storeState d) = false ->
                     organizeCalls (deliver g d)
                     = if isClick d then 1 else 0)).
  { unfold SiteOrganizer.deliver, isClick.
    destruct (event d) as [| i changeInfo | i].
    - unfold onClicked. destruct (pendingError d); simpl; split; auto.
    - unfold SiteOrganizer.onUpdated.
      destruct (pendingError d); simpl; [split; auto |].
      destruct (bool_decide (status changeInfo = Some "loading")); simpl;
        [| split; auto].
      destruct (truthyUrl (changedUrl changeInfo)); simpl; [| split; auto].
      destruct (bool_decide (g !! i ≠ _)); simpl; [| split; auto].
      destruct (isAutomaticSortingEnabled (storeState d)); simpl;
        split; auto; discriminate.
    - unfold onRemoved.
      destruct (isAutomaticSortingEnabled (storeState d)); simpl;
        split; auto; discriminate. }
  destruct Hone as [Hle Hoff]. split; [lia |].
  intros Hall. apply Forall_cons in Hall as [Hd Hrest].
  rewrite (Hoff Hd), (IHeq Hrest).
  destruct (isClick d); reflexivity.
Qed.

End Events.

Lemma run_disabled_only_clicks_witness :
  let off := [("enableAutomaticSorting", JBool false)] in
  let ds :=
    [ mkDelivery
        (Updated 1 (mkChangeInfo (Some "loading") (Some "https://a.example/x")))
        None off;
      mkDelivery Clicked None off;
      mkDelivery (Removed 1) None off ] in
  Forall (fun d => isAutomaticSortingEnabled (storeState d) = false) ds
  /\ snd (run Demo.hostname Demo.parseSharedDomain ∅ ds) = 1.
Proof.
  cbv zeta.
  match goal with
  | |- Forall _ ?ds /\ _ =>
      assert (Hoff : Forall (fun d => isAutomaticSortingEnabled (storeState d)
                                      = false) ds)
        by (repeat constructor);
      split; [exact Hoff |];
      exact (proj2 (run_disabled_only_clicks Demo.hostname
                      Demo.parseSharedDomain ∅ ds) Hoff)
  end.
Defined.

(** A tab is tracked after its update and forgotten after its removal. *)
Example run_example :
  let on := [("enableAutomaticSorting", JBool true)] in
  let update :=
    mkDelivery
      (Updated 1 (mkChangeInfo (Some "loading") (Some "https://a.example/x")))
      None on in
  run Demo.hostname Demo.parseSharedDomain ∅ [update; update]
  = ({[ 1%Z := "a.example" ]}, 1)
  /\ run Demo.hostname Demo.parseSharedDomain ∅
       [update; mkDelivery (Removed 1) None on]
     = (∅, 2).
Proof. split; reflexivity. Qed.

(** *** A second pass *)

Lemma sortBy_fixed {A} (compare : A -> A -> Z) (l : list A) :
  StronglySorted (fun a b => (compare a b <= 0)%Z) l ->
  sortBy compare l = l.
Proof.
  induction 1 as [| x l _ IH Hx]; [reflexivity |].
  simpl. rewrite IH. destruct l as [| y rest]; [reflexivity |].
  simpl. apply Forall_cons in Hx as [Hxy _].
  apply Z.leb_le in Hxy. now rewrite Hxy.
Qed.

Section SecondPass.
Variable hostname : string -> string.
Variable parseSharedDomain : string -> string.
Variable localeCompare : string -> string -> Z.
Variable isTabGroupingSupported : bool.
Hypothesis localeCompare_total :
  forall a b, (localeCompare a b <= 0)%Z \/ (localeCompare b a <= 0)%Z.
Hypothesis localeCompare_trans :
  forall a b c, (localeCompare a b <= 0)%Z -> (localeCompare b c <= 0)%Z ->
                (localeCompare a c <= 0)%Z.

#[local] Abbreviation compareLabels :=
  (compareLabels hostname parseSharedDomain localeCompare).
#[local] Abbreviation sortTabsAlphabetically :=
  (sortTabsAlphabetically hostname parseSharedDomain localeCompare).
#[local] Abbreviation organize :=
  (organize hostname parseSharedDomain localeCompare isTabGroupingSupported).

(** X27. Sorting the sorted sequence gives it back, so a pass over the
    tabs listed in the order the sort produced issues the calls of the
    first pass again: the same moves, the same groups with the same
    indices, the same ungroup calls. *)
Theorem organize_again_repeats_pass (lastError : option string)
    (tabs sortedTabs : list Tab) :
  Forall (fun tab => hasUrl tab = true) tabs ->
  sortTabsAlphabetically tabs = Ok sortedTabs ->
  sortTabsAlphabetically sortedTabs = Ok sortedTabs
  /\ organize lastError sortedTabs = organize lastError tabs.
Proof.
  intros Hall Hsort.
  assert (Hpure : forall l, Forall (fun tab => hasUrl tab = true) l ->
                    sortTabsAlphabetically l = Ok (sortBy compareLabels l)).
  { intros l Hl. apply Array_sort_pure. intros a b Ha Hb.
    rewrite List.Forall_forall in Hl.
    apply compareTabs_pure; auto. }
  rewrite (Hpure tabs Hall) in Hsort. injection Hsort as <-.
  assert (Hsorted : sortBy compareLabels (sortBy compareLabels tabs)
                    = sortBy compareLabels tabs).
  { apply sortBy_fixed. apply (sortBy_sorted compareLabels).
    - intros a b. unfold SiteOrganizer.compareLabels.
      rewrite !(domainCompare_labelOrder localeCompare localeCompare_total).
      apply (labelOrder_total localeCompare localeCompare_total).
    - intros a b c. unfold SiteOrganizer.compareLabels.
      rewrite !(domainCompare_labelOrder localeCompare localeCompare_total).
      apply (labelOrder_trans localeCompare localeCompare_trans). }
  assert (Hagain : sortTabsAlphabetically (sortBy compareLabels tabs)
                   = Ok (sortBy compareLabels tabs)).
  { rewrite Hpure; [now rewrite Hsorted |].
    apply List.Forall_forall. intros tab Hin.
    rewrite List.Forall_forall in Hall. apply Hall.
    apply list_elem_of_In. rewrite (sortBy_Permutation compareLabels tabs).
    now apply list_elem_of_In. }
  split; [exact Hagain |].
  unfold SiteOrganizer.organize. now rewrite Hagain, (Hpure tabs Hall).
Qed.

End SecondPass.

Lemma organize_again_repeats_pass_witness :
  let sortedTabs := [ Demo.tab 1 "https://a.example/x" 1;
                      Demo.tab 3 "https://a.example/z" 1;
                      Demo.tab 2 "https://b.example/y" 1 ] in
  (Forall (fun tab => hasUrl tab = true) Demo.exampleTabs
   /\ sortTabsAlphabetically Demo.hostname Demo.parseSharedDomain
        Demo.localeCompare Demo.exampleTabs = Ok sortedTabs)
  /\ Demo.organize sortedTabs = Demo.organize Demo.exampleTabs.
Proof.
  cbv zeta.
  assert (H1 : Forall (fun tab => hasUrl tab = true) Demo.exampleTabs)
    by (repeat constructor).
  split; [split; [exact H1 | reflexivity] |].
  exact (proj2 (organize_again_repeats_pass Demo.hostname
                  Demo.parseSharedDomain Demo.localeCompare true
                  Demo_localeCompare_total Demo_localeCompare_trans None
                  Demo.exampleTabs _ H1 eq_refl)).
Defined.

End SiteOrganizerFacts.

(** ** The earlier organizer and the earlier store *)

Module LegacyFacts.

#[local] Arguments String.eqb : simpl never.

Section Render.
Implicit Types (t : list (string * list (option Z))).

Lemma renderGroups_entries t (entries : list (string * list (option Z)))
    (idx : Z) :
  (forall entry, In entry entries ->
                 obj_lookup t (fst entry) = Some (snd entry)) ->
  TabOrganizer.renderGroups t (map fst entries) idx
  = imap (fun i entry =>
            if TabOrganizer.realEntry entry
            then TabOrganizer.AddNewGroup (idx + Z.of_nat i) (fst entry)
                   (snd entry)
            else TabOrganizer.Ungroup (snd entry)) entries.
Proof.
  revert idx. induction entries as [| entry rest IH]; intros idx Hlook;
    [reflexivity |].
  simpl. rewrite (Hlook entry) by now left. simpl.
  rewrite IH by (intros e He; apply Hlook; now right).
  unfold TabOrganizer.realEntry. f_equal.
  - rewrite Z.add_0_r.
    destruct (snd entry) as [| i [| j ids]]; reflexivity.
  - apply imap_ext. intros i e _. simpl.
    replace (idx + 1 + Z.of_nat i)%Z with (idx + Z.of_nat (S i))%Z by lia.
    reflexivity.
Qed.

Lemma filter_keys_entries t (keep : string * list (option Z) -> bool)
    (entries : list (string * list (option Z))) :
  (forall entry, In entry entries ->
                 obj_lookup t (fst entry) = Some (snd entry)) ->
  List.filter (fun group => keep (group, default [] (obj_lookup t group)))
    (map fst entries)
  = map fst (List.filter keep entries).
Proof.
  induction entries as [| [group ids] rest IH]; intros Hlook;
    [reflexivity |].
  pose proof (Hlook (group, ids) (or_introl eq_refl)) as Hhere.
  simpl in Hhere. simpl. rewrite Hhere. simpl.
  rewrite IH by (intros e He; apply Hlook; now right).
  now destruct (keep (group, ids)).
Qed.

(** X21. In the earlier organizer, the groups of two tabs or more are
    created first, in the order of their keys, with the indices 0, 1, 2,
    ..., and the buckets of one tab are ungrouped after them: the index, and
    so the colour, of a group depends on the real groups before it only,
    not on the orphans. *)
Theorem legacy_render_indexes_real_groups_first t :
  NoDup (obj_keys t) ->
  TabOrganizer.renderBrowserTabGroups t
  = imap (fun i entry =>
            TabOrganizer.AddNewGroup (Z.of_nat i) (fst entry) (snd entry))
      (List.filter TabOrganizer.realEntry t)
    ++ map (fun entry => TabOrganizer.Ungroup (snd entry))
         (List.filter (fun entry => negb (TabOrganizer.realEntry entry)) t).
Proof.
  intros Hnd. unfold TabOrganizer.renderBrowserTabGroups. cbv zeta.
  assert (Hlook : forall entry, In entry t ->
                    obj_lookup t (fst entry) = Some (snd entry)).
  { intros [group ids] Hin. now apply obj_lookup_In. }
  assert (Hreal :
    List.filter
      (fun group => (1 <? length (default [] (obj_lookup t group)))%nat)
      (obj_keys t)
    = map fst (List.filter TabOrganizer.realEntry t))
    by exact (filter_keys_entries t TabOrganizer.realEntry t Hlook).
  assert (Horphan :
    List.filter
      (fun group =>
         negb (1 <? length (default [] (obj_lookup t group)))%nat)
      (obj_keys t)
    = map fst (List.filter
                 (fun entry => negb (TabOrganizer.realEntry entry)) t))
    by exact (filter_keys_entries t
                (fun entry => negb (TabOrganizer.realEntry entry)) t Hlook).
  rewrite Hreal, Horphan.
  rewrite <- map_app. rewrite renderGroups_entries.
  - rewrite imap_app. f_equal.
    + apply imap_ext. intros i entry Hi. simpl.
      apply list_elem_of_lookup_2, list_elem_of_In, filter_In in Hi as [_ Hr].
      now rewrite Hr.
    + rewrite <- (imap_const (fun entry => TabOrganizer.Ungroup (snd entry))).
      apply imap_ext. intros i entry Hi. simpl.
      apply list_elem_of_lookup_2, list_elem_of_In, filter_In in Hi as [_ Hr].
      apply negb_true_iff in Hr. now rewrite Hr.
  - intros entry Hin. apply Hlook.
    apply in_app_iff in Hin as [Hin | Hin]; now apply filter_In in Hin.
Qed.

End Render.

Section Buckets.
Variable hostname : string -> string.
Variable parseSharedDomain : string -> string.

#[local] Abbreviation inBucket :=
  (TabOrganizer.inBucket hostname parseSharedDomain).
#[local] Abbreviation collectTabIds :=
  (TabOrganizer.collectTabIds hostname parseSharedDomain).

Lemma legacy_collect_bucket (tabs : list SiteOrganizer.Tab)
    (acc : list (string * list (option Z))) (domain : string) :
  default [] (obj_lookup (collectTabIds acc tabs) domain)
  = default [] (obj_lookup acc domain)
    ++ map SiteOrganizer.id (List.filter (inBucket domain) tabs).
Proof.
  revert acc. induction tabs as [| tab rest IH]; intros acc; simpl.
  - now rewrite app_nil_r.
  - unfold TabOrganizer.inBucket at 1.
    destruct (SiteOrganizer.truthyUrl (SiteOrganizer.url tab)) as [u |];
      [| apply IH].
    rewrite IH.
    set (label := TabOrganizer.domainOrSystem hostname parseSharedDomain u).
    destruct (obj_lookup acc label) as [ids |] eqn:Hlook;
      rewrite obj_lookup_set;
      destruct (String.eqb_spec label domain) as [<- | Hne]; simpl;
      rewrite ?Hlook; simpl; rewrite <- ?app_assoc; reflexivity.
Qed.

Lemma legacy_collect_keys (tabs : list SiteOrganizer.Tab)
    (acc : list (string * list (option Z))) :
  ~ In "" (obj_keys acc) -> NoDup (obj_keys acc) ->
  ~ In "" (obj_keys (collectTabIds acc tabs))
  /\ NoDup (obj_keys (collectTabIds acc tabs)).
Proof.
  revert acc. induction tabs as [| tab rest IH]; intros acc Hempty Hnd;
    simpl; [now split |].
  destruct (SiteOrganizer.truthyUrl (SiteOrganizer.url tab)) as [u |];
    [| now apply IH].
  assert (Hlabel : TabOrganizer.domainOrSystem hostname parseSharedDomain u
                   <> "").
  { unfold TabOrganizer.domainOrSystem.
    destruct (String.eqb_spec (parseSharedDomain (hostname u)) "");
      [discriminate | assumption]. }
  destruct (obj_lookup acc _); apply IH;
    try (now apply obj_set_NoDup);
    rewrite obj_keys_set_incl; intros [H | H]; congruence.
Qed.

(** X22. The earlier [sortTabIdsByDomain] files under each domain label the
    ids, as the tabs have them, of the tabs that have a URL with that label,
    in the order of the list; a tab without a URL is in no bucket, a tab
    whose parsed domain is empty is under "system", and the empty string is
    never a key. *)
Theorem legacy_sortTabIdsByDomain_buckets (tabs : list SiteOrganizer.Tab)
    (domain : string) :
  let t := TabOrganizer.sortTabIdsByDomain hostname parseSharedDomain tabs in
  default [] (obj_lookup t domain)
  = map SiteOrganizer.id (List.filter (inBucket domain) tabs)
  /\ ~ In "" (obj_keys t)
  /\ NoDup (obj_keys t)
  /\ forall tab,
       In tab tabs ->
       match SiteOrganizer.truthyUrl (SiteOrganizer.url tab) with
       | None => forall label, inBucket label tab = false
       | Some u =>
           parseSharedDomain (hostname u) = "" -> inBucket "system" tab = true
       end.
Proof.
  cbv zeta. unfold TabOrganizer.sortTabIdsByDomain.
  split; [now rewrite legacy_collect_bucket |].
  destruct (legacy_collect_keys tabs []) as [Hempty Hnd];
    [intros [] | constructor |].
  split; [exact Hempty | split; [exact Hnd |]].
  intros tab _. unfold TabOrganizer.inBucket.
  destruct (SiteOrganizer.truthyUrl (SiteOrganizer.url tab)) as [u |];
    [| reflexivity].
  intros Hu. unfold TabOrganizer.domainOrSystem. rewrite Hu.
  reflexivity.
Qed.

(** X23. Whenever the listener of [SiteOrganizer] starts a pass for a
    tab-updated event, the listener of the earlier organizer starts one for
    the same event, setting and [lastError]: tracking the label of each tab
    only removes passes. *)
Theorem tracking_only_removes_passes (lastError : option string)
    (state : JsObj) (groupByTabId : gmap Z string) (tabId : Z)
    (changeInfo : SiteOrganizer.ChangeInfo) :
  SiteOrganizer.organizeCalls
    (SiteOrganizer.onUpdated hostname parseSharedDomain lastError state
       groupByTabId tabId changeInfo) = 1 ->
  fst (TabOrganizer.onUpdated lastError state changeInfo) = true.
Proof.
  unfold SiteOrganizer.onUpdated, TabOrganizer.onUpdated,
    SiteOrganizer.isAutomaticSortingEnabled.
  destruct lastError as [e |]; simpl; [discriminate |].
  destruct (bool_decide (SiteOrganizer.status changeInfo = Some "loading"));
    simpl; [| discriminate].
  destruct (SiteOrganizer.truthyUrl (SiteOrganizer.changedUrl changeInfo))
    as [u |]; simpl; [| now destruct (truthy _)].
  destruct (bool_decide (groupByTabId !! tabId ≠ _)); simpl;
    [| discriminate].
  destruct (truthy _); simpl; [reflexivity | discriminate].
Qed.

End Buckets.

Section LegacySort.
Variable hostname : string -> string.
Variable parseSharedDomain : string -> string.
Variable localeCompare : string -> string -> Z.
Hypothesis localeCompare_total :
  forall a b, (localeCompare a b <= 0)%Z \/ (localeCompare b a <= 0)%Z.
Hypothesis localeCompare_trans :
  forall a b c, (localeCompare a b <= 0)%Z -> (localeCompare b c <= 0)%Z ->
                (localeCompare a c <= 0)%Z.

#[local] Abbreviation labelOf :=
  (SiteOrganizer.labelOf hostname parseSharedDomain).

(** X24. The earlier [sortTabsAlphabetically] sorts tabs that all have a
    URL by [localeCompare] of their labels alone, with no exception for
    "new": the result holds the same tabs, ascending, the tabs of one label
    in the order they came in.  With two tabs or more, one without a URL,
    it throws 'No url for sorted tab'. *)
Theorem legacy_sort_has_no_exception (tabs : list SiteOrganizer.Tab) :
  (Forall (fun tab => SiteOrganizer.hasUrl tab = true) tabs ->
   exists sortedTabs,
     TabOrganizer.sortTabsAlphabetically hostname parseSharedDomain
       localeCompare tabs = Ok sortedTabs
     /\ Permutation tabs sortedTabs
     /\ StronglySorted
          (fun a b => (localeCompare (labelOf a) (labelOf b) <= 0)%Z)
          sortedTabs
     /\ forall label,
          List.filter (fun tab => String.eqb (labelOf tab) label) sortedTabs
          = List.filter (fun tab => String.eqb (labelOf tab) label) tabs)
  /\ (Exists (fun tab => SiteOrganizer.hasUrl tab = false) tabs ->
      2 <= length tabs ->
      TabOrganizer.sortTabsAlphabetically hostname parseSharedDomain
        localeCompare tabs = Throw (Error "No url for sorted tab")).
Proof.
  set (compare := fun a b => localeCompare (labelOf a) (labelOf b)).
  split.
  - intros Hall. exists (SiteOrganizer.sortBy compare tabs).
    split; [| split; [| split]].
    + apply SiteOrganizerFacts.Array_sort_pure. intros a b Ha Hb.
      rewrite List.Forall_forall in Hall.
      pose proof (Hall a Ha) as Hau. pose proof (Hall b Hb) as Hbu.
      unfold TabOrganizer.compareTabs, compare, SiteOrganizer.labelOf,
        SiteOrganizer.hasUrl, SiteOrganizer.domainOf in *.
      destruct (SiteOrganizer.truthyUrl (SiteOrganizer.url a));
        [| discriminate].
      destruct (SiteOrganizer.truthyUrl (SiteOrganizer.url b));
        [reflexivity | discriminate].
    + apply SiteOrganizerFacts.sortBy_Permutation.
    + apply (SiteOrganizerFacts.sortBy_sorted compare).
      * intros a b. apply localeCompare_total.
      * intros a b c. apply localeCompare_trans.
    + intros label. apply SiteOrganizerFacts.sortBy_filter.
      intros a b Ha Hb. apply String.eqb_eq in Ha, Hb. unfold compare.
      rewrite Ha, Hb. destruct (localeCompare_total label label); assumption.
  - intros Hex Hlen.
    apply (SiteOrganizerFacts.Array_sort_bad
             (TabOrganizer.compareTabs hostname parseSharedDomain
                localeCompare)
             (fun tab => negb (SiteOrganizer.hasUrl tab))
             (Error "No url for sorted tab")).
    + intros a b. unfold TabOrganizer.compareTabs, SiteOrganizer.hasUrl.
      destruct (SiteOrganizer.truthyUrl (SiteOrganizer.url a)),
               (SiteOrganizer.truthyUrl (SiteOrganizer.url b)); simpl;
        intros [H | H]; try discriminate; reflexivity.
    + intros a b e. unfold TabOrganizer.compareTabs.
      destruct (SiteOrganizer.truthyUrl (SiteOrganizer.url a)),
               (SiteOrganizer.truthyUrl (SiteOrganizer.url b));
        try discriminate; now intros [= <-].
    + eapply List.Exists_impl; [| exact Hex].
      intros tab H. simpl. now rewrite H.
    + exact Hlen.
Qed.

End LegacySort.

Lemma legacy_sort_has_no_exception_witness :
  Forall (fun tab => SiteOrganizer.hasUrl tab = true) Demo.newTabs
  /\ exists sortedTabs,
       TabOrganizer.sortTabsAlphabetically Demo.hostname
         Demo.parseSharedDomain Demo.localeCompare Demo.newTabs
       = Ok sortedTabs
       /\ Permutation Demo.newTabs sortedTabs
       /\ StronglySorted
            (fun a b =>
               (Demo.localeCompare
                  (SiteOrganizer.labelOf Demo.hostname Demo.parseSharedDomain a)
                  (SiteOrganizer.labelOf Demo.hostname Demo.parseSharedDomain b)
                <= 0)%Z) sortedTabs
       /\ forall label,
            List.filter
              (fun tab =>
                 String.eqb
                   (SiteOrganizer.labelOf Demo.hostname
                      Demo.parseSharedDomain tab) label) sortedTabs
            = List.filter
                (fun tab =>
                   String.eqb
                     (SiteOrganizer.labelOf Demo.hostname
                        Demo.parseSharedDomain tab) label) Demo.newTabs.
Proof.
  assert (H : Forall (fun tab => SiteOrganizer.hasUrl tab = true) Demo.newTabs)
    by (repeat constructor).
  split; [exact H |].
  exact (proj1 (legacy_sort_has_no_exception Demo.hostname
                  Demo.parseSharedDomain Demo.localeCompare
                  SiteOrganizerFacts.Demo_localeCompare_total
                  SiteOrganizerFacts.Demo_localeCompare_trans Demo.newTabs) H).
Defined.

(** Where the two organizers differ: "new" before "zed", and after it. *)
Example legacy_sort_example :
  (TabOrganizer.sortTabsAlphabetically Demo.hostname Demo.parseSharedDomain
     Demo.localeCompare Demo.newTabs)
  = Ok [ Demo.tab 3 "https://a.example/" 1; Demo.tab 1 "https://new/" 1;
         Demo.tab 2 "https://zed/" 1 ]
  /\ (SiteOrganizer.sortTabsAlphabetically Demo.hostname
        Demo.parseSharedDomain Demo.localeCompare Demo.newTabs)
     = Ok [ Demo.tab 3 "https://a.example/" 1; Demo.tab 2 "https://zed/" 1;
            Demo.tab 1 "https://new/" 1 ].
Proof. split; reflexivity. Qed.

Section LegacyStoreFacts.
Variable JSON_parse : string -> option JsValue.
Variable JSON_stringify : JsObj -> string.

Lemma legacy_validate_shape (props : JsObj) :
  LegacyStore.validateParsedState (JObj props)
  = Ok (if includes (obj_keys props) "enableAutomaticSorting"
        then [("enableAutomaticSorting",
               prop_get (JObj props) "enableAutomaticSorting")]
        else []).
Proof.
  unfold LegacyStore.validateParsedState. simpl. f_equal.
  assert (Hstep : forall keys acc,
    fold_left
      (fun validState stateKey =>
         if negb (LegacyStore.isKeyValid stateKey) then validState
         else obj_set validState stateKey (prop_get (JObj props) stateKey))
      keys acc
    = if includes keys "enableAutomaticSorting"
      then obj_set acc "enableAutomaticSorting"
             (prop_get (JObj props) "enableAutomaticSorting")
      else acc).
  { induction keys as [| k rest IH]; intros acc; [reflexivity |].
    simpl fold_left. rewrite IH. unfold includes. simpl existsb.
    unfold LegacyStore.isKeyValid, includes. simpl existsb.
    rewrite orb_false_r. rewrite (String.eqb_sym k).
    destruct (String.eqb_spec "enableAutomaticSorting" k) as [<- | Hne];
      simpl; [| reflexivity].
    destruct (existsb _ rest); [| reflexivity].
    now rewrite obj_set_overwrite. }
  rewrite Hstep. now destruct (includes (obj_keys props) _).
Qed.

(** X25. For a blob that parses to an object, the earlier [parseValidState]
    keeps the value of [enableAutomaticSorting] when the blob has that key
    and drops every other key. *)
Theorem legacy_parseValidState_keeps_setting (blob : string) (props : JsObj) :
  blob <> "" ->
  JSON_parse blob = Some (JObj props) ->
  LegacyStore.parseValidState JSON_parse blob
  = Ok (if includes (obj_keys props) "enableAutomaticSorting"
        then [("enableAutomaticSorting",
               prop_get (JObj props) "enableAutomaticSorting")]
        else []).
Proof.
  intros Hne Hparse. unfold LegacyStore.parseValidState.
  destruct (String.eqb_spec blob "") as [-> | _]; [congruence |].
  rewrite Hparse. apply legacy_validate_shape.
Qed.

(** X26. What the earlier store persisted, the current store loads: when
    the earlier state has its one key and the partial state sets that key
    only, the blob [setState] wrote makes [load] on a new current store
    return the defaults with [enableAlphabeticSorting] set to the value the
    earlier store held under [enableAutomaticSorting]. *)
Theorem upgrade_reads_legacy_setting (oldState partial : JsObj)
    (settings : JsValue) :
  obj_keys oldState = obj_keys LegacyStore.makeDefaultState ->
  Forall (fun key => LegacyStore.isKeyValid key = true) (obj_keys partial) ->
  let '(memory, persisted, _) :=
    LegacyStore.setState JSON_stringify oldState settings None partial in
  JSON_stringify memory <> "" ->
  JSON_parse (JSON_stringify memory) = Some (JObj memory) ->
  exists v,
    memory = [("enableAutomaticSorting", v)]
    /\ Store.load JSON_parse Store.create (Ok persisted)
       = Ok (Store.mk
               (obj_set Store.makeDefaultState "enableAlphabeticSorting" v)
               true).
Proof.
  intros Hold Hpartial. unfold LegacyStore.setState,
    LegacyStore.setInternalState.
  set (memory := spread oldState partial). intros Hblob Hparse.
  assert (Hkeys : obj_keys memory = ["enableAutomaticSorting"]).
  { unfold memory, spread.
    assert (Hnd : NoDup (obj_keys oldState))
      by (rewrite Hold; repeat constructor; rewrite list_elem_of_In;
          intros []).
    rewrite (assign_rebuild [] oldState) by exact Hnd. simpl.
    rewrite assign_keys_known; [exact Hold |].
    eapply List.Forall_impl; [| exact Hpartial].
    intros key Hvalid. rewrite Hold. now apply includes_In. }
  destruct memory as [| [k v] [| ? ?]] eqn:Hm; try discriminate Hkeys.
  simpl in Hkeys. injection Hkeys as ->.
  exists v. split; [reflexivity |].
  unfold Store.load, Store.cacheStorage, Store.parseValidState. simpl.
  destruct (String.eqb_spec
              (JSON_stringify [("enableAutomaticSorting", v)]) "")
    as [E | _]; [congruence |].
  rewrite Hparse. reflexivity.
Qed.

End LegacyStoreFacts.

Lemma legacy_parseValidState_keeps_setting_witness :
  let blob := Demo.JSON_stringify [("enableAutomaticSorting", JBool false)] in
  (blob <> ""
   /\ Demo.JSON_parseLegacy blob
      = Some (JObj [("enableAutomaticSorting", JBool false)]))
  /\ LegacyStore.parseValidState Demo.JSON_parseLegacy blob
     = Ok [("enableAutomaticSorting", JBool false)].
Proof.
  cbv zeta.
  assert (H1 : Demo.JSON_stringify [("enableAutomaticSorting", JBool false)]
               <> "") by (vm_compute; discriminate).
  assert (H2 : Demo.JSON_parseLegacy
                 (Demo.JSON_stringify [("enableAutomaticSorting", JBool false)])
               = Some (JObj [("enableAutomaticSorting", JBool false)]))
    by reflexivity.
  split; [now split |].
  exact (legacy_parseValidState_keeps_setting Demo.JSON_parseLegacy _ _ H1 H2).
Defined.

Lemma upgrade_reads_legacy_setting_witness :
  let partial := [("enableAutomaticSorting", JBool false)] in
  (obj_keys LegacyStore.makeDefaultState
   = obj_keys LegacyStore.makeDefaultState
   /\ Forall (fun key => LegacyStore.isKeyValid key = true) (obj_keys partial))
  /\ exists v,
       spread LegacyStore.makeDefaultState partial
       = [("enableAutomaticSorting", v)]
       /\ Store.load Demo.JSON_parseLegacy Store.create
            (Ok (JStr (Demo.JSON_stringify
                         (spread LegacyStore.makeDefaultState partial))))
          = Ok (Store.mk
                  (obj_set Store.makeDefaultState "enableAlphabeticSorting" v)
                  true).
Proof.
  cbv zeta.
  assert (H2 : Forall (fun key => LegacyStore.isKeyValid key = true)
                 (obj_keys [("enableAutomaticSorting", JBool false)]))
    by (repeat constructor).
  split; [split; [reflexivity | exact H2] |].
  assert (H3 : Demo.JSON_stringify
                 (spread LegacyStore.makeDefaultState
                    [("enableAutomaticSorting", JBool false)]) <> "")
    by (vm_compute; discriminate).
  exact (upgrade_reads_legacy_setting Demo.JSON_parseLegacy
           Demo.JSON_stringify LegacyStore.makeDefaultState
           [("enableAutomaticSorting", JBool false)] JUndefined
           eq_refl H2 H3 eq_refl).
Defined.

Lemma legacy_render_indexes_real_groups_first_witness :
  let t := [ ("a.example", [Some 1%Z; Some 3%Z]);
             ("b.example", [Some 2%Z]);
             ("c.example", [Some 4%Z; Some 5%Z]) ] in
  NoDup (obj_keys t)
  /\ TabOrganizer.renderBrowserTabGroups t
     = [ TabOrganizer.AddNewGroup 0 "a.example" [Some 1%Z; Some 3%Z];
         TabOrganizer.AddNewGroup 1 "c.example" [Some 4%Z; Some 5%Z];
         TabOrganizer.Ungroup [Some 2%Z] ].
Proof.
  cbv zeta.
  assert (H : NoDup (obj_keys [ ("a.example", [Some 1%Z; Some 3%Z]);
                                 ("b.example", [Some 2%Z]);
                                 ("c.example", [Some 4%Z; Some 5%Z]) ])).
  { repeat constructor; rewrite ?list_elem_of_In; simpl;
      intuition discriminate. }
  split; [exact H |].
  exact (legacy_render_indexes_real_groups_first _ H).
Defined.

Lemma tracking_only_removes_passes_witness :
  let changeInfo :=
    SiteOrganizer.mkChangeInfo (Some "loading") (Some "https://a.example/x") in
  let state := [("enableAutomaticSorting", JBool true)] in
  SiteOrganizer.organizeCalls
    (SiteOrganizer.onUpdated Demo.hostname Demo.parseSharedDomain None state
       ∅ 1 changeInfo) = 1
  /\ fst (TabOrganizer.onUpdated None state changeInfo) = true.
Proof.
  cbv zeta. split; [reflexivity |].
  exact (tracking_only_removes_passes Demo.hostname Demo.parseSharedDomain
           None [("enableAutomaticSorting", JBool true)] ∅ 1
           (SiteOrganizer.mkChangeInfo (Some "loading")
              (Some "https://a.example/x")) eq_refl).
Defined.

End LegacyFacts.
